(** * AlgoArt1: the fractal-field / point-extraction / TSP pipeline

    A shallow embedding of [mandelbrotTSP1.py] and of the escape-time loop
    and smoothing of [julia_set.py].

    Numbers.  The scripts compute with binary64 floats.  The code is
    embedded once, generically over a numeric interface [Arith], and the
    interface has three instances: the kernel's binary64 floats
    ([float_arith], what the scripts compute, evaluated by [vm_compute]);
    the real numbers ([real_arith], the same code read with exact
    arithmetic); and the reals extended with [nan] and the two infinities
    ([xreal_arith], exact arithmetic that keeps what IEEE division and
    logarithm do at 0).  Statements that do not depend on arithmetic are
    proved for every instance.

    Randomness.  A call to numpy's global generator is a relation between
    its arguments and every outcome it can have; [extract_points] and [main]
    are therefore relations too.

    Errors.  A Python exception is a [Raise] of the error monad. *)

From Stdlib Require Import Floats.PrimFloat.
From Stdlib Require Floats.SpecFloat Floats.FloatAxioms.
From Stdlib Require Uint63.
From Stdlib Require Import List ZArith Lia Bool Permutation Sorted.
From Stdlib Require Import Reals Lra.
Import ListNotations.

Set Implicit Arguments.

(** ** Python exceptions and the error monad *)

Inductive exn : Type :=
| ValueError
| IndexError
| KeyError.

Inductive result (A : Type) : Type :=
| Ok (a : A)
| Raise (e : exn).

Arguments Ok {A} a.
Arguments Raise {A} e.

Definition bind {A B : Type} (m : result A) (k : A -> result B) : result B :=
  match m with
  | Ok a => k a
  | Raise e => Raise e
  end.

Notation "x <- m ;; k" := (bind m (fun x => k))
  (at level 61, m at next level, right associativity).
Notation "' p <- m ;; k" := (bind m (fun x => let p := x in k))
  (at level 61, p pattern, m at next level, right associativity).

(** ** The numeric interface *)

Class Arith (D : Type) : Type := {
  of_Z : Z -> D;
  dadd : D -> D -> D;
  dsub : D -> D -> D;
  dmul : D -> D -> D;
  ddiv : D -> D -> D;
  dsqrt : D -> D;
  deqb : D -> D -> bool;
  dltb : D -> D -> bool;
  dleb : D -> D -> bool
}.

Declare Scope arith_scope.
Delimit Scope arith_scope with D.
Infix "+" := dadd : arith_scope.
Infix "-" := dsub : arith_scope.
Infix "*" := dmul : arith_scope.
Infix "/" := ddiv : arith_scope.

(** Binary64, as numpy's float64. *)
Definition float_of_Z (z : Z) : float :=
  match z with
  | Z0 => PrimFloat.zero
  | Zpos _ => PrimFloat.of_uint63 (Uint63.of_Z z)
  | Zneg p => PrimFloat.opp (PrimFloat.of_uint63 (Uint63.of_Z (Zpos p)))
  end.

#[export] Instance float_arith : Arith float := {
  of_Z := float_of_Z;
  dadd := PrimFloat.add;
  dsub := PrimFloat.sub;
  dmul := PrimFloat.mul;
  ddiv := PrimFloat.div;
  dsqrt := PrimFloat.sqrt;
  deqb := PrimFloat.eqb;
  dltb := PrimFloat.ltb;
  dleb := PrimFloat.leb
}.

(** Exact real arithmetic. *)
Definition Reqb (x y : R) : bool := if Req_dec_T x y then true else false.
Definition Rltb (x y : R) : bool := if Rlt_dec x y then true else false.
Definition Rleb (x y : R) : bool := if Rle_dec x y then true else false.

#[export] Instance real_arith : Arith R := {
  of_Z := IZR;
  dadd := Rplus;
  dsub := Rminus;
  dmul := Rmult;
  ddiv := Rdiv;
  dsqrt := R_sqrt.sqrt;
  deqb := Reqb;
  dltb := Rltb;
  dleb := Rleb
}.

(** ** Lists as numpy arrays *)

(** [range(n)] for a Python int [n]; empty when [n <= 0]. *)
Definition range (n : Z) : list Z := map Z.of_nat (seq 0 (Z.to_nat n)).

Fixpoint zip_with {A B C : Type} (f : A -> B -> C) (l : list A) (l' : list B)
  : list C :=
  match l, l' with
  | a :: t, b :: t' => f a b :: zip_with f t t'
  | _, _ => []
  end.

(** A two-dimensional array, as the list of its rows. *)
Definition grid (A : Type) : Type := list (list A).

Definition gmap {A B : Type} (f : A -> B) (g : grid A) : grid B :=
  map (map f) g.

Definition gzip_with {A B C : Type} (f : A -> B -> C) (g : grid A) (g' : grid B)
  : grid C :=
  zip_with (zip_with f) g g'.

(** [g[r, k]]. *)
Definition grid_get {A : Type} (g : grid A) (r k : nat) : option A :=
  match nth_error g r with
  | Some row => nth_error row k
  | None => None
  end.

(** ** Complex numbers (numpy's complex128 is a pair of float64) *)

Record complex (D : Type) : Type := Cx { re : D; im : D }.

Section ComplexOps.
Context {D : Type} `{Arith D}.

(** numpy's complex square: [(a*a - b*b, a*b + b*a)]. *)
Definition csquare (z : complex D) : complex D :=
  Cx (re z * re z - im z * im z)%D (re z * im z + im z * re z)%D.

Definition cadd (z w : complex D) : complex D :=
  Cx (re z + re w)%D (im z + im w)%D.

(** [np.abs(z)], the modulus, computed as the square root of the sum of
    squares (numpy calls [hypot], which can differ from it in the last bit
    and does not overflow on large finite parts). *)
Definition cabs (z : complex D) : D :=
  dsqrt (re z * re z + im z * im z)%D.

(** One element of the mask [np.abs(Z) <= 2]. *)
Definition in_disk (z : complex D) : bool := dleb (cabs z) (of_Z 2).

Definition czero : complex D := Cx (of_Z 0) (of_Z 0).
End ComplexOps.

(** ** FractalField: the escape-time loops *)

Section EscapeTime.
Context {D : Type} `{Arith D}.

(** The three masked array statements of one pass of the loop
    [for i in range(max_iter)], on the arrays [Z] and [M], with the added
    constant taken from the array [C]. *)
Definition masked_update (C : grid (complex D)) (st : grid (complex D) * grid Z)
           (i : Z) : grid (complex D) * grid Z :=
  let '(Zs, M) := st in
  let mask := gmap in_disk Zs in
  let Zs' := gzip_with (fun (b : bool) (zc : complex D * complex D) =>
                          if b then cadd (csquare (fst zc)) (snd zc) else fst zc)
                       mask (gzip_with pair Zs C) in
  let M' := gzip_with (fun (b : bool) (m : Z) => if b then i else m) mask M in
  (Zs', M').

Definition escape_loop (C Z0 : grid (complex D)) (max_iter : Z)
  : grid (complex D) * grid Z :=
  fold_left (masked_update C) (range max_iter) (Z0, gmap (fun _ => 0%Z) Z0).

(** The same loop for one cell: the orbit value and the recorded count. *)
Definition cell_update (c : complex D) (st : complex D * Z) (i : Z)
  : complex D * Z :=
  if in_disk (fst st) then (cadd (csquare (fst st)) c, i) else st.

Definition cell_loop (c z0 : complex D) (max_iter : Z) : complex D * Z :=
  fold_left (cell_update c) (range max_iter) (z0, 0%Z).

(** The orbit of the quadratic map, without any mask. *)
Fixpoint orbit (c z0 : complex D) (k : nat) : complex D :=
  match k with
  | O => z0
  | S k' => cadd (csquare (orbit c z0 k')) c
  end.

(** The orbit stays in the closed disk of radius 2 at every index the loop
    tests, [0 .. max_iter - 1]. *)
Definition never_escapes (c z0 : complex D) (max_iter : Z) : Prop :=
  forall k : nat, (Z.of_nat k < max_iter)%Z -> in_disk (orbit c z0 k) = true.
End EscapeTime.

(** ** FractalField: the sample grid *)

Section Grid.
Context {D : Type} `{Arith D}.

Fixpoint set_last {A : Type} (l : list A) (x : A) : list A :=
  match l with
  | [] => []
  | [_] => [x]
  | a :: t => a :: set_last t x
  end.

(** [np.linspace(start, stop, num)] with the default [endpoint=True]. *)
Definition linspace (start stop : D) (num : Z) : result (list D) :=
  if (num <? 0)%Z then Raise ValueError
  else
    let div := (num - 1)%Z in
    let delta := (stop - start)%D in
    let y := map of_Z (range num) in
    let y :=
      if (0 <? div)%Z then
        let step := (delta / of_Z div)%D in
        if deqb step (of_Z 0)
        then map (fun v => (v / of_Z div * delta)%D) y
        else map (fun v => (v * step)%D) y
      else map (fun v => (v * delta)%D) y in
    let y := map (fun v => (v + start)%D) y in
    Ok (if (1 <? num)%Z then set_last y stop else y).

(** [np.meshgrid(x, y)]: [len(y)] rows of [len(x)] cells. *)
Definition meshgrid (x y : list D) : grid D * grid D :=
  (map (fun _ => x) y, map (fun v => map (fun _ => v) x) y).

(** [X + 1j * Y]. *)
Definition complex_plane (X Y : grid D) : grid (complex D) :=
  gzip_with (@Cx D) X Y.

(** [calculate_mandelbrot]: the array [M] holds the loop index, an
    integer, in every cell; it is kept as an integer here and injected
    with [of_Z] where the scripts compute with it. *)
Definition calculate_mandelbrot (width height : Z) (x_min x_max y_min y_max : D)
           (max_iter : Z) : result (grid Z * grid D * grid D) :=
  x <- linspace x_min x_max width ;;
  y <- linspace y_min y_max height ;;
  let '(X, Y) := meshgrid x y in
  let C := complex_plane X Y in
  let Z0 := gmap (fun _ => czero) C in
  let '(_, M) := escape_loop C Z0 max_iter in
  Ok (M, X, Y).

(** The loop of [calculate_julia_set] (before the smoothing): the grid is
    the initial orbit value and the constant is the same for every cell. *)
Definition julia_loop (width height : Z) (x_min x_max y_min y_max : D)
           (c_real c_imag : D) (max_iter : Z)
  : result (grid (complex D) * grid Z) :=
  x <- linspace x_min x_max width ;;
  y <- linspace y_min y_max height ;;
  let '(X, Y) := meshgrid x y in
  let Z0 := complex_plane X Y in
  let C := Cx c_real c_imag in
  Ok (escape_loop (gmap (fun _ => C) Z0) Z0 max_iter).
End Grid.

(** ** Extended reals: exact arithmetic with the IEEE special values

    The smoothing of [julia_set.py] needs [log] and is about [nan] and
    [inf].  [xreal] keeps the three special values of binary64 and computes
    exactly on the finite ones (no rounding, no overflow, one zero). *)

Inductive xreal : Type :=
| XNaN
| XPinf
| XNinf
| XFin (r : R).

Definition Rsign (r : R) : comparison :=
  if Rlt_dec 0 r then Gt else if Rlt_dec r 0 then Lt else Eq.

Definition xneg (x : xreal) : xreal :=
  match x with
  | XNaN => XNaN
  | XPinf => XNinf
  | XNinf => XPinf
  | XFin r => XFin (- r)
  end.

Definition xadd (x y : xreal) : xreal :=
  match x, y with
  | XNaN, _ | _, XNaN => XNaN
  | XPinf, XNinf | XNinf, XPinf => XNaN
  | XPinf, _ | _, XPinf => XPinf
  | XNinf, _ | _, XNinf => XNinf
  | XFin a, XFin b => XFin (a + b)
  end.

Definition xsub (x y : xreal) : xreal := xadd x (xneg y).

(** The sign of a value that is not [nan]. *)
Definition xsign (x : xreal) : comparison :=
  match x with
  | XNaN => Eq
  | XPinf => Gt
  | XNinf => Lt
  | XFin r => Rsign r
  end.

Definition xinf_of (s : comparison) : xreal :=
  match s with
  | Gt => XPinf
  | Lt => XNinf
  | Eq => XNaN
  end.

Definition sign_mul (s t : comparison) : comparison :=
  match s, t with
  | Eq, _ | _, Eq => Eq
  | Gt, Gt | Lt, Lt => Gt
  | _, _ => Lt
  end.

Definition xmul (x y : xreal) : xreal :=
  match x, y with
  | XNaN, _ | _, XNaN => XNaN
  | XFin a, XFin b => XFin (a * b)
  | _, _ => xinf_of (sign_mul (xsign x) (xsign y))
  end.

Definition xdiv (x y : xreal) : xreal :=
  match x, y with
  | XNaN, _ | _, XNaN => XNaN
  | XFin a, XFin b =>
      match Rsign b with
      | Eq => xinf_of (Rsign a)
      | _ => XFin (a / b)
      end
  | XFin _, _ => XFin 0
  | _, XFin b =>
      match Rsign b with
      | Lt => xneg x
      | _ => x
      end
  | _, _ => XNaN
  end.

Definition xsqrt (x : xreal) : xreal :=
  match x with
  | XNaN | XNinf => XNaN
  | XPinf => XPinf
  | XFin r => if Rlt_dec r 0 then XNaN else XFin (R_sqrt.sqrt r)
  end.

(** [np.log]: [log(0) = -inf], [log] of a negative number is [nan]. *)
Definition xlog (x : xreal) : xreal :=
  match x with
  | XNaN | XNinf => XNaN
  | XPinf => XPinf
  | XFin r =>
      match Rsign r with
      | Gt => XFin (ln r)
      | Eq => XNinf
      | Lt => XNaN
      end
  end.

Definition xltb (x y : xreal) : bool :=
  match x, y with
  | XNaN, _ | _, XNaN => false
  | _, XNinf | XPinf, _ => false
  | XNinf, _ | _, XPinf => true
  | XFin a, XFin b => Rltb a b
  end.

Definition xeqb (x y : xreal) : bool :=
  match x, y with
  | XPinf, XPinf | XNinf, XNinf => true
  | XFin a, XFin b => Reqb a b
  | _, _ => false
  end.

Definition xleb (x y : xreal) : bool := xltb x y || xeqb x y.

#[export] Instance xreal_arith : Arith xreal := {
  of_Z := fun z => XFin (IZR z);
  dadd := xadd;
  dsub := xsub;
  dmul := xmul;
  ddiv := xdiv;
  dsqrt := xsqrt;
  deqb := xeqb;
  dltb := xltb;
  dleb := xleb
}.

(** The largest finite binary64 number, [(2 - 2^-52) * 2^1023]. *)
Definition float_max : R := (2 - / 2 ^ 52) * 2 ^ 1023.

(** [np.nan_to_num] with its defaults: [nan] becomes [0.0], [+inf] the
    largest finite float and [-inf] the most negative one. *)
Definition xnan_to_num (x : xreal) : xreal :=
  match x with
  | XNaN => XFin 0
  | XPinf => XFin float_max
  | XNinf => XFin (- float_max)
  | XFin r => XFin r
  end.

Definition xfinite (x : xreal) : bool :=
  match x with
  | XFin _ => true
  | _ => false
  end.

(** What the smoothing needs beyond [Arith]. *)
Class NumpyMath (D : Type) `{Arith D} : Type := {
  dlog : D -> D;
  nan_to_num : D -> D
}.

Arguments NumpyMath D {_}.

#[export] Instance xreal_math : NumpyMath xreal := {
  dlog := xlog;
  nan_to_num := xnan_to_num
}.

(** ** FractalField: the smoothing of [calculate_julia_set] *)

Section Smoothing.
Context {D : Type} `{NumpyMath D}.

(** [M + 1 - np.log(np.log(np.abs(Z) + 1)) / np.log(2)] in one cell. *)
Definition smooth_raw (z : complex D) (m : Z) : D :=
  (of_Z m + of_Z 1 - dlog (dlog (cabs z + of_Z 1)) / dlog (of_Z 2))%D.

Definition smooth_cell (z : complex D) (m : Z) : D :=
  nan_to_num (smooth_raw z m).

Definition calculate_julia_set (width height : Z) (x_min x_max y_min y_max : D)
           (c_real c_imag : D) (max_iter : Z) : result (grid D) :=
  '(Zs, M) <- julia_loop width height x_min x_max y_min y_max
                         c_real c_imag max_iter ;;
  Ok (gzip_with smooth_cell Zs M).
End Smoothing.

(** ** BoundaryPointExtractor *)

(** [method] of [extract_points]: ['boundary'], ['gradient'], ['random']. *)
Inductive sample_method : Type :=
| Boundary
| Gradient
| RandomCells.

(** The two messages [extract_points] prints about its own decisions. *)
Inductive notice : Type :=
| FallingBackToGradient
| OnlyFound (total : nat).

Section Extraction.
Context {D : Type} `{Arith D}.

Definition dsum (l : list D) : D := fold_left dadd l (of_Z 0).

(** [M.shape]. *)
Definition rows {A : Type} (g : grid A) : nat := length g.
Definition cols {A : Type} (g : grid A) : nat := length (hd [] g).

Definition at2 (g : grid D) (r k : nat) : D := nth k (nth r g []) (of_Z 0).

(** One entry of [np.gradient] along an axis of [n] samples [f 0 .. f (n-1)]
    with unit spacing: one-sided differences at the two ends, central
    differences inside. *)
Definition diff_at (n : nat) (f : nat -> D) (i : nat) : D :=
  if (i =? 0)%nat then ((f 1%nat - f 0%nat) / of_Z 1)%D
  else if (i =? n - 1)%nat then ((f (n - 1)%nat - f (n - 2)%nat) / of_Z 1)%D
  else ((f (i + 1)%nat - f (i - 1)%nat) / (of_Z 2 * of_Z 1))%D.

Definition tabulate {A : Type} (h w : nat) (f : nat -> nat -> A) : grid A :=
  map (fun r => map (fun k => f r k) (seq 0 w)) (seq 0 h).

(** [grad_y, grad_x = np.gradient(M)]; numpy refuses an axis shorter than
    two. *)
Definition gradient (M : grid D) : result (grid D * grid D) :=
  let h := rows M in
  let w := cols M in
  if (h <? 2)%nat || (w <? 2)%nat then Raise ValueError
  else Ok (tabulate h w (fun r k => diff_at h (fun j => at2 M j k) r),
           tabulate h w (fun r k => diff_at w (fun j => at2 M r j) k)).

(** [np.sqrt(grad_x**2 + grad_y**2)]. *)
Definition gradient_magnitude (M : grid Z) : result (grid D) :=
  '(grad_y, grad_x) <- gradient (gmap of_Z M) ;;
  Ok (gzip_with (fun gx gy => dsqrt (gx * gx + gy * gy)%D) grad_x grad_y).

(** [np.where(mask)]: the cells where the mask holds, in row-major order. *)
Definition where_true (mask : grid bool) : list (nat * nat) :=
  concat (map (fun rw : nat * list bool =>
                 map (fun kb : nat * bool => (fst rw, fst kb))
                     (filter (fun kb : nat * bool => snd kb)
                             (combine (seq 0 (length (snd rw))) (snd rw))))
              (combine (seq 0 (length mask)) mask)).

(** [a[idx]] for an index array [idx]. *)
Fixpoint take_at {A : Type} (a : list A) (idx : list nat) : result (list A) :=
  match idx with
  | [] => Ok []
  | i :: t =>
      match nth_error a i with
      | None => Raise IndexError
      | Some v => rest <- take_at a t ;; Ok (v :: rest)
      end
  end.

(** *** The random generator

    numpy's global generator is not part of the repository.  A call to it
    is a relation between the arguments and every outcome the call can
    have; probabilities are not modelled.  [population] lists the indices
    a draw can return. *)

Definition sample_outcome (size : Z) (replace : bool) (population : list nat)
           (r : result (list nat)) : Prop :=
  if (size <? 0)%Z
     || (Z.of_nat (length population) <? size)%Z && negb replace
     || (length population =? 0)%nat && (0 <? size)%Z
  then r = Raise ValueError
  else exists idx : list nat,
      r = Ok idx /\ Z.of_nat (length idx) = size /\ incl idx population
      /\ (replace = false -> NoDup idx).

(** The indices with a positive probability. *)
Definition support (p : list D) : list nat :=
  map fst (filter (fun ip : nat * D => dltb (of_Z 0) (snd ip))
                  (combine (seq 0 (length p)) p)).

(** [np.random.choice(a, size, replace=replace, p=p)].  With [p], numpy
    refuses probabilities that are [nan] or negative, and, without
    replacement, a [size] above the number of positive entries.  (Its
    tolerance test on the sum of [p] is about rounding and is left out.) *)
Definition random_choice (a : nat) (size : Z) (replace : bool)
           (p : option (list D)) (r : result (list nat)) : Prop :=
  match p with
  | None => sample_outcome size replace (seq 0 a) r
  | Some pr =>
      if negb (length pr =? a)%nat || negb (forallb (dleb (of_Z 0)) pr)
      then r = Raise ValueError
      else sample_outcome size replace (support pr) r
  end.

(** [np.random.randint(low, high, size)].  numpy returns the empty array
    for [size = 0] before it looks at the bounds; otherwise it refuses
    [high <= low], and a negative [size]. *)
Definition randint (low high : Z) (size : Z) (r : result (list nat)) : Prop :=
  if (size =? 0)%Z then r = Ok []
  else if (size <? 0)%Z || (high <=? low)%Z then r = Raise ValueError
  else exists l : list nat,
      r = Ok l /\ Z.of_nat (length l) = size
      /\ Forall (fun v => (low <= Z.of_nat v < high)%Z) l.

(** Sequencing of a random call with the rest of the function. *)
Definition rbind {A B : Type} (m : result A -> Prop)
           (k : A -> result B -> Prop) (r : result B) : Prop :=
  exists a : result A,
    m a /\ match a with
           | Ok v => k v r
           | Raise e => r = Raise e
           end.

Definition rret {A : Type} (v : result A) (r : result A) : Prop := r = v.

(** *** The three policies *)

(** The block [if method == 'gradient']. *)
Definition gradient_policy (M : grid Z) (num_points : Z)
           (r : result (list (nat * nat))) : Prop :=
  match gradient_magnitude M with
  | Raise e => r = Raise e
  | Ok g =>
      let flat := concat g in
      let total := dsum flat in
      let prob := map (fun v => (v / total)%D) flat in
      rbind (random_choice (length prob) num_points false (Some prob))
            (fun flat_indices =>
               rret (Ok (map (fun i => (i / cols M, i mod cols M)%nat)
                             flat_indices))) r
  end.

(** The cells [(points_y, points_x)] that [extract_points] selects, with
    the messages it prints on the way. *)
Definition select_cells (M : grid Z) (num_points : Z) (method : sample_method)
           (threshold : D) (out : list notice * result (list (nat * nat)))
  : Prop :=
  match method with
  | Boundary =>
      match gradient_magnitude M with
      | Raise e => out = ([], Raise e)
      | Ok g =>
          let boundary_indices := where_true (gmap (dltb threshold) g) in
          let total_boundary := length boundary_indices in
          if (total_boundary =? 0)%nat
          then exists r, gradient_policy M num_points r
                         /\ out = ([FallingBackToGradient], r)
          else if (num_points <? Z.of_nat total_boundary)%Z
          then exists r,
              rbind (random_choice total_boundary num_points false None)
                    (fun sample_indices =>
                       rret (take_at boundary_indices sample_indices)) r
              /\ out = ([], r)
          else out = ([OnlyFound total_boundary], Ok boundary_indices)
      end
  | Gradient =>
      exists r, gradient_policy M num_points r /\ out = ([], r)
  | RandomCells =>
      exists r,
        rbind (randint 0 (Z.of_nat (rows M)) num_points)
              (fun points_y =>
                 rbind (randint 0 (Z.of_nat (cols M)) num_points)
                       (fun points_x => rret (Ok (combine points_y points_x))))
              r
        /\ out = ([], r)
  end.

(** [a[points_y, points_x]]. *)
Fixpoint take_cells {A : Type} (a : grid A) (cells : list (nat * nat))
  : result (list A) :=
  match cells with
  | [] => Ok []
  | (r, k) :: t =>
      match grid_get a r k with
      | None => Raise IndexError
      | Some v => rest <- take_cells a t ;; Ok (v :: rest)
      end
  end.

(** [extract_points]: the rows of [points] and the array [iterations]. *)
Definition extract_points (M : grid Z) (X Y : grid D) (num_points : Z)
           (method : sample_method) (threshold : D)
           (out : list notice * result (list (D * D) * list Z)) : Prop :=
  exists cells : result (list (nat * nat)),
    select_cells M num_points method threshold (fst out, cells)
    /\ snd out = (c <- cells ;;
                  xs <- take_cells X c ;;
                  ys <- take_cells Y c ;;
                  its <- take_cells M c ;;
                  Ok (combine xs ys, its)).
End Extraction.

(** ** TourConstructor and TourImprover *)

(** [method] of [solve_tsp]: ['nearest_neighbor'] or ['2opt']. *)
Inductive tsp_method : Type :=
| NearestNeighbor
| TwoOpt.

Fixpoint fold_result {A B : Type} (f : A -> B -> result A) (l : list B) (a : A)
  : result A :=
  match l with
  | [] => Ok a
  | b :: t => a' <- f a b ;; fold_result f t a'
  end.

Section Tour.
Context {D : Type} `{Arith D}.

(** The Euclidean norm of [p - q], for two rows of the [points] array. *)
Definition euclid (p q : D * D) : D :=
  dsqrt ((fst p - fst q) * (fst p - fst q)
         + (snd p - snd q) * (snd p - snd q))%D.

Definition index {A : Type} (a : list A) (i : nat) : result A :=
  match nth_error a i with
  | Some v => Ok v
  | None => Raise IndexError
  end.

(** [np.argmin] on a float array.  numpy scans with the test
    [!(x >= mp)], which replaces the running minimum [mp] by a smaller value
    and by a [nan]; a [nan] ends the scan, so the result is the first
    position of a [nan] if there is one, and of the least value otherwise.
    A [nan] is what differs from itself. *)
Fixpoint argmin_from (mp : D) (min_ind i : nat) (l : list D) : nat :=
  match l with
  | [] => min_ind
  | x :: t =>
      if dleb mp x then argmin_from mp min_ind (S i) t
      else if deqb x x then argmin_from x i (S i) t
      else i
  end.

Definition argmin (l : list D) : result nat :=
  match l with
  | [] => Raise ValueError
  | x :: t => if deqb x x then Ok (argmin_from x 0%nat 1%nat t) else Ok 0%nat
  end.

(** [unvisited.remove(v)] on the set kept as the list [list(unvisited)]. *)
Definition set_remove (v : nat) (s : list nat) : result (list nat) :=
  if existsb (Nat.eqb v) s then Ok (filter (fun u => negb (Nat.eqb v u)) s)
  else Raise KeyError.

(** The [while unvisited] loop.  [unvisited] is the list that
    [list(unvisited)] returns: for a set built from [range(n)] by removals
    CPython iterates in increasing order.  [None] means that the model's
    [fuel] ran out before the loop ended. *)
Fixpoint nn_loop (fuel : nat) (points : list (D * D)) (unvisited : list nat)
         (current : nat) (path : list nat) : option (result (list nat)) :=
  match unvisited with
  | [] => Some (Ok path)
  | _ :: _ =>
      match fuel with
      | O => None
      | S fuel' =>
          match
            (pc <- index points current ;;
             pts <- take_at points unvisited ;;
             nearest_idx <- argmin (map (euclid pc) pts) ;;
             nearest <- index unvisited nearest_idx ;;
             rest <- set_remove nearest unvisited ;;
             Ok (nearest, rest))
          with
          | Raise e => Some (Raise e)
          | Ok (nearest, rest) =>
              nn_loop fuel' points rest nearest (path ++ [nearest])
          end
      end
  end.

Definition nearest_neighbor_tsp (points : list (D * D))
  : option (result (list nat)) :=
  let n := length points in
  match set_remove 0%nat (seq 0 n) with
  | Raise e => Some (Raise e)
  | Ok unvisited => nn_loop n points unvisited 0%nat [0%nat]
  end.

(** [path[i:j+1] = path[i:j+1][::-1]]. *)
Definition reverse_segment (path : list nat) (i j : nat) : list nat :=
  firstn i path ++ rev (firstn (j + 1 - i) (skipn i path)) ++ skipn (j + 1) path.

(** [points[path[k]]]. *)
Definition point_at (points : list (D * D)) (path : list nat) (k : nat)
  : result (D * D) :=
  idx <- index path k ;; index points idx.

(** The body of the two nested [for] loops, for one pair [(i, j)]. *)
Definition try_swap (points : list (D * D)) (n : nat) (st : list nat * bool)
           (ij : nat * nat) : result (list nat * bool) :=
  let '(path, improved) := st in
  let '(i, j) := ij in
  a <- point_at points path (i - 1) ;;
  b <- point_at points path i ;;
  c <- point_at points path j ;;
  d <- point_at points path ((j + 1) mod n) ;;
  let current_dist := (euclid a b + euclid c d)%D in
  let new_dist := (euclid a c + euclid b d)%D in
  if dltb new_dist current_dist
  then Ok (reverse_segment path i j, true)
  else Ok (path, improved).

(** The pairs visited by [for i in range(1, n - 1): for j in range(i + 1, n)],
    in order. *)
Definition index_pairs (n : nat) : list (nat * nat) :=
  flat_map (fun i => map (pair i) (seq (i + 1) (n - (i + 1)))) (seq 1 (n - 2)).

(** One pass of the [while] loop body. *)
Definition sweep (points : list (D * D)) (path : list nat)
  : result (list nat * bool) :=
  fold_result (try_swap points (length path)) (index_pairs (length path))
              (path, false).

(** [while improved and iter_count < iterations], with
    [budget = iterations - iter_count]. *)
Fixpoint two_opt_loop (budget : nat) (points : list (D * D)) (path : list nat)
         (improved : bool) : result (list nat) :=
  match budget with
  | O => Ok path
  | S budget' =>
      if improved
      then '(path', improved') <- sweep points path ;;
           two_opt_loop budget' points path' improved'
      else Ok path
  end.

Definition two_opt (points : list (D * D)) (initial_path : list nat)
           (iterations : Z) : result (list nat) :=
  two_opt_loop (Z.to_nat iterations) points initial_path true.

Definition solve_tsp (points : list (D * D)) (method : tsp_method)
           (two_opt_iter : Z) : option (result (list nat)) :=
  match nearest_neighbor_tsp points with
  | None => None
  | Some (Raise e) => Some (Raise e)
  | Some (Ok path) =>
      match method with
      | TwoOpt => Some (two_opt points path two_opt_iter)
      | NearestNeighbor => Some (Ok path)
      end
  end.

(** The distances between consecutive points of an ordered sequence:
    [np.linalg.norm(np.diff(ordered_points, axis=0), axis=1)]. *)
Fixpoint steps (ordered_points : list (D * D)) : list D :=
  match ordered_points with
  | p :: ((q :: _) as t) => euclid q p :: steps t
  | _ => []
  end.

(** The total path length that [solve_tsp] reports: the open path. *)
Definition path_length (points : list (D * D)) (path : list nat) : result D :=
  ordered_points <- take_at points path ;;
  Ok (dsum (steps ordered_points)).

(** The length of the closed tour: the open path and the edge from the
    last point back to the first. *)
Definition cycle_length (points : list (D * D)) (path : list nat) : result D :=
  ordered_points <- take_at points path ;;
  match ordered_points with
  | [] => Ok (of_Z 0)
  | p :: _ => Ok (dsum (steps (ordered_points ++ [p])))
  end.
End Tour.

(** ** PathAssembler: what [create_gradient_line_plot] hands to the renderer *)

(** [color_by]: ['position'] or ['iteration']. *)
Inductive color_mode : Type :=
| Position
| Iteration.

Section Assembly.
Context {D : Type} `{Arith D}.

Fixpoint segments_of (ordered_points : list (D * D))
  : list ((D * D) * (D * D)) :=
  match ordered_points with
  | p :: ((q :: _) as t) => (p, q) :: segments_of t
  | _ => []
  end.

(** [a.max()]. *)
Definition dmax (a : list D) : result D :=
  match a with
  | [] => Raise ValueError
  | x :: t => Ok (fold_left (fun m v => if dltb m v then v else m) t x)
  end.

(** The segments and the array given to [set_array]. *)
Definition create_gradient_line_plot (points : list (D * D)) (path : list nat)
           (iterations : list Z) (color_by : color_mode)
  : result (list ((D * D) * (D * D)) * list D) :=
  ordered_points <- take_at points path ;;
  ordered_iterations <- take_at (map of_Z iterations) path ;;
  let segments := segments_of ordered_points in
  colors <- match color_by with
            | Position =>
                linspace (of_Z 0) (of_Z 1) (Z.of_nat (length segments))
            | Iteration =>
                let colors := removelast ordered_iterations in
                top <- dmax colors ;;
                Ok (map (fun v => (v / top)%D) colors)
            end ;;
  Ok (segments, colors).
End Assembly.

(** ** The pipeline *)

(** The stages of [main], each entered when its function prints its first
    line. *)
Inductive stage : Type :=
| FieldStage
| ExtractStage
| TourStage
| PlotStage.

Record config (D : Type) : Type := {
  MANDELBROT_WIDTH : Z;
  MANDELBROT_HEIGHT : Z;
  X_MIN : D;
  X_MAX : D;
  Y_MIN : D;
  Y_MAX : D;
  MAX_ITER : Z;
  NUM_POINTS : Z;
  BOUNDARY_THRESHOLD : D;
  SAMPLE_METHOD : sample_method;
  TSP_METHOD : tsp_method;
  TWO_OPT_ITERATIONS : Z;
  COLOR_BY : color_mode
}.

(** What the spec asks of a configuration (section 6). *)
Definition valid_config {D : Type} `{Arith D} (cfg : config D) : bool :=
  (0 <? MANDELBROT_WIDTH cfg)%Z && (0 <? MANDELBROT_HEIGHT cfg)%Z
  && dltb (X_MIN cfg) (X_MAX cfg) && dltb (Y_MIN cfg) (Y_MAX cfg)
  && (1 <=? MAX_ITER cfg)%Z && (1 <=? NUM_POINTS cfg)%Z
  && dleb (of_Z 0) (BOUNDARY_THRESHOLD cfg)
  && (0 <=? TWO_OPT_ITERATIONS cfg)%Z.

Section Pipeline.
Context {D : Type} `{Arith D}.

Definition plot : Type := (list ((D * D) * (D * D)) * list D)%type.

(** A run of [main] up to the plot: the stages entered, in order, and
    either the plot data or the exception that ended the run.  [None]
    stands for a tour construction that the model's fuel did not finish. *)
Definition main (cfg : config D) (out : list stage * option (result plot))
  : Prop :=
  match calculate_mandelbrot (MANDELBROT_WIDTH cfg) (MANDELBROT_HEIGHT cfg)
                             (X_MIN cfg) (X_MAX cfg) (Y_MIN cfg) (Y_MAX cfg)
                             (MAX_ITER cfg) with
  | Raise e => out = ([FieldStage], Some (Raise e))
  | Ok (M, X, Y) =>
      exists (notes : list notice) (r : result (list (D * D) * list Z)),
        extract_points M X Y (NUM_POINTS cfg) (SAMPLE_METHOD cfg)
                       (BOUNDARY_THRESHOLD cfg) (notes, r)
        /\ match r with
           | Raise e => out = ([FieldStage; ExtractStage], Some (Raise e))
           | Ok (points, iterations) =>
               match solve_tsp points (TSP_METHOD cfg)
                               (TWO_OPT_ITERATIONS cfg) with
               | None => out = ([FieldStage; ExtractStage; TourStage], None)
               | Some (Raise e) =>
                   out = ([FieldStage; ExtractStage; TourStage],
                          Some (Raise e))
               | Some (Ok path) =>
                   out = ([FieldStage; ExtractStage; TourStage; PlotStage],
                          Some (create_gradient_line_plot
                                  points path iterations (COLOR_BY cfg)))
               end
           end
  end.
End Pipeline.

(** ** Predicates of the statements *)

Section TourPredicates.
Context {D : Type} `{Arith D}.

(** Every entry of the tour is a row of [points]. *)
Definition indexes (points : list (D * D)) (path : list nat) : Prop :=
  Forall (fun v => v < length points) path.

(** What a sweep keeps true of its state, relative to the tour [path0] it
    started from. *)
Definition sweep_invariant (points : list (D * D)) (path0 : list nat)
           (st : list nat * bool) : Prop :=
  Permutation (fst st) path0
  /\ nth_error (fst st) 0 = nth_error path0 0.
End TourPredicates.

Section NearestPredicates.
Context {D : Type} `{Arith D}.

(** The comparisons order the values that are not [nan], which are the
    values equal to themselves: [<=] is transitive, total on them, and [<]
    is its strict part.  This holds of the reals and of binary64. *)
Definition order_laws : Prop :=
  (forall a b c : D, dleb a b = true -> dleb b c = true -> dleb a c = true)
  /\ (forall a b : D,
         deqb a a = true -> deqb b b = true ->
         dleb a b = true \/ dleb b a = true)
  /\ (forall a b : D,
         deqb a a = true -> deqb b b = true -> dltb a b = negb (dleb b a)).

(** No distance between two rows of [points] is [nan]. *)
Definition no_nan_distance (points : list (D * D)) : bool :=
  forallb (fun p => forallb (fun q => deqb (euclid p q) (euclid p q)) points)
          points.

(** [nxt] is a nearest point to [cur] among the points outside [visited],
    and strictly nearer than every such point of lower index. *)
Definition nearest_unvisited (points : list (D * D)) (visited : list nat)
           (cur nxt : nat) : Prop :=
  forall (pc pn pv : D * D) (v : nat),
    nth_error points cur = Some pc -> nth_error points nxt = Some pn ->
    nth_error points v = Some pv -> ~ In v visited ->
    dleb (euclid pc pn) (euclid pc pv) = true
    /\ (v < nxt -> dltb (euclid pc pn) (euclid pc pv) = true).

(** Every step of the tour goes to the nearest unvisited point, the
    lowest index winning a tie. *)
Definition greedy (points : list (D * D)) (path : list nat) : Prop :=
  forall (k cur nxt : nat),
    nth_error path k = Some cur -> nth_error path (S k) = Some nxt ->
    nearest_unvisited points (firstn (S k) path) cur nxt.
End NearestPredicates.

(** Lengths over the reals: the sum of the distances between consecutive
    points, and the same with the closing edge. *)
Definition walk (ps : list (R * R)) : R := dsum (steps ps).

Definition closed_walk (ps : list (R * R)) : R :=
  match ps with
  | [] => 0%R
  | p :: _ => walk (ps ++ [p])
  end.

(** The row of [points] that an index selects; used where the index is known
    to be in range. *)
Definition row (points : list (R * R)) (i : nat) : R * R :=
  nth i points (0%R, 0%R).

Section ExtractionPredicates.
Context {D : Type} `{Arith D}.

(** The cells whose gradient magnitude exceeds the threshold, as
    [extract_points] lists them. *)
Definition boundary_candidates (g : grid D) (threshold : D) : list (nat * nat) :=
  where_true (gmap (dltb threshold) g).

(** The gradient magnitudes of all cells, divided by their sum: [prob]. *)
Definition gradient_weights (g : grid D) : list D :=
  map (fun v => (v / dsum (concat g))%D) (concat g).

(** [np.unravel_index(i, M.shape)]. *)
Definition unravel (M : grid Z) (i : nat) : nat * nat :=
  (i / cols M, i mod cols M).
End ExtractionPredicates.

(** A grid of [h] rows of [w] cells. *)
Definition has_shape {A : Type} (h w : nat) (g : grid A) : Prop :=
  length g = h /\ Forall (fun line => length line = w) g.

(** A finite extended real of value zero. *)
Definition xzero (x : xreal) : Prop := exists v : R, x = XFin v /\ v = 0%R.

(** A field whose counts are all [m0]. *)
Definition flat_field (m0 : Z) (M : grid Z) : Prop :=
  Forall (Forall (fun v => v = m0)) M.

(** ** Concrete inputs *)

(** The Julia constant and the two samples of the scenario, in binary64. *)
Definition scenario_c : complex float := Cx (-0.4)%float 0.6%float.
Definition scenario_inside : complex float := Cx 0%float 0%float.
Definition scenario_outside : complex float := Cx 3%float 3%float.

(** Four points on a staircase: [(0,0), (0,1), (1,1), (1,2)]. *)
Definition staircase : list (float * float) :=
  [(0, 0); (0, 1); (1, 1); (1, 2)]%float.

(** Five points in binary64: from the first, three of the others are at
    distance 1. *)
Definition tie_points : list (float * float) :=
  [(0, 0); (2, 0); (0, 1); (1, 0); (0, -1)]%float.

(** Three points in binary64, the last with a [nan] coordinate. *)
Definition nan_points : list (float * float) :=
  [(0, 0); (1, 0); (nan, 0)]%float.

(** The staircase over the reals. *)
Definition real_staircase : list (R * R) := [(0, 0); (0, 1); (1, 1); (1, 2)]%R.

(** Four points in binary64 on which two pairs of edges of equal decimal
    length differ in the last bits. *)
Definition near_tie : list (float * float) :=
  [(2.3, 0); (2.2, 0.4); (2.2, 1.5); (2.1, 0)]%float.

(** A 2 x 2 count field with one escaped corner, and its gradient
    magnitudes in binary64. *)
Definition corner_field : grid Z := [[0; 0]; [0; 1]]%Z.

Definition corner_magnitudes : grid float :=
  Eval vm_compute in
    match gradient_magnitude corner_field with
    | Ok g => g
    | Raise _ => []
    end.

(** A configuration with [MAX_ITER = 0], in binary64, and the plot data of
    one of its runs. *)
Definition zero_iter_config : config float := {|
  MANDELBROT_WIDTH := 2;
  MANDELBROT_HEIGHT := 2;
  X_MIN := 0%float;
  X_MAX := 1%float;
  Y_MIN := 0%float;
  Y_MAX := 1%float;
  MAX_ITER := 0;
  NUM_POINTS := 2;
  BOUNDARY_THRESHOLD := 5%float;
  SAMPLE_METHOD := RandomCells;
  TSP_METHOD := TwoOpt;
  TWO_OPT_ITERATIONS := 50;
  COLOR_BY := Position
|}.

Definition zero_iter_plot : plot (D := float) :=
  ([((0, 0), (1, 1))], [0])%float.

(** A configuration that section 6 of the spec accepts, with
    [MAX_ITER = 1], the ['random'] policy and colours by iteration. *)
Definition one_iter_config : config float := {|
  MANDELBROT_WIDTH := 2;
  MANDELBROT_HEIGHT := 2;
  X_MIN := 0%float;
  X_MAX := 1%float;
  Y_MIN := 0%float;
  Y_MAX := 1%float;
  MAX_ITER := 1;
  NUM_POINTS := 3;
  BOUNDARY_THRESHOLD := 5%float;
  SAMPLE_METHOD := RandomCells;
  TSP_METHOD := TwoOpt;
  TWO_OPT_ITERATIONS := 50;
  COLOR_BY := Iteration
|}.

(** Three points of the real plane. *)
Definition three_real_points : list (R * R) := [(0, 0); (3, 0); (0, 4)]%R.

(** A configuration with a negative width, in binary64. *)
Definition negative_width_config : config float := {|
  MANDELBROT_WIDTH := -1;
  MANDELBROT_HEIGHT := 2;
  X_MIN := 0%float;
  X_MAX := 1%float;
  Y_MIN := 0%float;
  Y_MAX := 1%float;
  MAX_ITER := 5;
  NUM_POINTS := 2;
  BOUNDARY_THRESHOLD := 5%float;
  SAMPLE_METHOD := Boundary;
  TSP_METHOD := TwoOpt;
  TWO_OPT_ITERATIONS := 50;
  COLOR_BY := Iteration
|}.

(** The 2 x 2 field of zero counts. *)
Definition zero_field : grid Z := [[0; 0]; [0; 0]]%Z.

(** * Properties *)

(** ** Arrays are maps of their cells *)

Lemma zip_with_map_fuse :
  forall (X A B C : Type) (f : A -> B -> C) (a : X -> A) (b : X -> B) (l : list X),
    zip_with f (map a l) (map b l) = map (fun x => f (a x) (b x)) l.
Proof.
  induction l as [|x l IH]; simpl; [reflexivity|].
  now rewrite IH.
Qed.

Lemma gzip_with_gmap_fuse :
  forall (X A B C : Type) (f : A -> B -> C) (a : X -> A) (b : X -> B) (G : grid X),
    gzip_with f (gmap a G) (gmap b G) = gmap (fun x => f (a x) (b x)) G.
Proof.
  unfold gzip_with, gmap. induction G as [|row G IH]; simpl; [reflexivity|].
  now rewrite zip_with_map_fuse, IH.
Qed.

Lemma gmap_gmap :
  forall (X A B : Type) (f : A -> B) (a : X -> A) (G : grid X),
    gmap f (gmap a G) = gmap (fun x => f (a x)) G.
Proof.
  unfold gmap. intros. rewrite map_map. apply map_ext. intros row.
  apply map_map.
Qed.

Lemma gmap_ext :
  forall (X A : Type) (f g : X -> A) (G : grid X),
    (forall x, f x = g x) -> gmap f G = gmap g G.
Proof.
  unfold gmap. intros. apply map_ext. intros row. now apply map_ext.
Qed.

Lemma gmap_id : forall (X : Type) (G : grid X), gmap (fun x => x) G = G.
Proof.
  unfold gmap. intros. rewrite <- (map_id G) at 2. apply map_ext.
  intros row. apply map_id.
Qed.

Lemma grid_get_gmap :
  forall (X A : Type) (f : X -> A) (G : grid X) (r k : nat),
    grid_get (gmap f G) r k = option_map f (grid_get G r k).
Proof.
  unfold grid_get, gmap. intros. rewrite nth_error_map.
  destruct (nth_error G r) as [row|]; simpl; [|reflexivity].
  apply nth_error_map.
Qed.

Lemma range_succ :
  forall n : nat, range (Z.of_nat (S n)) = range (Z.of_nat n) ++ [Z.of_nat n].
Proof.
  intros n. unfold range. rewrite !Nat2Z.id, seq_S, map_app. reflexivity.
Qed.

Section EscapeTimeFacts.
Context {D : Type} `{Arith D}.

(** One pass of the masked array statements is [cell_update] in every cell. *)
Lemma masked_update_cells :
  forall (X : Type) (G : grid X) (cf : X -> complex D)
         (sf : X -> complex D * Z) (i : Z),
    masked_update (gmap cf G)
                  (gmap (fun g => fst (sf g)) G, gmap (fun g => snd (sf g)) G) i
    = (gmap (fun g => fst (cell_update (cf g) (sf g) i)) G,
       gmap (fun g => snd (cell_update (cf g) (sf g) i)) G).
Proof.
  intros. unfold masked_update. cbv zeta.
  rewrite gmap_gmap, !gzip_with_gmap_fuse.
  f_equal; apply gmap_ext; intros x; unfold cell_update; simpl;
    destruct (in_disk (fst (sf x))); reflexivity.
Qed.

Lemma fold_masked_update_cells :
  forall (X : Type) (G : grid X) (cf : X -> complex D) (l : list Z)
         (sf : X -> complex D * Z),
    fold_left (masked_update (gmap cf G)) l
              (gmap (fun g => fst (sf g)) G, gmap (fun g => snd (sf g)) G)
    = (gmap (fun g => fst (fold_left (cell_update (cf g)) l (sf g))) G,
       gmap (fun g => snd (fold_left (cell_update (cf g)) l (sf g))) G).
Proof.
  induction l as [|i l IH]; intros sf; cbn [fold_left]; [reflexivity|].
  rewrite masked_update_cells.
  apply (IH (fun g => cell_update (cf g) (sf g) i)).
Qed.

(** The array loop computes [cell_loop] in every cell. *)
Lemma escape_loop_cells :
  forall (X : Type) (G : grid X) (cf zf : X -> complex D) (max_iter : Z),
    escape_loop (gmap cf G) (gmap zf G) max_iter
    = (gmap (fun g => fst (cell_loop (cf g) (zf g) max_iter)) G,
       gmap (fun g => snd (cell_loop (cf g) (zf g) max_iter)) G).
Proof.
  intros. unfold escape_loop, cell_loop. rewrite gmap_gmap.
  apply (fold_masked_update_cells G cf (range max_iter)
                                  (fun g => (zf g, 0%Z))).
Qed.

(** The recorded count after [n] passes is a loop index, or the initial 0. *)
Lemma cell_loop_range :
  forall (c z0 : complex D) (n : nat),
    (0 <= snd (cell_loop c z0 (Z.of_nat n)) <= Z.max 0 (Z.of_nat n - 1))%Z.
Proof.
  intros c z0 n. unfold cell_loop. induction n as [|n IH].
  - simpl. lia.
  - rewrite range_succ, fold_left_app. cbn [fold_left].
    set (st := fold_left (cell_update c) (range (Z.of_nat n)) (z0, 0%Z)) in *.
    unfold cell_update.
    destruct (in_disk (fst st)); cbn [fst snd]; lia.
Qed.

(** While the orbit stays in the disk the loop follows it and records the
    last index. *)
Lemma cell_loop_inside :
  forall (c z0 : complex D) (n : nat),
    never_escapes c z0 (Z.of_nat n) ->
    fst (cell_loop c z0 (Z.of_nat n)) = orbit c z0 n
    /\ (n <> 0%nat -> snd (cell_loop c z0 (Z.of_nat n)) = (Z.of_nat n - 1)%Z).
Proof.
  intros c z0 n. unfold cell_loop. induction n as [|n IH]; intros Hin.
  - simpl. split; [reflexivity|congruence].
  - assert (Hprev : never_escapes c z0 (Z.of_nat n))
      by (intros k Hk; apply Hin; lia).
    destruct (IH Hprev) as [Hz _].
    rewrite range_succ, fold_left_app. cbn [fold_left].
    set (st := fold_left (cell_update c) (range (Z.of_nat n)) (z0, 0%Z)) in *.
    unfold cell_update. rewrite Hz.
    rewrite (Hin n) by lia. cbn [fst snd orbit]. split; [reflexivity|].
    intros _. lia.
Qed.

Lemma cell_count_bounds :
  forall (c z0 : complex D) (max_iter : Z),
    (1 <= max_iter)%Z ->
    (0 <= snd (cell_loop c z0 max_iter) <= max_iter - 1)%Z
    /\ (never_escapes c z0 max_iter ->
        snd (cell_loop c z0 max_iter) = (max_iter - 1)%Z).
Proof.
  intros c z0 max_iter Hpos.
  rewrite <- (Z2Nat.id max_iter) by lia.
  split.
  - pose proof (cell_loop_range c z0 (Z.to_nat max_iter)). lia.
  - intros Hin. apply cell_loop_inside; [exact Hin|lia].
Qed.
End EscapeTimeFacts.

(** ** The sample grid *)

Section GridFacts.
Context {D : Type} `{Arith D}.

Lemma set_last_length :
  forall (A : Type) (l : list A) (x : A), length (set_last l x) = length l.
Proof.
  induction l as [|a [|b t] IH]; intros x; simpl; try reflexivity.
  f_equal. apply (IH x).
Qed.

Lemma range_length : forall n : Z, length (range n) = Z.to_nat n.
Proof. intros. unfold range. now rewrite length_map, length_seq. Qed.

(** [np.linspace] returns [num] samples for every [num >= 0]. *)
Lemma linspace_ok :
  forall (start stop : D) (num : Z),
    (0 <= num)%Z ->
    exists l, linspace start stop num = Ok l /\ length l = Z.to_nat num.
Proof.
  intros start stop num Hnum. unfold linspace.
  destruct (Z.ltb_spec num 0); [lia|].
  eexists. split; [reflexivity|].
  destruct (1 <? num)%Z; rewrite ?set_last_length;
    destruct (0 <? num - 1)%Z; try destruct (deqb _ _);
    now rewrite !length_map, range_length.
Qed.

Lemma complex_plane_meshgrid :
  forall x y : list D,
    complex_plane (fst (meshgrid x y)) (snd (meshgrid x y))
    = map (fun v => map (fun u => Cx u v) x) y.
Proof.
  intros x y. unfold complex_plane, meshgrid, gzip_with. simpl.
  induction y as [|v y IH]; simpl; [reflexivity|].
  rewrite IH. f_equal.
  rewrite <- (map_id x) at 1. apply zip_with_map_fuse.
Qed.

Lemma grid_get_table :
  forall (A : Type) (f : D -> D -> A) (x y : list D) (r k : nat) (u v : D),
    nth_error y r = Some v -> nth_error x k = Some u ->
    grid_get (map (fun v => map (fun u => f u v) x) y) r k = Some (f u v).
Proof.
  intros A f x y r k u v Hr Hk. unfold grid_get.
  rewrite nth_error_map, Hr. simpl. now rewrite nth_error_map, Hk.
Qed.
End GridFacts.

Unset Implicit Arguments.

(** ** C1: escape iteration counts *)

Section FieldCounts.
Context {D : Type} `{Arith D}.

(** The count array of [calculate_mandelbrot], cell by cell. *)
Lemma calculate_mandelbrot_cells :
  forall (width height : Z) (x_min x_max y_min y_max : D) (max_iter : Z)
         (xs ys : list D),
    linspace x_min x_max width = Ok xs ->
    linspace y_min y_max height = Ok ys ->
    exists M X Y,
      calculate_mandelbrot width height x_min x_max y_min y_max max_iter
      = Ok (M, X, Y)
      /\ forall (r k : nat) (x y : D),
        nth_error ys r = Some y -> nth_error xs k = Some x ->
        grid_get M r k = Some (snd (cell_loop (Cx x y) czero max_iter)).
Proof.
  intros width height x_min x_max y_min y_max max_iter xs ys Hx Hy.
  unfold calculate_mandelbrot. rewrite Hx, Hy. cbn [bind].
  pose proof (complex_plane_meshgrid xs ys) as HC.
  destruct (meshgrid xs ys) as [X Y]. cbn [fst snd] in HC. rewrite HC.
  set (G := map (fun v => map (fun u => Cx u v) xs) ys).
  pose proof (escape_loop_cells G (fun g => g) (fun _ => czero) max_iter)
    as Hloop.
  rewrite gmap_id in Hloop. rewrite Hloop.
  eexists _, X, Y. split; [reflexivity|].
  intros r k x y Hr Hk. rewrite grid_get_gmap. unfold G.
  now rewrite (grid_get_table (fun u v => Cx u v) xs ys r k Hr Hk).
Qed.

(** The count array of the loop of [calculate_julia_set], cell by cell. *)
Lemma julia_loop_cells :
  forall (width height : Z) (x_min x_max y_min y_max c_real c_imag : D)
         (max_iter : Z) (xs ys : list D),
    linspace x_min x_max width = Ok xs ->
    linspace y_min y_max height = Ok ys ->
    exists Zs M,
      julia_loop width height x_min x_max y_min y_max c_real c_imag max_iter
      = Ok (Zs, M)
      /\ forall (r k : nat) (x y : D),
        nth_error ys r = Some y -> nth_error xs k = Some x ->
        grid_get Zs r k
        = Some (fst (cell_loop (Cx c_real c_imag) (Cx x y) max_iter))
        /\ grid_get M r k
           = Some (snd (cell_loop (Cx c_real c_imag) (Cx x y) max_iter)).
Proof.
  intros width height x_min x_max y_min y_max c_real c_imag max_iter xs ys
         Hx Hy.
  unfold julia_loop. rewrite Hx, Hy. cbn [bind].
  pose proof (complex_plane_meshgrid xs ys) as HC.
  destruct (meshgrid xs ys) as [X Y]. cbn [fst snd] in HC. rewrite HC.
  set (G := map (fun v => map (fun u => Cx u v) xs) ys).
  pose proof (escape_loop_cells G (fun _ => Cx c_real c_imag) (fun g => g)
                                max_iter) as Hloop.
  rewrite gmap_id in Hloop. rewrite Hloop.
  eexists _, _. split; [reflexivity|].
  intros r k x y Hr Hk. rewrite !grid_get_gmap. unfold G.
  now rewrite (grid_get_table (fun u v => Cx u v) xs ys r k Hr Hk).
Qed.
End FieldCounts.

(** C1, as amended.  For every configuration with positive width and height
    and [max_iter >= 1], both field functions return a full grid, every
    recorded count lies in [0, max_iter - 1] (so in [0, max_iter]), and a
    cell whose orbit stays in the disk of radius 2 at every tested index
    records [max_iter - 1]; with [max_iter = 50] and [c = -0.4+0.6i] the
    Julia sample [z = 0] records 25 and the sample [z = 3+3i] records 0. *)
Theorem escape_counts_amended :
  forall (D : Type) (A : Arith D) (width height : Z)
         (x_min x_max y_min y_max c_real c_imag : D) (max_iter : Z),
    (0 < width)%Z -> (0 < height)%Z -> (1 <= max_iter)%Z ->
    (exists xs ys M X Y Zs MJ,
        linspace x_min x_max width = Ok xs /\ length xs = Z.to_nat width
        /\ linspace y_min y_max height = Ok ys /\ length ys = Z.to_nat height
        /\ calculate_mandelbrot width height x_min x_max y_min y_max max_iter
           = Ok (M, X, Y)
        /\ julia_loop width height x_min x_max y_min y_max c_real c_imag max_iter
           = Ok (Zs, MJ)
        /\ forall (r k : nat) (x y : D),
            nth_error ys r = Some y -> nth_error xs k = Some x ->
            (exists m,
                grid_get M r k = Some m /\ (0 <= m <= max_iter - 1)%Z
                /\ (never_escapes (Cx x y) czero max_iter ->
                    m = (max_iter - 1)%Z))
            /\ (exists m,
                   grid_get MJ r k = Some m /\ (0 <= m <= max_iter - 1)%Z
                   /\ (never_escapes (Cx c_real c_imag) (Cx x y) max_iter ->
                       m = (max_iter - 1)%Z)))
    /\ snd (cell_loop scenario_c scenario_inside 50) = 25%Z
    /\ snd (cell_loop scenario_c scenario_outside 50) = 0%Z.
Proof.
  intros D A width height x_min x_max y_min y_max c_real c_imag max_iter
         Hw Hh Hm.
  split; [|split; vm_compute; reflexivity].
  destruct (linspace_ok x_min x_max (num := width)) as [xs [Hx Hlx]]; [lia|].
  destruct (linspace_ok y_min y_max (num := height)) as [ys [Hy Hly]]; [lia|].
  destruct (calculate_mandelbrot_cells width height x_min x_max y_min y_max
              max_iter xs ys Hx Hy) as [M [X [Y [HM Hcells]]]].
  destruct (julia_loop_cells width height x_min x_max y_min y_max c_real c_imag
              max_iter xs ys Hx Hy) as [Zs [MJ [HJ Hjcells]]].
  exists xs, ys, M, X, Y, Zs, MJ.
  repeat (split; [assumption|]).
  intros r k x y Hr Hk. split.
  - eexists. split; [apply (Hcells r k x y Hr Hk)|].
    apply cell_count_bounds. exact Hm.
  - eexists. split; [apply (Hjcells r k x y Hr Hk)|].
    apply cell_count_bounds. exact Hm.
Qed.

(** The theorem at the 2 x 2 grid over [0, 3] x [0, 3] with 50 iterations. *)
Lemma escape_counts_amended_witness :
  (0 < 2)%Z /\ (0 < 2)%Z /\ (1 <= 50)%Z
  /\ ((exists xs ys M X Y Zs MJ,
          linspace 0%float 3%float 2 = Ok xs /\ length xs = Z.to_nat 2
          /\ linspace 0%float 3%float 2 = Ok ys /\ length ys = Z.to_nat 2
          /\ calculate_mandelbrot 2 2 0%float 3%float 0%float 3%float 50
             = Ok (M, X, Y)
          /\ julia_loop 2 2 0%float 3%float 0%float 3%float
                        (-0.4)%float 0.6%float 50
             = Ok (Zs, MJ)
          /\ forall (r k : nat) (x y : float),
              nth_error ys r = Some y -> nth_error xs k = Some x ->
              (exists m,
                  grid_get M r k = Some m /\ (0 <= m <= 50 - 1)%Z
                  /\ (never_escapes (Cx x y) czero 50 -> m = (50 - 1)%Z))
              /\ (exists m,
                     grid_get MJ r k = Some m /\ (0 <= m <= 50 - 1)%Z
                     /\ (never_escapes (Cx (-0.4)%float 0.6%float) (Cx x y) 50 ->
                         m = (50 - 1)%Z)))
      /\ snd (cell_loop scenario_c scenario_inside 50) = 25%Z
      /\ snd (cell_loop scenario_c scenario_outside 50) = 0%Z).
Proof.
  split; [lia|]. split; [lia|]. split; [lia|].
  apply (@escape_counts_amended float float_arith 2 2 0%float 3%float 0%float
           3%float (-0.4)%float 0.6%float 50); lia.
Defined.

(** C1 as stated fails.  In binary64, with [max_iter = 50]: the Mandelbrot
    cell [c = 0] stays at 0, inside the disk at each of the indices 0..50,
    and records 49; the Julia sample [z = 0] for [c = -0.4+0.6i] leaves
    the disk at its 26th step and records 25.  Neither records 50. *)
Lemma never_escaping_cell_records_max_iter_minus_1 :
  calculate_mandelbrot 1 1 0%float 0%float 0%float 0%float 50
  = Ok ([[49%Z]], [[0%float]], [[0%float]])
  /\ forallb (fun k => in_disk (orbit (Cx 0%float 0%float) czero k)) (seq 0 51)
     = true
  /\ 49%Z <> 50%Z
  /\ match julia_loop 1 1 0%float 0%float 0%float 0%float
                      (-0.4)%float 0.6%float 50 with
     | Ok (_, M) => M = [[25%Z]]
     | Raise _ => False
     end
  /\ in_disk (orbit scenario_c scenario_inside 26) = false.
Proof.
  split; [vm_compute; reflexivity|].
  split; [vm_compute; reflexivity|].
  split; [discriminate|].
  split; vm_compute; reflexivity.
Qed.

(** ** Tours: the 2-opt moves *)

Lemma fold_result_invariant :
  forall (A B : Type) (f : A -> B -> result A) (P : A -> Prop) (Q : B -> Prop)
         (l : list B) (a : A),
    (forall a b, P a -> Q b -> exists a', f a b = Ok a' /\ P a') ->
    Forall Q l -> P a ->
    exists a', fold_result f l a = Ok a' /\ P a'.
Proof.
  intros A B f P Q l a Hstep. revert a.
  induction l as [|b l IH]; intros a HQ HP; simpl.
  - exists a. split; [reflexivity|assumption].
  - inversion HQ as [|b' l' Hb Hl]; subst.
    destruct (Hstep a b HP Hb) as [a' [Ha' HP']].
    rewrite Ha'. simpl. apply IH; assumption.
Qed.

(** The pairs of a sweep satisfy [1 <= i < j <= n - 1]. *)
Lemma index_pairs_bounds :
  forall n : nat,
    Forall (fun ij : nat * nat => 1 <= fst ij /\ fst ij < snd ij /\ snd ij < n)
           (index_pairs n).
Proof.
  intros n. apply Forall_forall. intros [i j] Hin.
  unfold index_pairs in Hin. apply in_flat_map in Hin.
  destruct Hin as [i' [Hi Hj]]. apply in_map_iff in Hj.
  destruct Hj as [j' [Heq Hj']]. inversion Heq; subst.
  apply in_seq in Hi. apply in_seq in Hj'. simpl. lia.
Qed.

(** A reversal of the sub-path [i..j] permutes the tour. *)
Lemma reverse_segment_permutation :
  forall (path : list nat) (i j : nat),
    i <= j + 1 -> Permutation (reverse_segment path i j) path.
Proof.
  intros path i j Hij. unfold reverse_segment.
  pose proof (firstn_skipn i path) as E1.
  pose proof (firstn_skipn (j + 1 - i) (skipn i path)) as E2.
  rewrite skipn_skipn in E2. replace (j + 1 - i + i) with (j + 1) in E2 by lia.
  apply Permutation_trans
    with (firstn i path ++ firstn (j + 1 - i) (skipn i path)
                 ++ skipn (j + 1) path).
  - apply Permutation_app_head, Permutation_app_tail.
    symmetry. apply Permutation_rev.
  - rewrite E2, E1. apply Permutation_refl.
Qed.

(** A reversal that starts at [i >= 1] leaves position 0 alone. *)
Lemma reverse_segment_head :
  forall (path : list nat) (i j : nat),
    1 <= i -> nth_error (reverse_segment path i j) 0 = nth_error path 0.
Proof.
  intros path i j Hi. unfold reverse_segment.
  destruct i as [|i]; [lia|]. destruct path as [|p path].
  - rewrite !skipn_nil, !firstn_nil. reflexivity.
  - reflexivity.
Qed.

Section TwoOptFacts.
Context {D : Type} `{Arith D}.

Lemma indexes_permutation :
  forall (points : list (D * D)) (p q : list nat),
    Permutation p q -> indexes points q -> indexes points p.
Proof.
  intros points p q Hperm Hq. unfold indexes in *.
  rewrite Forall_forall in *. intros v Hv. apply Hq.
  now apply (Permutation_in v Hperm).
Qed.

Lemma point_at_ok :
  forall (points : list (D * D)) (path : list nat) (k : nat),
    indexes points path -> k < length path ->
    exists p, point_at points path k = Ok p.
Proof.
  intros points path k Hidx Hk. unfold point_at, index.
  destruct (nth_error path k) as [v|] eqn:Hv.
  - simpl. assert (Hlt : v < length points).
    { unfold indexes in Hidx. rewrite Forall_forall in Hidx.
      apply Hidx. now apply nth_error_In with k. }
    destruct (nth_error points v) as [p|] eqn:Hp.
    + now exists p.
    + apply nth_error_None in Hp. lia.
  - apply nth_error_None in Hv. lia.
Qed.

Lemma try_swap_invariant :
  forall (points : list (D * D)) (path0 : list nat) (st : list nat * bool)
         (ij : nat * nat),
    indexes points path0 ->
    sweep_invariant points path0 st ->
    1 <= fst ij /\ fst ij < snd ij /\ snd ij < length path0 ->
    exists st', try_swap points (length path0) st ij = Ok st'
                /\ sweep_invariant points path0 st'.
Proof.
  intros points path0 [path improved] [i j] Hidx [Hperm Hhead] Hij.
  simpl in Hperm, Hhead, Hij.
  assert (Hlen : length path = length path0)
    by now apply Permutation_length.
  assert (Hpi : indexes points path)
    by now apply indexes_permutation with path0.
  assert (Hmod : (j + 1) mod length path0 < length path0)
    by (apply Nat.mod_upper_bound; lia).
  destruct (point_at_ok points path (i - 1) Hpi) as [a Ha]; [lia|].
  destruct (point_at_ok points path i Hpi) as [b Hb]; [lia|].
  destruct (point_at_ok points path j Hpi) as [c Hc]; [lia|].
  destruct (point_at_ok points path ((j + 1) mod length path0) Hpi)
    as [d Hd]; [lia|].
  unfold try_swap. rewrite Ha, Hb, Hc, Hd. cbn [bind].
  destruct (dltb _ _).
  - eexists. split; [reflexivity|]. split; cbn [fst].
    + rewrite reverse_segment_permutation by lia. exact Hperm.
    + rewrite reverse_segment_head by lia. exact Hhead.
  - eexists. split; [reflexivity|]. split; assumption.
Qed.

Lemma sweep_invariant_holds :
  forall (points : list (D * D)) (path : list nat),
    indexes points path ->
    exists st', sweep points path = Ok st'
                /\ sweep_invariant points path st'.
Proof.
  intros points path Hidx. unfold sweep.
  apply fold_result_invariant
    with (Q := fun ij : nat * nat =>
                 1 <= fst ij /\ fst ij < snd ij /\ snd ij < length path).
  - intros st ij Hst Hij. now apply try_swap_invariant.
  - apply index_pairs_bounds.
  - split; reflexivity.
Qed.

Lemma two_opt_loop_invariant :
  forall (points : list (D * D)) (budget : nat) (path : list nat)
         (improved : bool),
    indexes points path ->
    exists out, two_opt_loop budget points path improved = Ok out
                /\ Permutation out path
                /\ nth_error out 0 = nth_error path 0.
Proof.
  intros points budget. induction budget as [|budget IH];
    intros path improved Hidx; simpl.
  - exists path. repeat split; reflexivity.
  - destruct improved.
    + destruct (sweep_invariant_holds points path Hidx)
        as [[path' improved'] [Hsweep [Hperm Hhead]]].
      simpl in Hperm, Hhead. rewrite Hsweep. cbn [bind].
      destruct (IH path' improved') as [out [Hout [Hp Hh]]].
      { now apply indexes_permutation with path. }
      exists out. split; [exact Hout|]. split.
      * exact (Permutation_trans Hp Hperm).
      * exact (eq_trans Hh Hhead).
    + exists path. repeat split; reflexivity.
Qed.
End TwoOptFacts.

(** C7.  For every tour that is a permutation of [0..N-1], [N] the number of
    points, and every budget, [two_opt] returns a tour that is again a
    permutation of [0..N-1]; the move it applies, the reversal of the
    sub-path [i..j], is itself a permutation of the tour. *)
Theorem two_opt_keeps_permutation :
  forall (D : Type) (A : Arith D) (points : list (D * D)) (path : list nat)
         (K : Z),
    Permutation path (seq 0 (length points)) ->
    (exists out,
        two_opt points path K = Ok out
        /\ Permutation out (seq 0 (length points)))
    /\ (forall i j : nat,
           i <= j -> Permutation (reverse_segment path i j) path).
Proof.
  intros D A points path K Hperm. split.
  - assert (Hidx : indexes points path).
    { apply indexes_permutation with (seq 0 (length points)); [exact Hperm|].
      unfold indexes. apply Forall_forall. intros v Hv.
      apply in_seq in Hv. lia. }
    destruct (two_opt_loop_invariant points (Z.to_nat K) path true Hidx)
      as [out [Hout [Hp _]]].
    exists out. split; [exact Hout|]. now rewrite Hp.
  - intros i j Hij. apply reverse_segment_permutation. lia.
Qed.

(** The theorem at the unit-step tour of the four points of the square
    staircase, in binary64. *)
Lemma two_opt_keeps_permutation_witness :
  Permutation [0; 1; 2; 3] (seq 0 (length staircase))
  /\ ((exists out,
          two_opt staircase [0; 1; 2; 3] 50 = Ok out
          /\ Permutation out (seq 0 (length staircase)))
      /\ (forall i j : nat,
             i <= j -> Permutation (reverse_segment [0; 1; 2; 3] i j)
                                   [0; 1; 2; 3])).
Proof.
  split; [apply Permutation_refl|].
  apply (two_opt_keeps_permutation float float_arith staircase [0; 1; 2; 3] 50).
  apply Permutation_refl.
Defined.

(** ** Tours: the nearest-neighbour construction *)

Lemma take_at_map :
  forall (A : Type) (d : A) (a : list A) (idx : list nat),
    Forall (fun i => i < length a) idx ->
    take_at a idx = Ok (map (fun i => nth i a d) idx).
Proof.
  intros A d a idx Hidx. induction Hidx as [|i idx Hi _ IH]; simpl.
  - reflexivity.
  - destruct (nth_error a i) as [v|] eqn:Hv.
    + rewrite IH. simpl. f_equal. f_equal. symmetry.
      now apply nth_error_nth.
    + apply nth_error_None in Hv. lia.
Qed.

Lemma set_remove_member :
  forall (v : nat) (s : list nat),
    In v s -> set_remove v s = Ok (filter (fun u => negb (Nat.eqb v u)) s).
Proof.
  intros v s Hin. unfold set_remove.
  replace (existsb (Nat.eqb v) s) with true; [reflexivity|].
  symmetry. apply existsb_exists. exists v. split; [exact Hin|].
  apply Nat.eqb_refl.
Qed.

Lemma set_remove_absent :
  forall (v : nat) (s : list nat), ~ In v s -> set_remove v s = Raise KeyError.
Proof.
  intros v s Hin. unfold set_remove.
  destruct (existsb (Nat.eqb v) s) eqn:E; [|reflexivity].
  apply existsb_exists in E. destruct E as [u [Hu E]].
  apply Nat.eqb_eq in E. subst. contradiction.
Qed.

Lemma in_filter_ne :
  forall (v u : nat) (s : list nat),
    In u (filter (fun w => negb (Nat.eqb v w)) s) <-> In u s /\ u <> v.
Proof.
  intros v u s. rewrite filter_In. split; intros [Hin Hne]; split; auto.
  - intros ->. now rewrite Nat.eqb_refl in Hne.
  - apply negb_true_iff, Nat.eqb_neq. congruence.
Qed.

Lemma filter_ne_shorter :
  forall (v : nat) (s : list nat),
    In v s -> length (filter (fun w => negb (Nat.eqb v w)) s) < length s.
Proof.
  intros v s. induction s as [|u s IH]; intros Hin; [contradiction|].
  simpl. destruct (Nat.eqb_spec v u) as [->|Hne]; simpl.
  - pose proof (filter_length_le (fun w => negb (Nat.eqb u w)) s). lia.
  - destruct Hin as [->|Hin]; [congruence|]. apply IH in Hin. lia.
Qed.

Lemma filter_sorted :
  forall (f : nat -> bool) (s : list nat),
    StronglySorted lt s -> StronglySorted lt (filter f s).
Proof.
  intros f s Hs. induction Hs as [|u s Hs IH Hall]; simpl.
  - constructor.
  - destruct (f u); [|exact IH]. constructor; [exact IH|].
    apply Forall_forall. intros w Hw. apply filter_In in Hw.
    rewrite Forall_forall in Hall. now apply Hall.
Qed.

Lemma sorted_positions :
  forall (s : list nat) (p r v w : nat),
    StronglySorted lt s ->
    nth_error s p = Some v -> nth_error s r = Some w -> p < r -> v < w.
Proof.
  intros s p r v w Hs. revert p r.
  induction Hs as [|u s Hs IH Hall]; intros p r Hp Hr Hlt.
  - destruct p; discriminate.
  - destruct r as [|r]; [lia|]. simpl in Hr. destruct p as [|p].
    + simpl in Hp. inversion Hp; subst.
      rewrite Forall_forall in Hall. apply Hall.
      now apply nth_error_In with r.
    + simpl in Hp. apply (IH p r); [assumption|assumption|lia].
Qed.

Lemma seq_sorted : forall len start : nat, StronglySorted lt (seq start len).
Proof.
  induction len as [|len IH]; intros start; simpl; constructor.
  - apply IH.
  - apply Forall_forall. intros w Hw. apply in_seq in Hw. lia.
Qed.

Section ArgminFacts.
Context {D : Type} `{Arith D}.

Lemma argmin_from_bound :
  forall (l : list D) (mp : D) (min_ind i : nat),
    min_ind < i -> argmin_from mp min_ind i l < i + length l.
Proof.
  induction l as [|x l IH]; intros mp min_ind i Hlt; simpl; [lia|].
  destruct (dleb mp x).
  - pose proof (IH mp min_ind (S i)). lia.
  - destruct (deqb x x); [|lia].
    pose proof (IH x i (S i)). lia.
Qed.

Lemma argmin_ok :
  forall l : list D,
    l <> [] -> exists r, argmin l = Ok r /\ r < length l.
Proof.
  intros [|x l] Hne; [congruence|]. simpl. destruct (deqb x x).
  - eexists. split; [reflexivity|].
    pose proof (argmin_from_bound l x 0 1). lia.
  - exists 0. split; [reflexivity|lia].
Qed.

(** Under the order laws, and with no [nan] among the values,
    [argmin_from] returns the first position of a least value of
    [pre ++ l], when [mp] at [min_ind] is that for [pre]. *)
Lemma argmin_from_least :
  order_laws ->
  forall (l pre : list D) (mp : D) (min_ind : nat),
    Forall (fun y => deqb y y = true) (pre ++ l) ->
    nth_error pre min_ind = Some mp ->
    (forall p y, nth_error pre p = Some y ->
                 dleb mp y = true /\ (p < min_ind -> dltb mp y = true)) ->
    exists m,
      nth_error (pre ++ l) (argmin_from mp min_ind (length pre) l) = Some m
      /\ forall p y, nth_error (pre ++ l) p = Some y ->
                     dleb m y = true
                     /\ (p < argmin_from mp min_ind (length pre) l ->
                         dltb m y = true).
Proof.
  intros [Htrans [Htotal Hdual]].
  induction l as [|x l IH]; intros pre mp min_ind Hnum Hmp Hpre.
  - simpl. rewrite app_nil_r. exists mp. split; assumption.
  - assert (Hx : deqb x x = true).
    { rewrite Forall_forall in Hnum. apply Hnum.
      apply in_or_app. right. now left. }
    assert (Hys : forall p y, nth_error pre p = Some y -> deqb y y = true).
    { intros p y Hp. rewrite Forall_forall in Hnum. apply Hnum.
      apply in_or_app. left. now apply nth_error_In with p. }
    simpl. replace (pre ++ x :: l) with ((pre ++ [x]) ++ l) in *
      by (rewrite <- app_assoc; reflexivity).
    replace (S (length pre)) with (length (pre ++ [x]))
      by (rewrite length_app; simpl; lia).
    assert (Hlt : min_ind < length pre)
      by (apply nth_error_Some; congruence).
    destruct (dleb mp x) eqn:Hle.
    + apply IH; [exact Hnum| |].
      * rewrite nth_error_app1 by lia. exact Hmp.
      * intros p y Hp.
        destruct (Nat.lt_ge_cases p (length pre)) as [Hin|Hout].
        -- rewrite nth_error_app1 in Hp by lia. now apply Hpre.
        -- rewrite nth_error_app2 in Hp by lia.
           destruct (p - length pre) as [|q] eqn:Hq; simpl in Hp.
           ++ inversion Hp; subst. split; [exact Hle|lia].
           ++ destruct q; discriminate.
    + rewrite Hx. apply IH; [exact Hnum| |].
      * rewrite nth_error_app2 by lia. rewrite Nat.sub_diag. reflexivity.
      * intros p y Hp.
        destruct (Nat.lt_ge_cases p (length pre)) as [Hin|Hout].
        -- rewrite nth_error_app1 in Hp by lia.
           destruct (Hpre p y Hp) as [Hmy _].
           pose proof (Hys p y Hp) as Hy.
           assert (Hyx : dleb y x = false).
           { destruct (dleb y x) eqn:Hyx; [|reflexivity].
             rewrite (Htrans mp y x Hmy Hyx) in Hle. discriminate. }
           split.
           ++ destruct (Htotal x y Hx Hy) as [Hxy|Hxy];
                [exact Hxy|congruence].
           ++ intros _. rewrite (Hdual x y Hx Hy), Hyx. reflexivity.
        -- rewrite nth_error_app2 in Hp by lia.
           destruct (p - length pre) as [|q] eqn:Hq; simpl in Hp.
           ++ inversion Hp; subst. split; [|lia].
              destruct (Htotal y y Hx Hx); assumption.
           ++ destruct q; discriminate.
Qed.

Lemma argmin_least :
  order_laws ->
  forall (l : list D) (r : nat),
    Forall (fun y => deqb y y = true) l ->
    argmin l = Ok r ->
    exists m,
      nth_error l r = Some m
      /\ forall p y, nth_error l p = Some y ->
                     dleb m y = true /\ (p < r -> dltb m y = true).
Proof.
  intros Hlaws [|x l] r Hnum Hr; [discriminate|]. simpl in Hr.
  assert (Hx : deqb x x = true) by (inversion Hnum; assumption).
  rewrite Hx in Hr. inversion Hr; subst.
  apply (argmin_from_least Hlaws l [x] x 0); [exact Hnum|reflexivity|].
  intros p y Hp. destruct p as [|[|p]]; try discriminate.
  simpl in Hp. inversion Hp; subst. destruct Hlaws as [_ [Htotal _]].
  split; [|lia]. destruct (Htotal y y Hx Hx); assumption.
Qed.

Lemma no_nan_distance_spec :
  forall (points : list (D * D)) (p q : D * D),
    no_nan_distance points = true -> In p points -> In q points ->
    deqb (euclid p q) (euclid p q) = true.
Proof.
  intros points p q Hn Hp Hq. unfold no_nan_distance in Hn.
  rewrite forallb_forall in Hn. specialize (Hn p Hp).
  rewrite forallb_forall in Hn. now apply Hn.
Qed.
End ArgminFacts.

Lemma sorted_remove_permutation :
  forall (v : nat) (s : list nat),
    StronglySorted lt s -> In v s ->
    Permutation s (v :: filter (fun w => negb (Nat.eqb v w)) s).
Proof.
  intros v s Hs. induction Hs as [|u s Hs IH Hall]; intros Hin.
  - contradiction.
  - simpl. destruct (Nat.eqb_spec v u) as [->|Hne]; simpl.
    + apply perm_skip. rewrite Forall_forall in Hall.
      clear IH Hin. induction s as [|w s IHs]; simpl; [constructor|].
      assert (Hw : u < w) by (apply Hall; now left).
      destruct (Nat.eqb_spec u w) as [->|_]; [lia|]. simpl.
      apply perm_skip. inversion Hs; subst. apply IHs; [assumption|].
      intros x Hx. apply Hall. now right.
    + destruct Hin as [->|Hin]; [congruence|].
      apply Permutation_trans with (u :: v :: filter (fun w => negb (v =? w)) s).
      * apply perm_skip. now apply IH.
      * apply perm_swap.
Qed.

Section NearestNeighbourFacts.
Context {D : Type} `{Arith D}.

Lemma nn_loop_unfold :
  forall (points : list (D * D)) (fuel : nat) (unvisited : list nat)
         (current : nat) (path : list nat),
    unvisited <> [] ->
    nn_loop (S fuel) points unvisited current path
    = match
        (pc <- index points current ;;
         pts <- take_at points unvisited ;;
         nearest_idx <- argmin (map (euclid pc) pts) ;;
         nearest <- index unvisited nearest_idx ;;
         rest <- set_remove nearest unvisited ;;
         Ok (nearest, rest))
      with
      | Raise e => Some (Raise e)
      | Ok (nearest, rest) =>
          nn_loop fuel points rest nearest (path ++ [nearest])
      end.
Proof.
  intros points fuel [|u us] current path Hne; [congruence|reflexivity].
Qed.

(** The loop from any state it can reach: [unvisited] is increasing and
    holds exactly the rows of [points] that are not on the path. *)
Lemma nn_loop_spec :
  forall (points : list (D * D)) (fuel : nat) (unvisited : list nat)
         (current : nat) (path0 : list nat),
    length unvisited <= fuel ->
    StronglySorted lt unvisited ->
    (forall v, In v unvisited -> v < length points) ->
    current < length points ->
    (forall v, v < length points -> ~ In v (path0 ++ [current]) ->
               In v unvisited) ->
    (order_laws -> no_nan_distance points = true ->
     greedy points (path0 ++ [current])) ->
    exists out,
      nn_loop fuel points unvisited current (path0 ++ [current])
      = Some (Ok out)
      /\ Permutation out ((path0 ++ [current]) ++ unvisited)
      /\ (exists rest, out = (path0 ++ [current]) ++ rest)
      /\ (order_laws -> no_nan_distance points = true -> greedy points out).
Proof.
  intros points fuel.
  induction fuel as [|fuel IH];
    intros unvisited current path0 Hfuel Hsorted Hrange Hcur Hcover Hgreedy.
  - destruct unvisited as [|u us]; [|simpl in Hfuel; lia].
    simpl. exists (path0 ++ [current]). split; [reflexivity|].
    split; [now rewrite app_nil_r|]. split; [|assumption].
    exists []. now rewrite app_nil_r.
  - destruct (list_eq_dec Nat.eq_dec unvisited []) as [HU|HU].
    { subst unvisited. simpl. exists (path0 ++ [current]).
      split; [reflexivity|].
      split; [now rewrite app_nil_r|]. split; [|assumption].
      exists []. now rewrite app_nil_r. }
    rewrite (nn_loop_unfold points fuel unvisited current (path0 ++ [current]) HU).
    destruct (nth_error points current) as [pc|] eqn:Hpc;
      [|apply nth_error_None in Hpc; lia].
    assert (Hidx : index points current = Ok pc)
      by (unfold index; now rewrite Hpc).
    rewrite Hidx. cbn [bind].
    rewrite (take_at_map _ pc points unvisited)
      by (apply Forall_forall; exact Hrange).
    cbn [bind].
    set (dist := map (euclid pc) (map (fun i => nth i points pc) unvisited)).
    destruct (argmin_ok dist) as [r [Hr Hrlen]].
    { unfold dist. destruct unvisited; [congruence|discriminate]. }
    rewrite Hr. cbn [bind].
    assert (Hrlen' : r < length unvisited)
      by (unfold dist in Hrlen; now rewrite !length_map in Hrlen).
    destruct (nth_error unvisited r) as [nearest|] eqn:Hnear;
      [|apply nth_error_None in Hnear; lia].
    assert (Hin : In nearest unvisited) by now apply nth_error_In with r.
    unfold index at 1. rewrite Hnear. cbn [bind].
    rewrite (set_remove_member nearest unvisited Hin). cbn [bind].
    set (rest := filter (fun w => negb (nearest =? w)) unvisited).
    destruct (IH rest nearest (path0 ++ [current])) as [out [Hout [Hp [Hpre Hg]]]].
    + pose proof (filter_ne_shorter nearest unvisited Hin). unfold rest. lia.
    + now apply filter_sorted.
    + intros v Hv. apply in_filter_ne in Hv. apply Hrange. tauto.
    + now apply Hrange.
    + intros v Hv Hnot. apply in_filter_ne. split.
      * apply Hcover; [exact Hv|]. intros Hc. apply Hnot.
        apply in_or_app. now left.
      * intros ->. apply Hnot. apply in_or_app. right. now left.
    + intros Hlaws Hnum k cur nxt Hk HSk.
      assert (Hlen : length ((path0 ++ [current]) ++ [nearest])
                     = S (length (path0 ++ [current])))
        by (rewrite length_app; simpl; lia).
      assert (HSklt : S k < S (length (path0 ++ [current])))
        by (rewrite <- Hlen; apply nth_error_Some; congruence).
      destruct (Nat.eq_dec (S k) (length (path0 ++ [current]))) as [Heq|Hne].
      * rewrite nth_error_app2 in HSk by lia.
        rewrite Heq, Nat.sub_diag in HSk. simpl in HSk.
        inversion HSk; subst nxt.
        rewrite nth_error_app1 in Hk by lia.
        assert (Hcurk : cur = current).
        { rewrite nth_error_app2 in Hk
            by (rewrite length_app in Heq; simpl in Heq; lia).
          replace (k - length path0) with 0 in Hk
            by (rewrite length_app in Heq; simpl in Heq; lia).
          simpl in Hk. congruence. }
        subst cur. rewrite Heq. rewrite firstn_app.
        rewrite Nat.sub_diag, firstn_all. simpl. rewrite app_nil_r.
        intros pc' pn pv v Hpc' Hpn Hpv Hnot.
        assert (pc' = pc) by congruence. subst pc'.
        assert (Hvlt : v < length points)
          by (apply nth_error_Some; congruence).
        pose proof (Hcover v Hvlt Hnot) as Hvin.
        destruct (In_nth_error _ _ Hvin) as [p Hp'].
        assert (Hdnum : Forall (fun y => deqb y y = true) dist).
        { unfold dist. apply Forall_forall. intros y Hy.
          apply in_map_iff in Hy. destruct Hy as [pw [<- Hpw]].
          apply in_map_iff in Hpw. destruct Hpw as [w [<- Hw]].
          apply (no_nan_distance_spec points); [exact Hnum| |].
          - now apply nth_error_In with current.
          - apply nth_In. now apply Hrange. }
        destruct (argmin_least Hlaws dist r Hdnum Hr) as [m [Hm Hleast]].
        assert (Hdist : forall q w pw,
                   nth_error unvisited q = Some w ->
                   nth_error points w = Some pw ->
                   nth_error dist q = Some (euclid pc pw)).
        { intros q w pw Hq Hw. unfold dist.
          rewrite !nth_error_map, Hq. simpl.
          now rewrite (nth_error_nth _ _ _ Hw). }
        rewrite (Hdist r nearest pn Hnear Hpn) in Hm.
        inversion Hm; subst m.
        destruct (Hleast p _ (Hdist p v pv Hp' Hpv)) as [Hle Hfirst].
        split; [exact Hle|]. intros Hvn. apply Hfirst.
        destruct (Nat.lt_trichotomy p r) as [Hpr|[Hpr|Hpr]]; [exact Hpr| |].
        -- subst p. rewrite Hp' in Hnear. inversion Hnear. lia.
        -- pose proof (sorted_positions _ _ _ _ _ Hsorted Hnear Hp' Hpr). lia.
      * rewrite nth_error_app1 in HSk by lia.
        rewrite nth_error_app1 in Hk by lia.
        rewrite firstn_app.
        replace (S k - length (path0 ++ [current])) with 0 by lia.
        simpl. rewrite app_nil_r.
        now apply (Hgreedy Hlaws Hnum k cur nxt).
    + exists out. split; [exact Hout|]. split; [|split].
      * apply Permutation_trans with (1 := Hp).
        rewrite <- app_assoc. apply Permutation_app_head. simpl.
        symmetry. now apply sorted_remove_permutation.
      * destruct Hpre as [rest' Hrest']. exists (nearest :: rest').
        rewrite Hrest', <- app_assoc. reflexivity.
      * exact Hg.
Qed.

(** The construction, for every non-empty point set. *)
Lemma nearest_neighbor_tsp_spec :
  forall points : list (D * D),
    points <> [] ->
    exists out,
      nearest_neighbor_tsp points = Some (Ok out)
      /\ Permutation out (seq 0 (length points))
      /\ nth_error out 0 = Some 0
      /\ (order_laws -> no_nan_distance points = true -> greedy points out).
Proof.
  intros points Hne. unfold nearest_neighbor_tsp.
  assert (Hn : 0 < length points)
    by (destruct points; [congruence|simpl; lia]).
  assert (H0 : In 0 (seq 0 (length points))) by (apply in_seq; lia).
  rewrite (set_remove_member 0 _ H0).
  destruct (nn_loop_spec points (length points)
              (filter (fun w => negb (0 =? w)) (seq 0 (length points)))
              0 [])
    as [out [Hout [Hp [[rest Hrest] Hg]]]].
  - pose proof (filter_length_le (fun w => negb (0 =? w))
                                 (seq 0 (length points))).
    rewrite length_seq in *. lia.
  - apply filter_sorted, seq_sorted.
  - intros v Hv. apply in_filter_ne in Hv. destruct Hv as [Hv _].
    apply in_seq in Hv. lia.
  - exact Hn.
  - intros v Hv Hnot. apply in_filter_ne. split.
    + apply in_seq. lia.
    + intros ->. apply Hnot. now left.
  - intros _ _ k cur nxt Hk HSk. destruct k; discriminate.
  - exists out. split; [exact Hout|]. split; [|split].
    + apply Permutation_trans with (1 := Hp). simpl. symmetry.
      apply sorted_remove_permutation; [apply seq_sorted|exact H0].
    + rewrite Hrest. reflexivity.
    + exact Hg.
Qed.
End NearestNeighbourFacts.

(** The reals satisfy the order laws. *)
Lemma real_order_laws : order_laws (D := R).
Proof.
  unfold order_laws. simpl. unfold Rltb, Rleb. repeat split.
  - intros a b c. destruct (Rle_dec a b), (Rle_dec b c), (Rle_dec a c);
      try discriminate; try reflexivity; lra.
  - intros a b _ _. destruct (Rle_dec a b), (Rle_dec b a); auto; lra.
  - intros a b _ _. destruct (Rlt_dec a b), (Rle_dec b a);
      try reflexivity; lra.
Qed.

Lemma real_no_nan_distance :
  forall points : list (R * R), no_nan_distance points = true.
Proof.
  intros points. unfold no_nan_distance.
  apply forallb_forall. intros p _. apply forallb_forall. intros q _.
  change (Reqb (euclid p q) (euclid p q) = true). unfold Reqb.
  destruct (Req_dec_T (euclid p q) (euclid p q)); [reflexivity|congruence].
Qed.

(** Binary64 satisfies them: the comparisons of IEEE 754, as the library
    specifies them, order the floats that are not [nan]. *)
Ltac compare_cases :=
  repeat match goal with
         | H : context [PosDef.Pos.compare_cont Eq ?a ?b] |- _ =>
             change (PosDef.Pos.compare_cont Eq a b) with (Pos.compare a b) in H
         | |- context [PosDef.Pos.compare_cont Eq ?a ?b] =>
             change (PosDef.Pos.compare_cont Eq a b) with (Pos.compare a b)
         end;
  repeat match goal with
         | H : context [Z.compare ?a ?b] |- _ =>
             destruct (Z.compare_spec a b); cbn in H
         | |- context [Z.compare ?a ?b] =>
             destruct (Z.compare_spec a b); cbn
         | H : context [Pos.compare ?a ?b] |- _ =>
             destruct (Pos.compare_spec a b); cbn in H
         | |- context [Pos.compare ?a ?b] =>
             destruct (Pos.compare_spec a b); cbn
         end;
  try reflexivity; try discriminate; auto; try lia.

Lemma SFleb_trans :
  forall a b c : SpecFloat.spec_float,
    SpecFloat.SFleb a b = true -> SpecFloat.SFleb b c = true ->
    SpecFloat.SFleb a c = true.
Proof.
  unfold SpecFloat.SFleb.
  intros [sa|sa| |sa ma ea] [sb|sb| |sb mb eb] [sc|sc| |sc mc ec];
    cbn; try discriminate; try reflexivity;
    repeat match goal with s : bool |- _ => destruct s end;
    cbn; try discriminate; try reflexivity; intros Hab Hbc; compare_cases.
Qed.

Lemma SFleb_total :
  forall a b : SpecFloat.spec_float,
    SpecFloat.SFeqb a a = true -> SpecFloat.SFeqb b b = true ->
    SpecFloat.SFleb a b = true \/ SpecFloat.SFleb b a = true.
Proof.
  unfold SpecFloat.SFleb, SpecFloat.SFeqb.
  intros [sa|sa| |sa ma ea] [sb|sb| |sb mb eb];
    cbn; try discriminate; auto;
    repeat match goal with s : bool |- _ => destruct s end;
    cbn; try discriminate; auto; intros _ _; compare_cases.
Qed.

Lemma SFltb_dual :
  forall a b : SpecFloat.spec_float,
    SpecFloat.SFeqb a a = true -> SpecFloat.SFeqb b b = true ->
    SpecFloat.SFltb a b = negb (SpecFloat.SFleb b a).
Proof.
  unfold SpecFloat.SFltb, SpecFloat.SFleb, SpecFloat.SFeqb.
  intros [sa|sa| |sa ma ea] [sb|sb| |sb mb eb];
    cbn; try discriminate; try reflexivity;
    repeat match goal with s : bool |- _ => destruct s end;
    cbn; try discriminate; try reflexivity; intros _ _; compare_cases.
Qed.

Lemma float_order_laws : order_laws (D := float).
Proof.
  unfold order_laws. cbn [dleb dltb deqb float_arith]. repeat split.
  - intros a b c. rewrite !FloatAxioms.leb_spec. apply SFleb_trans.
  - intros a b. rewrite !FloatAxioms.leb_spec, !FloatAxioms.eqb_spec.
    apply SFleb_total.
  - intros a b.
    rewrite FloatAxioms.leb_spec, FloatAxioms.ltb_spec, !FloatAxioms.eqb_spec.
    apply SFltb_dual.
Qed.

(** C3, as amended.  For every non-empty point set [nearest_neighbor_tsp]
    returns a tour that is a permutation of [0..N-1], each index once, with
    index 0 first, and the tour [[0]] for [N = 1].  In binary64, when no
    distance between two points is [nan], every step of that tour goes to
    the nearest point not yet visited, the lowest index winning a tie; in
    exact real arithmetic every step does. *)
Theorem nearest_neighbor_tour :
  (forall (D : Type) (A : Arith D) (points : list (D * D)),
      points <> [] ->
      exists path,
        nearest_neighbor_tsp points = Some (Ok path)
        /\ Permutation path (seq 0 (length points))
        /\ NoDup path
        /\ nth_error path 0 = Some 0
        /\ (length points = 1 -> path = [0]))
  /\ (forall points : list (float * float),
         points <> [] -> no_nan_distance points = true ->
         exists path,
           nearest_neighbor_tsp points = Some (Ok path)
           /\ greedy points path)
  /\ (forall points : list (R * R),
         points <> [] ->
         exists path,
           nearest_neighbor_tsp points = Some (Ok path)
           /\ greedy points path).
Proof.
  split; [|split].
  - intros D A points Hne.
    destruct (nearest_neighbor_tsp_spec points Hne)
      as [path [Hp [Hperm [H0 _]]]].
    exists path. split; [exact Hp|]. split; [exact Hperm|].
    split; [|split; [exact H0|]].
    + apply Permutation_NoDup with (seq 0 (length points)).
      * now symmetry.
      * apply seq_NoDup.
    + intros H1. rewrite H1 in Hperm. simpl in Hperm.
      apply Permutation_sym, Permutation_length_1_inv in Hperm. exact Hperm.
  - intros points Hne Hnum.
    destruct (nearest_neighbor_tsp_spec points Hne) as [path [Hp [_ [_ Hg]]]].
    exists path. split; [exact Hp|]. exact (Hg float_order_laws Hnum).
  - intros points Hne.
    destruct (nearest_neighbor_tsp_spec points Hne) as [path [Hp [_ [_ Hg]]]].
    exists path. split; [exact Hp|].
    exact (Hg real_order_laws (real_no_nan_distance points)).
Qed.

(** The theorem at five points in binary64: from point 0 the points 2, 3
    and 4 are all at distance 1 and point 1 at distance 2; the tour goes to
    point 2. *)
Lemma nearest_neighbor_tour_witness :
  tie_points <> []
  /\ no_nan_distance tie_points = true
  /\ nearest_neighbor_tsp tie_points = Some (Ok [0; 2; 3; 1; 4])
  /\ greedy tie_points [0; 2; 3; 1; 4].
Proof.
  split; [discriminate|]. split; [vm_compute; reflexivity|].
  destruct (proj1 (proj2 nearest_neighbor_tour) tie_points)
    as [path [Hp Hg]]; [discriminate|vm_compute; reflexivity|].
  assert (Hpath : path = [0; 2; 3; 1; 4]).
  { assert (Hc : nearest_neighbor_tsp tie_points = Some (Ok [0; 2; 3; 1; 4]))
      by (vm_compute; reflexivity).
    rewrite Hc in Hp. now inversion Hp. }
  subst path. split; [exact Hp|exact Hg].
Defined.

(** C3 as stated fails.  With a [nan] coordinate in the third of three
    points, [np.argmin] returns the position of the [nan] distance: the tour
    goes from point 0 to point 2, whose distance is not at most that of the
    unvisited point 1. *)
Lemma nearest_neighbor_goes_to_a_nan_distance :
  nearest_neighbor_tsp nan_points = Some (Ok [0; 2; 1])
  /\ dleb (euclid (0, 0)%float (nan, 0)%float)
          (euclid (0, 0)%float (1, 0)%float) = false
  /\ ~ greedy nan_points [0; 2; 1].
Proof.
  split; [vm_compute; reflexivity|]. split; [vm_compute; reflexivity|].
  intros Hg.
  destruct (Hg 0 0 2 eq_refl eq_refl (0, 0)%float (nan, 0)%float
               (1, 0)%float 1 eq_refl eq_refl eq_refl) as [Hle _].
  - simpl. intros [Hc|[]]. discriminate.
  - vm_compute in Hle. discriminate.
Qed.

(** C10.  For every non-empty point set and every budget, the tour of
    nearest-neighbour construction followed by 2-opt has index 0 first: the
    constructor puts it there, every pair of a sweep has [i >= 1], and a
    reversal of [i..j] with [i >= 1] leaves position 0 alone. *)
Theorem solve_tsp_starts_at_0 :
  forall (D : Type) (A : Arith D) (points : list (D * D)) (K : Z),
    points <> [] ->
    (exists nn path,
        nearest_neighbor_tsp points = Some (Ok nn)
        /\ nth_error nn 0 = Some 0
        /\ solve_tsp points TwoOpt K = Some (Ok path)
        /\ nth_error path 0 = Some 0)
    /\ (forall n i j : nat, In (i, j) (index_pairs n) -> 1 <= i)
    /\ (forall (p : list nat) (i j : nat),
           1 <= i -> nth_error (reverse_segment p i j) 0 = nth_error p 0).
Proof.
  intros D A points K Hne. split; [|split].
  - destruct (nearest_neighbor_tsp_spec points Hne) as [nn [Hnn [Hperm [H0 _]]]].
    assert (Hidx : indexes points nn).
    { apply indexes_permutation with (seq 0 (length points)); [exact Hperm|].
      unfold indexes. apply Forall_forall. intros v Hv.
      apply in_seq in Hv. lia. }
    destruct (two_opt_loop_invariant points (Z.to_nat K) nn true Hidx)
      as [path [Hpath [_ Hhead]]].
    exists nn, path. split; [exact Hnn|]. split; [exact H0|]. split.
    + unfold solve_tsp. rewrite Hnn. unfold two_opt. now rewrite Hpath.
    + now rewrite Hhead.
  - intros n i j Hin. pose proof (index_pairs_bounds n) as Hb.
    rewrite Forall_forall in Hb. apply (Hb (i, j) Hin).
  - intros p i j Hi. now apply reverse_segment_head.
Qed.

(** The theorem at the four points of the staircase, in binary64. *)
Lemma solve_tsp_starts_at_0_witness :
  staircase <> []
  /\ ((exists nn path,
          nearest_neighbor_tsp staircase = Some (Ok nn)
          /\ nth_error nn 0 = Some 0
          /\ solve_tsp staircase TwoOpt 50 = Some (Ok path)
          /\ nth_error path 0 = Some 0)
      /\ (forall n i j : nat, In (i, j) (index_pairs n) -> 1 <= i)
      /\ (forall (p : list nat) (i j : nat),
             1 <= i -> nth_error (reverse_segment p i j) 0 = nth_error p 0)).
Proof.
  split; [discriminate|].
  apply (solve_tsp_starts_at_0 float float_arith staircase 50). discriminate.
Defined.

(** ** Tours: lengths, in exact arithmetic *)

Lemma segment_split :
  forall (A : Type) (l : list A) (i j : nat),
    1 <= i -> i < j -> j < length l ->
    exists pre a b mid c post,
      l = pre ++ a :: b :: mid ++ c :: post
      /\ length pre = i - 1 /\ length mid = j - i - 1.
Proof.
  intros A l i j Hi Hij Hj.
  pose proof (firstn_skipn (i - 1) l) as E1.
  pose proof (length_skipn (i - 1) l) as L1.
  destruct (skipn (i - 1) l) as [|a [|b r]] eqn:Hs; simpl in L1; try lia.
  pose proof (firstn_skipn (j - i - 1) r) as E2.
  pose proof (length_skipn (j - i - 1) r) as L2.
  destruct (skipn (j - i - 1) r) as [|c post] eqn:Hr; simpl in L2; try lia.
  exists (firstn (i - 1) l), a, b, (firstn (j - i - 1) r), c, post.
  split; [|split].
  - rewrite E2. symmetry. exact E1.
  - rewrite length_firstn. lia.
  - rewrite length_firstn. lia.
Qed.

Lemma reverse_segment_app :
  forall (X Y Z : list nat) (i j : nat),
    i = length X -> j + 1 = length X + length Y ->
    reverse_segment (X ++ Y ++ Z) i j = X ++ rev Y ++ Z.
Proof.
  intros X Y Z i j Hi Hj. unfold reverse_segment. subst i.
  replace (j + 1 - length X) with (length Y) by lia.
  assert (F1 : firstn (length X) (X ++ Y ++ Z) = X).
  { rewrite firstn_app, Nat.sub_diag, firstn_all. simpl. apply app_nil_r. }
  assert (S1 : skipn (length X) (X ++ Y ++ Z) = Y ++ Z).
  { rewrite skipn_app, Nat.sub_diag, skipn_all. reflexivity. }
  assert (F2 : firstn (length Y) (Y ++ Z) = Y).
  { rewrite firstn_app, Nat.sub_diag, firstn_all. simpl. apply app_nil_r. }
  assert (S2 : skipn (j + 1) (X ++ Y ++ Z) = Z).
  { rewrite Hj, app_assoc, <- length_app.
    rewrite skipn_app, Nat.sub_diag, skipn_all. reflexivity. }
  now rewrite F1, S1, F2, S2.
Qed.

Section RealLengths.
Local Open Scope R_scope.

Lemma fold_plus_shift :
  forall (l : list R) (a : R), fold_left Rplus l a = a + fold_left Rplus l 0.
Proof.
  induction l as [|x l IH]; intros a; simpl; [lra|].
  rewrite (IH (a + x)), (IH (0 + x)). lra.
Qed.

Lemma dsum_cons : forall (x : R) (l : list R), dsum (x :: l) = x + dsum l.
Proof.
  intros x l. unfold dsum. simpl. rewrite fold_plus_shift. lra.
Qed.

Lemma euclid_sym : forall p q : R * R, euclid p q = euclid q p.
Proof.
  intros [px py] [qx qy]. unfold euclid. simpl. f_equal. ring.
Qed.

Lemma walk_one : forall p : R * R, walk [p] = 0.
Proof. reflexivity. Qed.

Lemma walk_cons2 :
  forall (p q : R * R) (l : list (R * R)),
    walk (p :: q :: l) = euclid q p + walk (q :: l).
Proof.
  intros p q l. unfold walk. cbn [steps]. apply dsum_cons.
Qed.

Lemma walk_split :
  forall (l1 : list (R * R)) (a : R * R) (l2 : list (R * R)),
    walk (l1 ++ a :: l2) = walk (l1 ++ [a]) + walk (a :: l2).
Proof.
  induction l1 as [|x l1 IH]; intros a l2.
  - simpl. rewrite walk_one. lra.
  - destruct l1 as [|y l1].
    + simpl. rewrite !walk_cons2, walk_one. lra.
    + specialize (IH a l2). simpl in *. rewrite !walk_cons2, IH. lra.
Qed.

Lemma walk_rev : forall l : list (R * R), walk (rev l) = walk l.
Proof.
  induction l as [|a [|b l] IH].
  - reflexivity.
  - reflexivity.
  - cbn [rev] in *. rewrite <- app_assoc. cbn [app].
    rewrite walk_split, IH, !walk_cons2, walk_one, (euclid_sym a b). lra.
Qed.

(** Reversing a segment between two fixed neighbours exchanges two edges
    and keeps every other step. *)
Lemma walk_reverse_segment :
  forall (pre : list (R * R)) (a b : R * R) (mid : list (R * R))
         (c d : R * R) (tl : list (R * R)),
    walk (pre ++ a :: c :: rev mid ++ b :: d :: tl)
    = walk (pre ++ a :: b :: mid ++ c :: d :: tl)
      - (euclid a b + euclid c d) + (euclid a c + euclid b d).
Proof.
  intros pre a b mid c d tl.
  pose proof (walk_split (c :: rev mid) b (d :: tl)) as E1.
  pose proof (walk_split (b :: mid) c (d :: tl)) as E2.
  pose proof (walk_rev ((b :: mid) ++ [c])) as E3.
  rewrite rev_app_distr in E3. cbn [rev app] in E1, E2, E3.
  rewrite (walk_split pre a (c :: rev mid ++ b :: d :: tl)).
  rewrite (walk_split pre a (b :: mid ++ c :: d :: tl)).
  rewrite !walk_cons2, E1, E2, !walk_cons2.
  cbn [app] in E3. rewrite E3.
  rewrite (euclid_sym c a), (euclid_sym b a), (euclid_sym d b),
    (euclid_sym d c). lra.
Qed.
End RealLengths.

Section TwoOptLengths.
Local Open Scope R_scope.

Variable points : list (R * R).

Lemma point_at_row :
  forall (path : list nat) (k v : nat),
    indexes points path -> nth_error path k = Some v ->
    point_at points path k = Ok (row points v).
Proof.
  intros path k v Hidx Hk. unfold point_at, index. rewrite Hk. cbn [bind].
  assert (Hv : (v < length points)%nat).
  { unfold indexes in Hidx. rewrite Forall_forall in Hidx.
    apply Hidx. now apply nth_error_In with k. }
  unfold row. now rewrite (nth_error_nth' points (0, 0) Hv).
Qed.

Lemma cycle_length_closed_walk :
  forall path : list nat,
    indexes points path ->
    cycle_length points path = Ok (closed_walk (map (row points) path)).
Proof.
  intros path Hidx. unfold cycle_length.
  rewrite (take_at_map _ (0, 0) points path Hidx). cbn [bind].
  fold (row points). destruct (map (row points) path); reflexivity.
Qed.

(** One pair of a sweep never lengthens the closed tour. *)
Lemma try_swap_closed_walk :
  forall (path : list nat) (improved : bool) (i j : nat)
         (st' : list nat * bool),
    indexes points path ->
    (1 <= i)%nat -> (i < j)%nat -> (j < length path)%nat ->
    try_swap points (length path) (path, improved) (i, j) = Ok st' ->
    closed_walk (map (row points) (fst st'))
    <= closed_walk (map (row points) path).
Proof.
  intros path improved i j st' Hidx Hi Hij Hj Hswap.
  destruct (segment_split _ path i j Hi Hij Hj)
    as [pre [ia [ib [mid [ic [post [Hpath [Hpre Hmid]]]]]]]].
  set (h := hd 0%nat path).
  set (tail := map (row points) post ++ [row points h]).
  assert (Hlen : length path = (j + 1 + length post)%nat).
  { rewrite Hpath, length_app. simpl. rewrite length_app. simpl. lia. }
  assert (Ha : nth_error path (i - 1) = Some ia).
  { rewrite Hpath, nth_error_app2 by lia.
    replace (i - 1 - length pre)%nat with 0%nat by lia. reflexivity. }
  assert (Hb : nth_error path i = Some ib).
  { rewrite Hpath, nth_error_app2 by lia.
    replace (i - length pre)%nat with 1%nat by lia. reflexivity. }
  assert (Hc : nth_error path j = Some ic).
  { rewrite Hpath, nth_error_app2 by lia.
    replace (j - length pre)%nat with (S (S (length mid))) by lia.
    cbn [nth_error]. rewrite nth_error_app2 by lia.
    now rewrite Nat.sub_diag. }
  assert (Hh : nth_error path 0 = Some h).
  { unfold h. destruct path; [simpl in Hj; lia|reflexivity]. }
  assert (Hd : exists id tl,
             nth_error path ((j + 1) mod length path) = Some id
             /\ tail = row points id :: tl).
  { destruct post as [|x post'].
    - exists h, []. split; [|reflexivity].
      rewrite Hlen. simpl. rewrite Nat.add_0_r, Nat.Div0.mod_same.
      exact Hh.
    - exists x, (map (row points) post' ++ [row points h]).
      split; [|reflexivity].
      rewrite Nat.mod_small by (rewrite Hlen; simpl; lia).
      rewrite Hpath, nth_error_app2 by lia.
      replace (j + 1 - length pre)%nat with (S (S (length mid + 1))) by lia.
      cbn [nth_error]. rewrite nth_error_app2 by lia.
      replace (length mid + 1 - length mid)%nat with 1%nat by lia.
      reflexivity. }
  destruct Hd as [id [tl [Hid Htail]]].
  unfold try_swap in Hswap.
  rewrite (point_at_row path (i - 1) ia Hidx Ha) in Hswap.
  rewrite (point_at_row path i ib Hidx Hb) in Hswap.
  rewrite (point_at_row path j ic Hidx Hc) in Hswap.
  rewrite (point_at_row path _ id Hidx Hid) in Hswap.
  cbn [bind] in Hswap.
  match type of Hswap with
  | (if ?b then _ else _) = _ => destruct b eqn:Hlt
  end; inversion Hswap; subst st'; cbn [fst]; [|lra].
  change (@dltb R real_arith) with Rltb in Hlt.
  change (@dadd R real_arith) with Rplus in Hlt. unfold Rltb in Hlt.
  destruct (Rlt_dec _ _) as [Hless|]; [|discriminate]. clear Hlt Hswap.
  assert (Hnew : reverse_segment path i j
                 = pre ++ ia :: ic :: rev mid ++ ib :: post).
  { rewrite Hpath.
    replace (pre ++ ia :: ib :: mid ++ ic :: post)
      with ((pre ++ [ia]) ++ (ib :: mid ++ [ic]) ++ post)
      by (rewrite <- ?app_assoc; simpl; rewrite <- ?app_assoc; reflexivity).
    rewrite reverse_segment_app.
    - simpl. rewrite rev_app_distr. simpl.
      rewrite <- ?app_assoc. simpl. rewrite <- ?app_assoc. reflexivity.
    - rewrite length_app. simpl. lia.
    - rewrite length_app. simpl. rewrite length_app. simpl. lia. }
  assert (Hhd : hd 0%nat (reverse_segment path i j) = h).
  { unfold h. rewrite Hnew, Hpath. destruct pre; reflexivity. }
  assert (Hold : closed_walk (map (row points) path)
                 = walk (map (row points) pre
                         ++ row points ia :: row points ib
                         :: map (row points) mid
                         ++ row points ic :: row points id :: tl)).
  { unfold closed_walk.
    destruct (map (row points) path) as [|p ps] eqn:Hm.
    - rewrite Hpath, map_app in Hm. destruct (map (row points) pre);
        discriminate.
    - assert (Hp : p = row points h).
      { unfold h. destruct path; [discriminate|].
        simpl in Hm. inversion Hm. reflexivity. }
      rewrite <- Hm, Hp, Hpath. rewrite !map_app. simpl.
      rewrite map_app. simpl. rewrite <- Htail. unfold tail.
      rewrite <- ?app_assoc. simpl. rewrite <- ?app_assoc. reflexivity. }
  assert (Hnew' : closed_walk (map (row points) (reverse_segment path i j))
                  = walk (map (row points) pre
                          ++ row points ia :: row points ic
                          :: rev (map (row points) mid)
                          ++ row points ib :: row points id :: tl)).
  { unfold closed_walk.
    destruct (map (row points) (reverse_segment path i j)) as [|p ps] eqn:Hm.
    - rewrite Hnew, map_app in Hm. destruct (map (row points) pre);
        discriminate.
    - assert (Hp : p = row points h).
      { rewrite <- Hhd. destruct (reverse_segment path i j);
          [discriminate|]. simpl in Hm. inversion Hm. reflexivity. }
      rewrite <- Hm, Hp, Hnew. rewrite !map_app. simpl.
      rewrite map_app, map_rev. simpl. rewrite <- Htail. unfold tail.
      rewrite <- ?app_assoc. simpl. rewrite <- ?app_assoc. reflexivity. }
  rewrite Hold, Hnew', walk_reverse_segment. lra.
Qed.

Lemma sweep_closed_walk :
  forall path : list nat,
    indexes points path ->
    exists st', sweep points path = Ok st'
                /\ sweep_invariant points path st'
                /\ closed_walk (map (row points) (fst st'))
                   <= closed_walk (map (row points) path).
Proof.
  intros path Hidx. unfold sweep.
  destruct (fold_result_invariant _ _
              (try_swap points (length path))
              (fun st => sweep_invariant points path st
                         /\ closed_walk (map (row points) (fst st))
                            <= closed_walk (map (row points) path))
              (fun ij : nat * nat =>
                 (1 <= fst ij /\ fst ij < snd ij /\ snd ij < length path)%nat)
              (index_pairs (length path)) (path, false))
    as [st' [Hst' [Hinv Hle]]].
  - intros [p b] [i j] [Hinv Hle] Hij. simpl in Hij.
    destruct (try_swap_invariant points path (p, b) (i, j) Hidx Hinv Hij)
      as [st' [Hst' Hinv']].
    exists st'. split; [exact Hst'|]. split; [exact Hinv'|].
    destruct Hinv as [Hperm _]. cbn [fst] in Hperm, Hle.
    apply Rle_trans with (2 := Hle).
    rewrite <- (Permutation_length Hperm) in Hst', Hij.
    apply (try_swap_closed_walk p b i j st'); try tauto.
    now apply indexes_permutation with path.
  - apply index_pairs_bounds.
  - split; [split; reflexivity|]. cbn [fst]. lra.
  - exists st'. tauto.
Qed.

Lemma two_opt_loop_closed_walk :
  forall (budget : nat) (path : list nat) (improved : bool),
    indexes points path ->
    exists out, two_opt_loop budget points path improved = Ok out
                /\ indexes points out
                /\ closed_walk (map (row points) out)
                   <= closed_walk (map (row points) path).
Proof.
  induction budget as [|budget IH]; intros path improved Hidx; simpl.
  - exists path. split; [reflexivity|]. split; [exact Hidx|lra].
  - destruct improved.
    + destruct (sweep_closed_walk path Hidx)
        as [[path' improved'] [Hsweep [[Hperm _] Hle]]].
      cbn [fst] in Hperm, Hle. rewrite Hsweep. cbn [bind].
      destruct (IH path' improved') as [out [Hout [Hio Hlo]]].
      { now apply indexes_permutation with path. }
      exists out. split; [exact Hout|]. split; [exact Hio|lra].
    + exists path. split; [reflexivity|]. split; [exact Hidx|lra].
Qed.
End TwoOptLengths.

(** C2, as amended.  Read with exact real arithmetic, for every tour whose
    entries are rows of the point set and every budget, [two_opt] returns a
    tour whose closed length (the consecutive distances and the edge from
    the last point back to the first) is at most that of the input tour. *)
Theorem two_opt_closed_length_nonincreasing :
  forall (points : list (R * R)) (path : list nat) (K : Z),
    indexes points path ->
    exists (out : list nat) (len_in len_out : R),
      two_opt points path K = Ok out
      /\ cycle_length points path = Ok len_in
      /\ cycle_length points out = Ok len_out
      /\ (len_out <= len_in)%R.
Proof.
  intros points path K Hidx.
  destruct (two_opt_loop_closed_walk points (Z.to_nat K) path true Hidx)
    as [out [Hout [Hio Hle]]].
  exists out, (closed_walk (map (row points) path)),
    (closed_walk (map (row points) out)).
  split; [exact Hout|]. split; [|split; [|exact Hle]].
  - now apply cycle_length_closed_walk.
  - now apply cycle_length_closed_walk.
Qed.

(** The staircase over the reals: the first sweep compares three pairs and
    reverses the sub-path [2..3]; the second changes nothing. *)
Lemma sqrt_between :
  forall x a b : R,
    (0 <= a)%R -> (0 <= b)%R -> (a * a < x)%R -> (x < b * b)%R ->
    (a < sqrt x < b)%R.
Proof.
  intros x a b Ha Hb Hax Hxb. split.
  - rewrite <- (sqrt_square a Ha). apply sqrt_lt_1_alt. nra.
  - rewrite <- (sqrt_square b Hb). apply sqrt_lt_1_alt. nra.
Qed.

Lemma sqrt_2_bounds : (7 / 5 < sqrt 2 < 3 / 2)%R.
Proof. apply sqrt_between; lra. Qed.

Lemma sqrt_5_bounds : (11 / 5 < sqrt 5 < 23 / 10)%R.
Proof. apply sqrt_between; lra. Qed.

Ltac norm_sqrt :=
  repeat match goal with
         | |- context [sqrt ?e] =>
             lazymatch e with IZR _ => fail | _ => idtac end;
             first [ replace e with 1%R by lra
                   | replace e with 2%R by lra
                   | replace e with 5%R by lra ]
         end;
  rewrite ?sqrt_1.

Ltac swap_step :=
  unfold try_swap, point_at, index, real_staircase;
  repeat match goal with
         | |- context [(?a mod ?b)%nat] =>
             let v := eval vm_compute in (a mod b)%nat in
             change (a mod b)%nat with v
         end;
  cbn [nth_error Nat.sub Nat.add bind];
  change (@dltb R real_arith) with Rltb; unfold Rltb, euclid;
  cbn [fst snd dadd dsub dmul dsqrt real_arith];
  norm_sqrt;
  pose proof sqrt_2_bounds; pose proof sqrt_5_bounds;
  match goal with
  | |- context [Rlt_dec ?a ?b] => destruct (Rlt_dec a b)
  end; try reflexivity; try lra.

Lemma real_staircase_sweep_1 :
  sweep real_staircase [0; 1; 2; 3] = Ok ([0; 1; 3; 2], true).
Proof.
  unfold sweep.
  change (index_pairs (length [0; 1; 2; 3])) with [(1, 2); (1, 3); (2, 3)].
  change (length [0; 1; 2; 3]) with 4.
  cbn [fold_result].
  replace (try_swap real_staircase 4 ([0; 1; 2; 3], false) (1, 2))
    with (Ok (A := list nat * bool) ([0; 1; 2; 3], false))
    by (symmetry; swap_step).
  cbn [bind].
  replace (try_swap real_staircase 4 ([0; 1; 2; 3], false) (1, 3))
    with (Ok (A := list nat * bool) ([0; 1; 2; 3], false))
    by (symmetry; swap_step).
  cbn [bind].
  replace (try_swap real_staircase 4 ([0; 1; 2; 3], false) (2, 3))
    with (Ok (A := list nat * bool) ([0; 1; 3; 2], true))
    by (symmetry; swap_step).
  reflexivity.
Qed.

Lemma real_staircase_sweep_2 :
  sweep real_staircase [0; 1; 3; 2] = Ok ([0; 1; 3; 2], false).
Proof.
  unfold sweep.
  change (index_pairs (length [0; 1; 3; 2])) with [(1, 2); (1, 3); (2, 3)].
  change (length [0; 1; 3; 2]) with 4.
  cbn [fold_result].
  replace (try_swap real_staircase 4 ([0; 1; 3; 2], false) (1, 2))
    with (Ok (A := list nat * bool) ([0; 1; 3; 2], false))
    by (symmetry; swap_step).
  cbn [bind].
  replace (try_swap real_staircase 4 ([0; 1; 3; 2], false) (1, 3))
    with (Ok (A := list nat * bool) ([0; 1; 3; 2], false))
    by (symmetry; swap_step).
  cbn [bind].
  replace (try_swap real_staircase 4 ([0; 1; 3; 2], false) (2, 3))
    with (Ok (A := list nat * bool) ([0; 1; 3; 2], false))
    by (symmetry; swap_step).
  reflexivity.
Qed.

Lemma two_opt_loop_step :
  forall (D : Type) (A : Arith D) (budget : nat) (points : list (D * D))
         (path path' : list nat) (improved' : bool),
    sweep points path = Ok (path', improved') ->
    two_opt_loop (S budget) points path true
    = two_opt_loop budget points path' improved'.
Proof.
  intros D A budget points path path' improved' Hsweep.
  cbn [two_opt_loop]. rewrite Hsweep. reflexivity.
Qed.

Lemma real_staircase_two_opt :
  two_opt real_staircase [0; 1; 2; 3] 50 = Ok [0; 1; 3; 2].
Proof.
  unfold two_opt.
  replace (Z.to_nat 50) with (S (S 48)) by reflexivity.
  rewrite (two_opt_loop_step _ _ _ _ _ _ _ real_staircase_sweep_1).
  rewrite (two_opt_loop_step _ _ _ _ _ _ _ real_staircase_sweep_2).
  reflexivity.
Qed.

(** The theorem at the staircase over the reals, with the default budget:
    [two_opt] reverses the sub-path [2..3] of the tour [[0; 1; 2; 3]], and
    the closed length of [[0; 1; 3; 2]] is at most that of the input. *)
Lemma two_opt_closed_length_nonincreasing_witness :
  indexes real_staircase [0; 1; 2; 3]
  /\ two_opt real_staircase [0; 1; 2; 3] 50 = Ok [0; 1; 3; 2]
  /\ exists len_in len_out : R,
      cycle_length real_staircase [0; 1; 2; 3] = Ok len_in
      /\ cycle_length real_staircase [0; 1; 3; 2] = Ok len_out
      /\ (len_out <= len_in)%R.
Proof.
  assert (Hidx : indexes real_staircase [0; 1; 2; 3]).
  { unfold indexes. repeat constructor. }
  split; [exact Hidx|]. split; [exact real_staircase_two_opt|].
  destruct (two_opt_closed_length_nonincreasing
              real_staircase [0; 1; 2; 3] 50 Hidx)
    as [out [len_in [len_out [Hout [Hin [Hlo Hle]]]]]].
  rewrite real_staircase_two_opt in Hout. inversion Hout; subst out.
  exists len_in, len_out. split; [exact Hin|]. split; [exact Hlo|exact Hle].
Defined.

(** C2 as stated fails.  In binary64, on the four points of the staircase,
    the nearest-neighbour tour [[0; 1; 2; 3]] has open length 3; [two_opt]
    reverses the sub-path [2..3], because that shortens the closed tour, and
    returns [[0; 1; 3; 2]], whose open length is greater than 3.  And the
    exact reading is needed for the closed length: on four points with a
    near tie, the binary64 test accepts the reversal of [1..2], and the
    closed length of the result, summed in binary64, is greater than that
    of the input. *)
Lemma two_opt_lengthens_open_path :
  (nearest_neighbor_tsp staircase = Some (Ok [0; 1; 2; 3])
   /\ two_opt staircase [0; 1; 2; 3] 50 = Ok [0; 1; 3; 2]
   /\ path_length staircase [0; 1; 2; 3] = Ok 3%float
   /\ exists len : float,
       path_length staircase [0; 1; 3; 2] = Ok len
       /\ PrimFloat.ltb 3 len = true)
  /\ (two_opt near_tie [0; 1; 2; 3] 50 = Ok [0; 2; 1; 3]
      /\ exists len_in len_out : float,
          cycle_length near_tie [0; 1; 2; 3] = Ok len_in
          /\ cycle_length near_tie [0; 2; 1; 3] = Ok len_out
          /\ PrimFloat.ltb len_in len_out = true).
Proof.
  split.
  - split; [vm_compute; reflexivity|].
    split; [vm_compute; reflexivity|].
    split; [vm_compute; reflexivity|].
    eexists. split; vm_compute; reflexivity.
  - split; [vm_compute; reflexivity|].
    eexists. eexists. split; [vm_compute; reflexivity|].
    split; vm_compute; reflexivity.
Qed.

(** ** PathAssembler *)

Lemma segments_of_length :
  forall (D : Type) (ps : list (D * D)),
    length (segments_of ps) = length ps - 1.
Proof.
  induction ps as [|p [|q ps] IH]; try reflexivity.
  cbn [segments_of length] in *. rewrite IH. lia.
Qed.

(** C8: the code divides by the greatest emitted iteration value without
    looking at it.  A run of [main] on a configuration that section 6 of the
    spec accepts, with [MAX_ITER = 1], the ['random'] policy and colours by
    iteration: every count of the field is 0, so is the greatest emitted
    value, and both attributes handed to the renderer are [0/0], for which
    neither [0 <= a] nor [a <= 1] holds.  The same happens on the staircase
    with four iteration values 0. *)
Lemma flat_iterations_give_nan_attributes :
  valid_config one_iter_config = true
  /\ (exists segs colors,
         main one_iter_config
              ([FieldStage; ExtractStage; TourStage; PlotStage],
               Some (Ok (segs, colors)))
         /\ length colors = 2
         /\ forallb (fun a => negb (PrimFloat.leb 0 a)
                              && negb (PrimFloat.leb a 1)) colors = true)
  /\ match create_gradient_line_plot staircase [0; 1; 3; 2]
                                     [0%Z; 0%Z; 0%Z; 0%Z] Iteration with
     | Ok (segs, colors) =>
         length colors = 3
         /\ forallb (fun a => negb (PrimFloat.leb 0 a)
                              && negb (PrimFloat.leb a 1)) colors = true
     | Raise _ => False
     end.
Proof.
  split; [vm_compute; reflexivity|]. split.
  - exists [((0, 0), (1, 0)); ((1, 0), (1, 1))]%float, [nan; nan]%float.
    split; [|split; vm_compute; reflexivity].
    unfold main.
    assert (Hfield : calculate_mandelbrot
                       (MANDELBROT_WIDTH one_iter_config)
                       (MANDELBROT_HEIGHT one_iter_config)
                       (X_MIN one_iter_config) (X_MAX one_iter_config)
                       (Y_MIN one_iter_config) (Y_MAX one_iter_config)
                       (MAX_ITER one_iter_config)
                     = Ok ([[0; 0]; [0; 0]]%Z,
                           [[0; 1]; [0; 1]]%float,
                           [[0; 0]; [1; 1]]%float))
      by (vm_compute; reflexivity).
    rewrite Hfield.
    exists [], (Ok ([(0, 0); (1, 1); (1, 0)]%float, [0%Z; 0%Z; 0%Z])).
    split.
    + exists (Ok [(0, 0); (1, 1); (0, 1)]). split; [|vm_compute; reflexivity].
      cbn [fst]. unfold select_cells. cbn [SAMPLE_METHOD one_iter_config].
      exists (Ok [(0, 0); (1, 1); (0, 1)]). split; [|reflexivity].
      exists (Ok [0; 1; 0]). split.
      * unfold randint. simpl. exists [0; 1; 0]. split; [reflexivity|].
        split; [reflexivity|]. repeat constructor; simpl; lia.
      * exists (Ok [0; 1; 1]). split; [|reflexivity].
        unfold randint. simpl. exists [0; 1; 1]. split; [reflexivity|].
        split; [reflexivity|]. repeat constructor; simpl; lia.
    + vm_compute. reflexivity.
  - vm_compute. split; reflexivity.
Qed.

(** ** BoundaryPointExtractor *)

Lemma take_at_incl :
  forall (A : Type) (a : list A) (idx : list nat) (l : list A),
    take_at a idx = Ok l -> length l = length idx /\ incl l a.
Proof.
  intros A a. induction idx as [|i idx IH]; intros l Hl; simpl in Hl.
  - inversion Hl. split; [reflexivity|]. intros x [].
  - destruct (nth_error a i) as [v|] eqn:Hv; [|discriminate].
    destruct (take_at a idx) as [rest|] eqn:Hrest; [|discriminate].
    simpl in Hl. inversion Hl; subst.
    destruct (IH rest eq_refl) as [Hlen Hincl]. split; [simpl; lia|].
    intros x [<-|Hx]; [now apply nth_error_In with i|now apply Hincl].
Qed.

Lemma take_at_NoDup :
  forall (A : Type) (a : list A) (idx : list nat) (l : list A),
    NoDup a -> NoDup idx -> take_at a idx = Ok l -> NoDup l.
Proof.
  intros A a idx l Ha Hidx. revert l.
  induction Hidx as [|i idx Hi Hidx IH]; intros l Hl; simpl in Hl.
  - inversion Hl. constructor.
  - destruct (nth_error a i) as [v|] eqn:Hv; [|discriminate].
    destruct (take_at a idx) as [rest|] eqn:Hrest; [|discriminate].
    simpl in Hl. inversion Hl; subst. constructor; [|now apply IH].
    intros Hin. apply Hi. clear IH Hl Hi Hidx.
    revert rest Hrest Hin. induction idx as [|k idx IHk]; intros rest Hrest Hin;
      simpl in Hrest.
    + inversion Hrest; subst. contradiction.
    + destruct (nth_error a k) as [w|] eqn:Hw; [|discriminate].
      destruct (take_at a idx) as [rest'|] eqn:Hrest'; [|discriminate].
      simpl in Hrest. inversion Hrest; subst. destruct Hin as [->|Hin].
      * left. rewrite NoDup_nth_error in Ha. apply Ha.
        -- apply nth_error_Some. congruence.
        -- congruence.
      * right. now apply (IHk rest').
Qed.

Lemma take_at_total :
  forall (A : Type) (a : list A) (idx : list nat),
    incl idx (seq 0 (length a)) -> exists l, take_at a idx = Ok l.
Proof.
  intros A a idx Hincl.
  destruct a as [|d a'] eqn:Ha.
  - destruct idx as [|i idx]; [now exists []|].
    exfalso. apply (Hincl i). now left.
  - rewrite <- Ha in *. eexists. apply (take_at_map _ d).
    apply Forall_forall. intros i Hi. apply Hincl in Hi.
    apply in_seq in Hi. lia.
Qed.

Lemma map_injective_NoDup :
  forall (A B : Type) (f : A -> B) (l : list A),
    (forall x y, f x = f y -> x = y) -> NoDup l -> NoDup (map f l).
Proof.
  intros A B f l Hinj Hnd. induction Hnd as [|x l Hx Hnd IH]; simpl.
  - constructor.
  - constructor; [|exact IH]. intros Hin. apply in_map_iff in Hin.
    destruct Hin as [y [Hy Hin]]. apply Hinj in Hy. subst. contradiction.
Qed.

(** The cells of one row of a mask, from column [start] on. *)
Lemma row_cells_NoDup :
  forall (line : list bool) (start : nat),
    NoDup (map fst (filter (fun kb : nat * bool => snd kb)
                           (combine (seq start (length line)) line)))
    /\ Forall (fun k => start <= k)
              (map fst (filter (fun kb : nat * bool => snd kb)
                               (combine (seq start (length line)) line))).
Proof.
  induction line as [|b line IH]; intros start; simpl.
  - split; constructor.
  - destruct (IH (S start)) as [Hnd Hge].
    assert (Hge' : Forall (fun k => start <= k)
                     (map fst (filter (fun kb : nat * bool => snd kb)
                                (combine (seq (S start) (length line)) line)))).
    { apply Forall_impl with (2 := Hge). intros k Hk. lia. }
    destruct b; simpl; [|split; assumption].
    split.
    + constructor; [|exact Hnd]. intros Hin.
      rewrite Forall_forall in Hge. apply Hge in Hin. lia.
    + constructor; [lia|exact Hge'].
Qed.

Lemma where_true_from_NoDup :
  forall (mask : grid bool) (start : nat),
    NoDup (concat (map (fun rw : nat * list bool =>
                          map (fun kb : nat * bool => (fst rw, fst kb))
                              (filter (fun kb : nat * bool => snd kb)
                                      (combine (seq 0 (length (snd rw)))
                                               (snd rw))))
                       (combine (seq start (length mask)) mask)))
    /\ Forall (fun c : nat * nat => start <= fst c)
              (concat (map (fun rw : nat * list bool =>
                              map (fun kb : nat * bool => (fst rw, fst kb))
                                  (filter (fun kb : nat * bool => snd kb)
                                          (combine (seq 0 (length (snd rw)))
                                                   (snd rw))))
                           (combine (seq start (length mask)) mask))).
Proof.
  induction mask as [|line mask IH]; intros start; simpl.
  - split; constructor.
  - destruct (IH (S start)) as [Hnd Hge]. split.
    + apply NoDup_app; [| exact Hnd |].
      * destruct (row_cells_NoDup line 0) as [Hrow _].
        rewrite <- (map_map fst (fun k => (start, k))).
        apply map_injective_NoDup; [|exact Hrow].
        intros k k' Heq. now inversion Heq.
      * intros c Hc Hc'. rewrite Forall_forall in Hge. apply Hge in Hc'.
        apply in_map_iff in Hc. destruct Hc as [kb [<- _]]. simpl in Hc'. lia.
    + apply Forall_app. split.
      * apply Forall_forall. intros c Hc. apply in_map_iff in Hc.
        destruct Hc as [kb [<- _]]. simpl. lia.
      * apply Forall_impl with (2 := Hge). intros c Hc. lia.
Qed.

(** [np.where] lists every cell at most once. *)
Lemma where_true_NoDup : forall mask : grid bool, NoDup (where_true mask).
Proof.
  intros mask. apply (where_true_from_NoDup mask 0).
Qed.

(** Unravelling a flat index is injective on a grid with columns. *)
Lemma unravel_NoDup :
  forall (w : nat) (flat : list nat),
    0 < w -> NoDup flat ->
    NoDup (map (fun i => (i / w, i mod w)) flat).
Proof.
  intros w flat Hw Hnd. apply map_injective_NoDup; [|exact Hnd].
  intros i i' Heq. inversion Heq as [[Hq Hr]].
  rewrite (Nat.div_mod_eq i w), (Nat.div_mod_eq i' w). now rewrite Hq, Hr.
Qed.

Lemma indexed_filter_NoDup :
  forall (B : Type) (f : nat * B -> bool) (l : list B) (start : nat),
    NoDup (map fst (filter f (combine (seq start (length l)) l)))
    /\ Forall (fun k => start <= k)
              (map fst (filter f (combine (seq start (length l)) l))).
Proof.
  intros B f. induction l as [|b l IH]; intros start; simpl.
  - split; constructor.
  - destruct (IH (S start)) as [Hnd Hge].
    assert (Hge' : Forall (fun k => start <= k)
                     (map fst (filter f (combine (seq (S start) (length l)) l)))).
    { apply Forall_impl with (2 := Hge). intros k Hk. lia. }
    destruct (f (start, b)); simpl; [|split; assumption].
    split.
    + constructor; [|exact Hnd]. intros Hin.
      rewrite Forall_forall in Hge. apply Hge in Hin. lia.
    + constructor; [lia|exact Hge'].
Qed.

Section ExtractionFacts.
Context {D : Type} `{Arith D}.

Lemma support_NoDup : forall p : list D, NoDup (support p).
Proof.
  intros p. unfold support. apply (indexed_filter_NoDup _ _ p 0).
Qed.

Lemma sample_outcome_ok :
  forall (size : Z) (replace : bool) (population idx : list nat),
    sample_outcome size replace population (Ok idx) ->
    Z.of_nat (length idx) = size /\ incl idx population
    /\ (replace = false -> NoDup idx).
Proof.
  intros size replace population idx Hs. unfold sample_outcome in Hs.
  match type of Hs with
  | (if ?c then _ else _) => destruct c
  end; [discriminate|].
  destruct Hs as [idx' [Heq Hrest]]. inversion Heq; subst. exact Hrest.
Qed.

Lemma sample_outcome_raise :
  forall (size : Z) (replace : bool) (population : list nat) (e : exn),
    sample_outcome size replace population (Raise e) -> e = ValueError.
Proof.
  intros size replace population e Hs. unfold sample_outcome in Hs.
  match type of Hs with
  | (if ?c then _ else _) => destruct c
  end; [now inversion Hs|].
  destruct Hs as [idx' [Heq _]]. discriminate.
Qed.

(** Without replacement, a sample larger than the population is refused. *)
Lemma sample_outcome_short :
  forall (size : Z) (population : list nat) (r : result (list nat)),
    (Z.of_nat (length population) < size)%Z ->
    sample_outcome size false population r -> r = Raise ValueError.
Proof.
  intros size population r Hshort Hs. unfold sample_outcome in Hs.
  replace (Z.of_nat (length population) <? size)%Z with true in Hs
    by (symmetry; apply Z.ltb_lt; exact Hshort).
  simpl in Hs. rewrite orb_true_r in Hs. simpl in Hs. exact Hs.
Qed.

(** Without replacement, any sample size up to the population can come out. *)
Lemma sample_outcome_exists :
  forall (size : Z) (population : list nat),
    (0 <= size <= Z.of_nat (length population))%Z -> NoDup population ->
    sample_outcome size false population
                   (Ok (firstn (Z.to_nat size) population)).
Proof.
  intros size population Hsize Hnd. unfold sample_outcome.
  replace (size <? 0)%Z with false by (symmetry; apply Z.ltb_ge; lia).
  replace (Z.of_nat (length population) <? size)%Z with false
    by (symmetry; apply Z.ltb_ge; lia).
  simpl.
  replace ((length population =? 0) && (0 <? size)%Z) with false.
  - exists (firstn (Z.to_nat size) population). split; [reflexivity|].
    split; [rewrite length_firstn; lia|]. split.
    + intros x Hx.
      rewrite <- (firstn_skipn (Z.to_nat size) population).
      apply in_or_app. now left.
    + intros _. rewrite <- (firstn_skipn (Z.to_nat size) population) in Hnd.
      now apply NoDup_app_remove_r in Hnd.
  - symmetry. apply andb_false_iff.
    destruct (Nat.eqb_spec (length population) 0) as [E|E]; [|now left].
    right. apply Z.ltb_ge. lia.
Qed.

Lemma random_choice_ok :
  forall (a : nat) (size : Z) (replace : bool) (p : option (list D))
         (idx : list nat),
    random_choice a size replace p (Ok idx) ->
    Z.of_nat (length idx) = size
    /\ (replace = false -> NoDup idx)
    /\ incl idx (match p with
                 | None => seq 0 a
                 | Some pr => support pr
                 end).
Proof.
  intros a size replace p idx Hc. unfold random_choice in Hc.
  destruct p as [pr|].
  - destruct (_ || _); [discriminate|].
    apply sample_outcome_ok in Hc. tauto.
  - apply sample_outcome_ok in Hc. tauto.
Qed.

Lemma random_choice_raise :
  forall (a : nat) (size : Z) (replace : bool) (p : option (list D)) (e : exn),
    random_choice a size replace p (Raise e) -> e = ValueError.
Proof.
  intros a size replace p e Hc. unfold random_choice in Hc.
  destruct p as [pr|].
  - destruct (_ || _); [now inversion Hc|].
    now apply sample_outcome_raise in Hc.
  - now apply sample_outcome_raise in Hc.
Qed.

Lemma gradient_magnitude_shape :
  forall (M : grid Z) (g : grid D),
    gradient_magnitude M = Ok g -> 2 <= rows M /\ 2 <= cols M.
Proof.
  intros M g Hg. unfold gradient_magnitude, gradient in Hg.
  assert (Hr : rows (gmap (@of_Z D _) M) = rows M)
    by (unfold rows, gmap; apply length_map).
  assert (Hc : cols (gmap (@of_Z D _) M) = cols M)
    by (unfold cols, gmap; destruct M; [reflexivity|apply length_map]).
  rewrite Hr, Hc in Hg.
  destruct (Nat.ltb_spec (rows M) 2); [discriminate|].
  destruct (Nat.ltb_spec (cols M) 2); [discriminate|]. lia.
Qed.

(** The gradient-weighted policy draws without replacement. *)
Lemma gradient_policy_ok :
  forall (M : grid Z) (num_points : Z) (cells : list (nat * nat)),
    gradient_policy M num_points (Ok cells) ->
    exists (g : grid D) (flat_indices : list nat),
      gradient_magnitude M = Ok g
      /\ cells = map (unravel M) flat_indices
      /\ incl flat_indices (support (gradient_weights g))
      /\ NoDup flat_indices
      /\ NoDup cells
      /\ Z.of_nat (length cells) = num_points.
Proof.
  intros M num_points cells Hp. unfold gradient_policy in Hp.
  destruct (gradient_magnitude M) as [g|e] eqn:Hg; [|discriminate].
  cbv zeta in Hp. destruct Hp as [a [Hchoice Hk]].
  destruct a as [flat|e]; [|discriminate].
  unfold rret in Hk. inversion Hk as [Hcells].
  apply random_choice_ok in Hchoice.
  destruct Hchoice as [Hlen [Hnd Hincl]].
  exists g, flat. split; [reflexivity|]. split; [reflexivity|].
  split; [exact Hincl|]. split; [now apply Hnd|]. split.
  - apply unravel_NoDup; [|now apply Hnd].
    destruct (gradient_magnitude_shape M g Hg). lia.
  - now rewrite length_map.
Qed.

Lemma gradient_policy_raise :
  forall (M : grid Z) (num_points : Z) (e : exn),
    gradient_policy M num_points (Raise e) -> e = ValueError.
Proof.
  intros M num_points e Hp. unfold gradient_policy in Hp.
  destruct (gradient_magnitude M) as [g|e'] eqn:Hg.
  - cbv zeta in Hp. destruct Hp as [a [Hchoice Hk]].
    destruct a as [flat|e'].
    + unfold rret in Hk. discriminate.
    + inversion Hk; subst. now apply random_choice_raise in Hchoice.
  - inversion Hp; subst. unfold gradient_magnitude in Hg.
    destruct (gradient (gmap of_Z M)) as [[gy gx]|e''] eqn:Hgr;
      [discriminate|].
    simpl in Hg. inversion Hg; subst. unfold gradient in Hgr.
    destruct (_ || _); [now inversion Hgr|discriminate].
Qed.

(** With fewer positive weights than requested points the policy fails. *)
Lemma gradient_policy_short :
  forall (M : grid Z) (num_points : Z) (g : grid D)
         (r : result (list (nat * nat))),
    gradient_magnitude M = Ok g ->
    (Z.of_nat (length (support (gradient_weights g))) < num_points)%Z ->
    gradient_policy M num_points r -> r = Raise ValueError.
Proof.
  intros M num_points g r Hg Hshort Hp. unfold gradient_policy in Hp.
  rewrite Hg in Hp. cbv zeta in Hp. destruct Hp as [a [Hchoice Hk]].
  unfold random_choice in Hchoice.
  fold (gradient_weights g) in Hchoice.
  destruct (_ || _).
  - subst a. exact Hk.
  - apply sample_outcome_short in Hchoice; [|exact Hshort].
    subst a. exact Hk.
Qed.

(** With valid weights and enough positive ones the policy can succeed,
    for one with the first positive cells. *)
Lemma gradient_policy_exists :
  forall (M : grid Z) (num_points : Z) (g : grid D),
    gradient_magnitude M = Ok g ->
    forallb (dleb (of_Z 0)) (gradient_weights g) = true ->
    (0 <= num_points <= Z.of_nat (length (support (gradient_weights g))))%Z ->
    gradient_policy M num_points
      (Ok (map (unravel M)
               (firstn (Z.to_nat num_points) (support (gradient_weights g))))).
Proof.
  intros M num_points g Hg Hvalid Hsize. unfold gradient_policy.
  rewrite Hg. cbv zeta. fold (gradient_weights g).
  exists (Ok (firstn (Z.to_nat num_points) (support (gradient_weights g)))).
  split; [|reflexivity].
  unfold random_choice. rewrite Nat.eqb_refl, Hvalid. simpl.
  apply sample_outcome_exists; [exact Hsize|].
  apply support_NoDup.
Qed.
End ExtractionFacts.

Section BoundaryFacts.
Context {D : Type} `{Arith D}.

Lemma select_cells_gradient :
  forall (M : grid Z) (num_points : Z) (threshold : D)
         (out : list notice * result (list (nat * nat))),
    select_cells M num_points Gradient threshold out
    <-> fst out = [] /\ gradient_policy M num_points (snd out).
Proof.
  intros M num_points threshold [notes r]. unfold select_cells. simpl. split.
  - intros [r' [Hp Heq]]. inversion Heq; subst. split; [reflexivity|exact Hp].
  - intros [-> Hp]. exists r. split; [exact Hp|reflexivity].
Qed.

(** More candidates than requested points: a sample of them, each once. *)
Lemma boundary_many :
  forall (M : grid Z) (num_points : Z) (threshold : D) (g : grid D),
    (0 <= num_points)%Z ->
    gradient_magnitude M = Ok g ->
    (num_points < Z.of_nat (length (boundary_candidates g threshold)))%Z ->
    (exists cells,
        select_cells M num_points Boundary threshold ([], Ok cells))
    /\ forall out,
        select_cells M num_points Boundary threshold out ->
        exists cells,
          out = ([], Ok cells)
          /\ Z.of_nat (length cells) = num_points
          /\ NoDup cells
          /\ incl cells (boundary_candidates g threshold).
Proof.
  intros M num_points threshold g Hn Hg Hmany.
  unfold select_cells. rewrite Hg. cbv zeta.
  fold (boundary_candidates g threshold).
  set (cand := boundary_candidates g threshold) in *.
  destruct (Nat.eqb_spec (length cand) 0) as [E|E]; [lia|].
  destruct (Z.ltb_spec num_points (Z.of_nat (length cand))) as [_|]; [|lia].
  split.
  - destruct (take_at_total _ cand (firstn (Z.to_nat num_points)
                                         (seq 0 (length cand))))
      as [cells Hcells].
    { intros x Hx.
      rewrite <- (firstn_skipn (Z.to_nat num_points) (seq 0 (length cand))).
      apply in_or_app. now left. }
    exists cells, (Ok cells). split; [|reflexivity].
    exists (Ok (firstn (Z.to_nat num_points) (seq 0 (length cand)))).
    split; [|unfold rret; now rewrite Hcells].
    unfold random_choice. apply sample_outcome_exists.
    + rewrite length_seq. lia.
    + apply seq_NoDup.
  - intros out [r [[a [Hchoice Hk]] Hout]]. subst out.
    destruct a as [idx|e].
    + apply random_choice_ok in Hchoice.
      destruct Hchoice as [Hlen [Hnd Hincl]]. unfold rret in Hk.
      destruct (take_at_total _ cand idx Hincl) as [cells Hcells].
      rewrite Hcells in Hk. subst r. exists cells. split; [reflexivity|].
      destruct (take_at_incl _ cand idx cells Hcells) as [Hl Hi].
      split; [now rewrite Hl|]. split; [|exact Hi].
      apply (take_at_NoDup _ cand idx cells); [|now apply Hnd|exact Hcells].
      apply where_true_NoDup.
    + exfalso. unfold random_choice, sample_outcome in Hchoice.
      replace (num_points <? 0)%Z with false in Hchoice
        by (symmetry; apply Z.ltb_ge; lia).
      rewrite length_seq in Hchoice.
      replace (Z.of_nat (length cand) <? num_points)%Z with false in Hchoice
        by (symmetry; apply Z.ltb_ge; lia).
      replace (length cand =? 0) with false in Hchoice
        by (symmetry; now apply Nat.eqb_neq).
      simpl in Hchoice. destruct Hchoice as [idx [Heq _]]. discriminate.
Qed.

(** Some candidates, but no more than requested: all of them, with the
    printed count. *)
Lemma boundary_few :
  forall (M : grid Z) (num_points : Z) (threshold : D) (g : grid D),
    gradient_magnitude M = Ok g ->
    0 < length (boundary_candidates g threshold) ->
    (Z.of_nat (length (boundary_candidates g threshold)) <= num_points)%Z ->
    forall out,
      select_cells M num_points Boundary threshold out
      <-> out = ([OnlyFound (length (boundary_candidates g threshold))],
                 Ok (boundary_candidates g threshold)).
Proof.
  intros M num_points threshold g Hg Hsome Hfew out.
  unfold select_cells. rewrite Hg. cbv zeta.
  fold (boundary_candidates g threshold).
  set (cand := boundary_candidates g threshold) in *.
  destruct (Nat.eqb_spec (length cand) 0) as [E|E]; [lia|].
  destruct (Z.ltb_spec num_points (Z.of_nat (length cand))) as [|_]; [lia|].
  reflexivity.
Qed.

(** No candidate: the outcomes of the gradient-weighted policy, with the
    printed fallback. *)
Lemma boundary_none :
  forall (M : grid Z) (num_points : Z) (threshold : D) (g : grid D),
    gradient_magnitude M = Ok g ->
    length (boundary_candidates g threshold) = 0 ->
    forall out,
      select_cells M num_points Boundary threshold out
      <-> exists r,
          select_cells M num_points Gradient threshold ([], r)
          /\ out = ([FallingBackToGradient], r).
Proof.
  intros M num_points threshold g Hg Hnone out.
  unfold select_cells at 1. rewrite Hg. cbv zeta.
  fold (boundary_candidates g threshold). rewrite Hnone. simpl.
  split.
  - intros [r [Hp Hout]]. exists r. split; [|exact Hout].
    exists r. split; [exact Hp|reflexivity].
  - intros [r [[r0 [Hp Heq]] Hout]]. inversion Heq; subst r0.
    exists r. split; assumption.
Qed.
End BoundaryFacts.

(** The corner field in binary64. *)
Lemma corner_field_magnitudes :
  gradient_magnitude (D := float) corner_field = Ok corner_magnitudes.
Proof. vm_compute. reflexivity. Qed.

Lemma corner_field_two_cells :
  select_cells (D := float) corner_field 2 Gradient 0%float
               ([], Ok [(0, 1); (1, 0)]).
Proof.
  apply select_cells_gradient. split; [reflexivity|]. cbn [snd].
  assert (E : map (unravel corner_field)
                  (firstn (Z.to_nat 2)
                          (support (gradient_weights corner_magnitudes)))
              = [(0, 1); (1, 0)]) by (vm_compute; reflexivity).
  rewrite <- E.
  apply (gradient_policy_exists corner_field 2 corner_magnitudes).
  - exact corner_field_magnitudes.
  - vm_compute. reflexivity.
  - vm_compute. split; discriminate.
Qed.

(** C4, as amended.  Under the gradient-weighted policy the extractor
    divides the gradient magnitudes by their sum and draws the flat cell
    indices without replacement among the cells of positive weight: every
    returned cell index appears once, and there are exactly [N] of them. *)
Theorem gradient_policy_draws_without_replacement :
  forall (D : Type) (A : Arith D) (M : grid Z) (num_points : Z) (threshold : D)
         (notes : list notice) (cells : list (nat * nat)),
    select_cells M num_points Gradient threshold (notes, Ok cells) ->
    notes = []
    /\ exists (g : grid D) (flat_indices : list nat),
        gradient_magnitude M = Ok g
        /\ cells = map (unravel M) flat_indices
        /\ incl flat_indices (support (gradient_weights g))
        /\ NoDup flat_indices
        /\ NoDup cells
        /\ Z.of_nat (length cells) = num_points.
Proof.
  intros D A M num_points threshold notes cells Hsel.
  apply select_cells_gradient in Hsel. destruct Hsel as [Hnotes Hp].
  split; [exact Hnotes|]. now apply gradient_policy_ok.
Qed.

(** The theorem at the corner field, in binary64, for two points. *)
Lemma gradient_policy_draws_without_replacement_witness :
  select_cells (D := float) corner_field 2 Gradient 0%float
               ([], Ok [(0, 1); (1, 0)])
  /\ NoDup [(0, 1); (1, 0)]
  /\ Z.of_nat (length [(0, 1); (1, 0)]) = 2%Z.
Proof.
  split; [exact corner_field_two_cells|].
  destruct (gradient_policy_draws_without_replacement
              float float_arith corner_field 2 0%float [] [(0, 1); (1, 0)]
              corner_field_two_cells)
    as [_ [g [flat [_ [_ [_ [_ [Hnd Hlen]]]]]]]].
  split; [exact Hnd|exact Hlen].
Defined.

(** C4 as stated fails.  On the corner field, in binary64, the policy can
    return two cells, and no outcome of it holds a cell twice. *)
Lemma gradient_policy_never_repeats_a_cell :
  select_cells (D := float) corner_field 2 Gradient 0%float
               ([], Ok [(0, 1); (1, 0)])
  /\ forall (notes : list notice) (cells : list (nat * nat)),
      select_cells (D := float) corner_field 2 Gradient 0%float
                   (notes, Ok cells) ->
      NoDup cells.
Proof.
  split; [exact corner_field_two_cells|].
  intros notes cells Hsel. apply select_cells_gradient in Hsel.
  destruct Hsel as [_ Hp]. apply gradient_policy_ok in Hp.
  destruct Hp as [g [flat [_ [_ [_ [_ [Hnd _]]]]]]]. exact Hnd.
Qed.

(** C5, as amended.  Under the boundary policy, with [candidates] the cells
    whose gradient magnitude exceeds the threshold: more than [N] of them
    give [N] of them, each once; between 1 and [N] give all of them with
    their printed count; none gives exactly the outcomes of the
    gradient-weighted policy with the printed fallback, and these hold [N]
    distinct cells or are the failure [ValueError], which is the only
    outcome when fewer than [N] cells have a positive weight. *)
Theorem boundary_policy_cases :
  forall (D : Type) (A : Arith D) (M : grid Z) (num_points : Z) (threshold : D)
         (g : grid D),
    (0 <= num_points)%Z ->
    gradient_magnitude M = Ok g ->
    ((num_points < Z.of_nat (length (boundary_candidates g threshold)))%Z ->
     (exists cells,
         select_cells M num_points Boundary threshold ([], Ok cells))
     /\ forall out,
         select_cells M num_points Boundary threshold out ->
         exists cells,
           out = ([], Ok cells)
           /\ Z.of_nat (length cells) = num_points
           /\ NoDup cells
           /\ incl cells (boundary_candidates g threshold))
    /\ (0 < length (boundary_candidates g threshold) ->
        (Z.of_nat (length (boundary_candidates g threshold)) <= num_points)%Z ->
        forall out,
          select_cells M num_points Boundary threshold out
          <-> out = ([OnlyFound (length (boundary_candidates g threshold))],
                     Ok (boundary_candidates g threshold)))
    /\ (length (boundary_candidates g threshold) = 0 ->
        (forall out,
            select_cells M num_points Boundary threshold out
            <-> exists r,
                select_cells M num_points Gradient threshold ([], r)
                /\ out = ([FallingBackToGradient], r))
        /\ (forall out,
               select_cells M num_points Boundary threshold out ->
               fst out = [FallingBackToGradient]
               /\ ((exists cells,
                       snd out = Ok cells
                       /\ Z.of_nat (length cells) = num_points
                       /\ NoDup cells)
                   \/ snd out = Raise ValueError))
        /\ ((Z.of_nat (length (support (gradient_weights g))) < num_points)%Z ->
            forall out,
              select_cells M num_points Boundary threshold out ->
              out = ([FallingBackToGradient], Raise ValueError))
        /\ (forallb (dleb (of_Z 0)) (gradient_weights g) = true ->
            (num_points <= Z.of_nat (length (support (gradient_weights g))))%Z ->
            exists cells,
              select_cells M num_points Boundary threshold
                           ([FallingBackToGradient], Ok cells))).
Proof.
  intros D A M num_points threshold g Hn Hg. split; [|split].
  - intros Hmany. now apply boundary_many.
  - intros Hsome Hfew. now apply boundary_few.
  - intros Hnone.
    pose proof (boundary_none M num_points threshold g Hg Hnone) as Hiff.
    split; [exact Hiff|]. split; [|split].
    + intros out Hsel. apply Hiff in Hsel. destruct Hsel as [r [Hp ->]].
      apply select_cells_gradient in Hp. destruct Hp as [_ Hp]. cbn [snd] in Hp.
      split; [reflexivity|]. cbn [snd]. destruct r as [cells|e].
      * left. exists cells. split; [reflexivity|].
        apply gradient_policy_ok in Hp.
        destruct Hp as [g' [flat [_ [_ [_ [_ [Hnd Hlen]]]]]]]. tauto.
      * right. apply gradient_policy_raise in Hp. now subst.
    + intros Hshort out Hsel. apply Hiff in Hsel.
      destruct Hsel as [r [Hp ->]].
      apply select_cells_gradient in Hp. destruct Hp as [_ Hp]. cbn [snd] in Hp.
      now rewrite (gradient_policy_short M num_points g r Hg Hshort Hp).
    + intros Hvalid Henough. eexists. apply Hiff. eexists. split; [|reflexivity].
      apply select_cells_gradient. split; [reflexivity|]. cbn [snd].
      apply (gradient_policy_exists M num_points g Hg Hvalid). lia.
Qed.

(** The theorem at the corner field, in binary64, with threshold 5 and two
    points: no candidate, and the fallback returns two cells. *)
Lemma boundary_policy_cases_witness :
  (0 <= 2)%Z
  /\ gradient_magnitude (D := float) corner_field = Ok corner_magnitudes
  /\ length (boundary_candidates corner_magnitudes 5%float) = 0
  /\ exists cells,
      select_cells (D := float) corner_field 2 Boundary 5%float
                   ([FallingBackToGradient], Ok cells).
Proof.
  split; [lia|]. split; [exact corner_field_magnitudes|].
  split; [vm_compute; reflexivity|].
  destruct (boundary_policy_cases float float_arith corner_field 2 5%float
              corner_magnitudes ltac:(lia) corner_field_magnitudes)
    as [_ [_ Hnone]].
  destruct (Hnone ltac:(vm_compute; reflexivity)) as [_ [_ [_ Hex]]].
  apply Hex.
  - vm_compute. reflexivity.
  - vm_compute. discriminate.
Defined.

(** C5 as stated fails.  On the corner field, in binary64, with threshold 5
    no cell is a candidate, three cells have a positive weight, and for four
    points the only outcome of the boundary policy is the fallback followed
    by [ValueError]: no point is returned. *)
Lemma boundary_fallback_can_fail :
  length (boundary_candidates corner_magnitudes 5%float) = 0
  /\ length (support (gradient_weights corner_magnitudes)) = 3
  /\ select_cells (D := float) corner_field 4 Boundary 5%float
                  ([FallingBackToGradient], Raise ValueError)
  /\ forall out,
      select_cells (D := float) corner_field 4 Boundary 5%float out ->
      out = ([FallingBackToGradient], Raise ValueError).
Proof.
  assert (Hnone : length (boundary_candidates corner_magnitudes 5%float) = 0)
    by (vm_compute; reflexivity).
  assert (Hthree : length (support (gradient_weights corner_magnitudes)) = 3)
    by (vm_compute; reflexivity).
  pose proof (boundary_none corner_field 4 5%float corner_magnitudes
                corner_field_magnitudes Hnone) as Hiff.
  split; [exact Hnone|]. split; [exact Hthree|]. split.
  - apply Hiff. exists (Raise ValueError). split; [|reflexivity].
    apply select_cells_gradient. split; [reflexivity|]. cbn [snd].
    unfold gradient_policy. rewrite corner_field_magnitudes. cbv zeta.
    exists (Raise ValueError). split; [|reflexivity].
    fold (gradient_weights corner_magnitudes).
    unfold random_choice.
    replace (negb (length (gradient_weights corner_magnitudes)
                   =? length (gradient_weights corner_magnitudes))
             || negb (forallb (dleb (of_Z 0))
                              (gradient_weights corner_magnitudes)))
      with false by (vm_compute; reflexivity).
    unfold sample_outcome. rewrite Hthree. reflexivity.
  - intros out Hsel. apply Hiff in Hsel. destruct Hsel as [r [Hp ->]].
    apply select_cells_gradient in Hp. destruct Hp as [_ Hp]. cbn [snd] in Hp.
    rewrite (gradient_policy_short corner_field 4 corner_magnitudes r
               corner_field_magnitudes) ; [reflexivity| |exact Hp].
    rewrite Hthree. lia.
Qed.

(** ** The pipeline *)

(** A run of the configuration with [MAX_ITER = 0]: the field is evaluated
    (all counts 0), the cells (0,0) and (1,1) are drawn, the tour is built
    and the plot data are produced. *)
Lemma zero_iter_run :
  main zero_iter_config
       ([FieldStage; ExtractStage; TourStage; PlotStage], Some (Ok zero_iter_plot)).
Proof.
  unfold main.
  assert (Hfield : calculate_mandelbrot
                     (MANDELBROT_WIDTH zero_iter_config)
                     (MANDELBROT_HEIGHT zero_iter_config)
                     (X_MIN zero_iter_config) (X_MAX zero_iter_config)
                     (Y_MIN zero_iter_config) (Y_MAX zero_iter_config)
                     (MAX_ITER zero_iter_config)
                   = Ok ([[0; 0]; [0; 0]]%Z,
                         [[0; 1]; [0; 1]]%float,
                         [[0; 0]; [1; 1]]%float))
    by (vm_compute; reflexivity).
  rewrite Hfield.
  exists [], (Ok ([(0, 0); (1, 1)]%float, [0%Z; 0%Z])).
  split.
  - exists (Ok [(0, 0); (1, 1)]). split; [|vm_compute; reflexivity].
    cbn [fst]. unfold select_cells. cbn [SAMPLE_METHOD zero_iter_config].
    exists (Ok [(0, 0); (1, 1)]). split; [|reflexivity].
    exists (Ok [0; 1]). split.
    + unfold randint. simpl. exists [0; 1]. split; [reflexivity|].
      split; [reflexivity|]. repeat constructor; simpl; lia.
    + exists (Ok [0; 1]). split; [|reflexivity].
      unfold randint. simpl. exists [0; 1]. split; [reflexivity|].
      split; [reflexivity|]. repeat constructor; simpl; lia.
  - vm_compute. reflexivity.
Qed.

(** C9, as amended.  [main] checks no configuration parameter: every run,
    whatever the configuration, enters the field evaluation first, and
    enters the extraction as soon as the field evaluation returns. *)
Theorem main_starts_with_the_field :
  forall (D : Type) (A : Arith D) (cfg : config D)
         (out : list stage * option (result plot)),
    main cfg out ->
    (exists rest, fst out = FieldStage :: rest)
    /\ (forall field,
           calculate_mandelbrot (MANDELBROT_WIDTH cfg) (MANDELBROT_HEIGHT cfg)
                                (X_MIN cfg) (X_MAX cfg) (Y_MIN cfg) (Y_MAX cfg)
                                (MAX_ITER cfg) = Ok field ->
           exists rest, fst out = FieldStage :: ExtractStage :: rest).
Proof.
  intros D A cfg out Hrun. unfold main in Hrun.
  destruct (calculate_mandelbrot _ _ _ _ _ _ _) as [[[M X] Y]|e].
  - destruct Hrun as [notes [r [_ Hr]]].
    assert (Hext : exists rest, fst out = FieldStage :: ExtractStage :: rest).
    { destruct r as [[points iterations]|e].
      - destruct (solve_tsp _ _ _) as [[path|e]|]; subst out; simpl; eauto.
      - subst out. simpl. eauto. }
    split; [|intros _ _; exact Hext].
    destruct Hext as [rest Hrest]. rewrite Hrest. eauto.
  - subst out. split; [simpl; eauto|]. intros field Hfield. discriminate.
Qed.

(** The theorem at the run of the configuration with [MAX_ITER = 0]. *)
Lemma main_starts_with_the_field_witness :
  main zero_iter_config
       ([FieldStage; ExtractStage; TourStage; PlotStage], Some (Ok zero_iter_plot))
  /\ exists rest,
      fst ([FieldStage; ExtractStage; TourStage; PlotStage],
           Some (Ok zero_iter_plot))
      = FieldStage :: rest.
Proof.
  split; [exact zero_iter_run|].
  exact (proj1 (main_starts_with_the_field float float_arith zero_iter_config
                  _ zero_iter_run)).
Defined.

(** C9 as stated fails.  The configuration with [MAX_ITER = 0] is not valid,
    yet [main] has a run on it that goes through all four stages and ends
    with plot data: nothing rejects it. *)
Lemma invalid_configuration_runs :
  valid_config zero_iter_config = false
  /\ main zero_iter_config
          ([FieldStage; ExtractStage; TourStage; PlotStage],
           Some (Ok zero_iter_plot)).
Proof.
  split; [vm_compute; reflexivity|exact zero_iter_run].
Qed.

(** ** FractalField: the smoothing *)

Section SmoothingFacts.
Local Open Scope R_scope.

Lemma xfin_eq : forall a b : R, a = b -> XFin a = XFin b.
Proof. intros a b ->. reflexivity. Qed.

Lemma Rsign_pos : forall r : R, 0 < r -> Rsign r = Gt.
Proof.
  intros r Hr. unfold Rsign. destruct (Rlt_dec 0 r); [reflexivity|lra].
Qed.

Lemma Rsign_zero : Rsign 0 = Eq.
Proof.
  unfold Rsign. destruct (Rlt_dec 0 0); [lra|reflexivity].
Qed.

Lemma float_max_pos : 0 < float_max.
Proof.
  unfold float_max.
  assert (H52 : 1 <= 2 ^ 52) by (apply pow_R1_Rle; lra).
  assert (Hinv : / 2 ^ 52 <= 1).
  { rewrite <- Rinv_1. apply Rinv_le_contravar; lra. }
  assert (Hpow : 0 < 2 ^ 1023) by (apply pow_lt; lra).
  nra.
Qed.

(** [np.nan_to_num] never returns [nan] or an infinity. *)
Lemma xnan_to_num_finite : forall x : xreal, xfinite (xnan_to_num x) = true.
Proof. intros []; reflexivity. Qed.

(** The modulus of a finite complex number. *)
Lemma cabs_finite :
  forall a b : R,
    cabs (Cx (XFin a) (XFin b)) = XFin (R_sqrt.sqrt (a * a + b * b)).
Proof.
  intros a b. unfold cabs. simpl.
  destruct (Rlt_dec (a * a + b * b) 0); [nra|reflexivity].
Qed.

(** The array of [calculate_julia_set] is the smoothing of the loop's final
    state, cell by cell. *)
Lemma calculate_julia_set_cells :
  forall (width height : Z) (x_min x_max y_min y_max c_real c_imag : xreal)
         (max_iter : Z) (xs ys : list xreal),
    linspace x_min x_max width = Ok xs ->
    linspace y_min y_max height = Ok ys ->
    exists smoothed,
      calculate_julia_set width height x_min x_max y_min y_max c_real c_imag
                          max_iter = Ok smoothed
      /\ forall (r k : nat) (x y : xreal),
          nth_error ys r = Some y -> nth_error xs k = Some x ->
          grid_get smoothed r k
          = Some (smooth_cell
                    (fst (cell_loop (Cx c_real c_imag) (Cx x y) max_iter))
                    (snd (cell_loop (Cx c_real c_imag) (Cx x y) max_iter))).
Proof.
  intros width height x_min x_max y_min y_max c_real c_imag max_iter xs ys
         Hx Hy.
  unfold calculate_julia_set, julia_loop. rewrite Hx, Hy. cbn [bind].
  pose proof (complex_plane_meshgrid xs ys) as HC.
  destruct (meshgrid xs ys) as [X Y]. cbn [fst snd] in HC. rewrite HC.
  set (G := map (fun v => map (fun u => Cx u v) xs) ys).
  pose proof (escape_loop_cells G (fun _ => Cx c_real c_imag) (fun g => g)
                                max_iter) as Hloop.
  rewrite gmap_id in Hloop. rewrite Hloop. cbn [bind].
  rewrite gzip_with_gmap_fuse. eexists. split; [reflexivity|].
  intros r k x y Hr Hk. rewrite grid_get_gmap. unfold G.
  now rewrite (grid_get_table (fun u v => Cx u v) xs ys r k Hr Hk).
Qed.

(** The cell [z = 0] with [c = 0] and one iteration: the orbit stays at 0,
    the count is 0, and the smoothing gives the largest finite float. *)
Lemma smooth_cell_at_zero :
  smooth_cell (fst (cell_loop (Cx (XFin 0) (XFin 0)) (Cx (XFin 0) (XFin 0)) 1))
              (snd (cell_loop (Cx (XFin 0) (XFin 0)) (Cx (XFin 0) (XFin 0)) 1))
  = XFin float_max.
Proof.
  assert (Hs0 : R_sqrt.sqrt (0 * 0 + 0 * 0) = 0).
  { replace (0 * 0 + 0 * 0) with 0 by lra. apply sqrt_0. }
  assert (Hdisk : in_disk (Cx (XFin 0) (XFin 0)) = true).
  { unfold in_disk. rewrite cabs_finite, Hs0. simpl. unfold xleb, xltb, Rltb.
    destruct (Rlt_dec 0 2); [reflexivity|lra]. }
  assert (Hz : cadd (csquare (Cx (XFin 0) (XFin 0))) (Cx (XFin 0) (XFin 0))
               = Cx (XFin 0) (XFin 0)).
  { unfold cadd, csquare. simpl. f_equal; apply xfin_eq; lra. }
  assert (Hloop : cell_loop (Cx (XFin 0) (XFin 0)) (Cx (XFin 0) (XFin 0)) 1
                  = (Cx (XFin 0) (XFin 0), 0%Z)).
  { unfold cell_loop. change (range 1) with [0%Z]. cbn [fold_left].
    unfold cell_update. cbn [fst]. rewrite Hdisk, Hz. reflexivity. }
  rewrite Hloop. cbn [fst snd].
  unfold smooth_cell, smooth_raw. rewrite cabs_finite, Hs0.
  assert (Hln2 : 0 < ln 2) by (rewrite <- ln_1; apply ln_increasing; lra).
  simpl. replace (0 + 1) with 1 by lra.
  rewrite (Rsign_pos 1) by lra. rewrite ln_1.
  rewrite (Rsign_pos 2) by lra. unfold xlog. rewrite Rsign_zero.
  unfold xdiv. rewrite (Rsign_pos (ln 2) Hln2). reflexivity.
Qed.
End SmoothingFacts.

(** C6, as amended.  For every configuration of non-negative width and
    height, read with exact arithmetic and the IEEE special values,
    [calculate_julia_set] returns a full grid; the value of a cell is
    [iteration + 1 - log(log(|z| + 1)) / log 2] from its final orbit value
    [z] and count, passed through [nan_to_num]: [nan] becomes 0, [+inf] the
    largest finite float, [-inf] its negation; no value of the returned grid
    is [nan] or infinite. *)
Theorem smoothed_values_are_finite :
  forall (width height : Z) (x_min x_max y_min y_max c_real c_imag : xreal)
         (max_iter : Z),
    (0 <= width)%Z -> (0 <= height)%Z ->
    exists (xs ys : list xreal) (smoothed : grid xreal),
      linspace x_min x_max width = Ok xs /\ length xs = Z.to_nat width
      /\ linspace y_min y_max height = Ok ys /\ length ys = Z.to_nat height
      /\ calculate_julia_set width height x_min x_max y_min y_max c_real c_imag
                             max_iter = Ok smoothed
      /\ forall (r k : nat) (x y : xreal),
          nth_error ys r = Some y -> nth_error xs k = Some x ->
          exists (z : complex xreal) (m : Z) (v : xreal),
            cell_loop (Cx c_real c_imag) (Cx x y) max_iter = (z, m)
            /\ grid_get smoothed r k = Some v
            /\ xfinite v = true
            /\ (smooth_raw z m = XNaN -> v = XFin 0)
            /\ (smooth_raw z m = XPinf -> v = XFin float_max)
            /\ (smooth_raw z m = XNinf -> v = XFin (- float_max))
            /\ (forall a : R, smooth_raw z m = XFin a -> v = XFin a).
Proof.
  intros width height x_min x_max y_min y_max c_real c_imag max_iter Hw Hh.
  destruct (linspace_ok x_min x_max (num := width) Hw) as [xs [Hx Hlx]].
  destruct (linspace_ok y_min y_max (num := height) Hh) as [ys [Hy Hly]].
  destruct (calculate_julia_set_cells width height x_min x_max y_min y_max
              c_real c_imag max_iter xs ys Hx Hy) as [S' [HS Hcells]].
  exists xs, ys, S'. repeat (split; [assumption|]).
  intros r k x y Hr Hk.
  destruct (cell_loop (Cx c_real c_imag) (Cx x y) max_iter) as [z m] eqn:Hloop.
  exists z, m, (smooth_cell z m). split; [reflexivity|].
  split; [rewrite (Hcells r k x y Hr Hk), Hloop; reflexivity|].
  unfold smooth_cell. cbn [nan_to_num xreal_math].
  split; [apply xnan_to_num_finite|].
  repeat split; intros; match goal with
                        | E : smooth_raw z m = _ |- _ => rewrite E; reflexivity
                        end.
Qed.

(** The theorem at the one-cell grid at the origin. *)
Lemma smoothed_values_are_finite_witness :
  (0 <= 1)%Z /\ (0 <= 1)%Z
  /\ exists (xs ys : list xreal) (smoothed : grid xreal),
      linspace (XFin 0) (XFin 0) 1 = Ok xs /\ length xs = Z.to_nat 1
      /\ linspace (XFin 0) (XFin 0) 1 = Ok ys /\ length ys = Z.to_nat 1
      /\ calculate_julia_set 1 1 (XFin 0) (XFin 0) (XFin 0) (XFin 0)
                             (XFin 0) (XFin 0) 1 = Ok smoothed
      /\ forall (r k : nat) (x y : xreal),
          nth_error ys r = Some y -> nth_error xs k = Some x ->
          exists (z : complex xreal) (m : Z) (v : xreal),
            cell_loop (Cx (XFin 0) (XFin 0)) (Cx x y) 1 = (z, m)
            /\ grid_get smoothed r k = Some v
            /\ xfinite v = true
            /\ (smooth_raw z m = XNaN -> v = XFin 0)
            /\ (smooth_raw z m = XPinf -> v = XFin float_max)
            /\ (smooth_raw z m = XNinf -> v = XFin (- float_max))
            /\ (forall a : R, smooth_raw z m = XFin a -> v = XFin a).
Proof.
  split; [lia|]. split; [lia|].
  apply (smoothed_values_are_finite 1 1 (XFin 0) (XFin 0) (XFin 0) (XFin 0)
           (XFin 0) (XFin 0) 1); lia.
Defined.

(** C6 as stated fails.  On the one-cell grid at the origin with [c = 0] and
    one iteration the orbit stays at 0 and the count is 0; the code's
    [log(log(|z| + 1))] is [log 0 = -inf], the raw estimate is [+inf], and
    the returned value is the largest finite float, not the plain count 0. *)
Lemma smoothing_replaces_inf_by_float_max :
  calculate_julia_set 1 1 (XFin 0) (XFin 0) (XFin 0) (XFin 0) (XFin 0) (XFin 0) 1
  = Ok [[XFin float_max]]
  /\ snd (cell_loop (Cx (XFin 0) (XFin 0)) (Cx (XFin 0) (XFin 0)) 1) = 0%Z
  /\ XFin float_max <> XFin (IZR 0).
Proof.
  assert (Hlin : linspace (XFin 0) (XFin 0) 1 = Ok [XFin 0%R]).
  { unfold linspace. simpl. f_equal. f_equal. apply xfin_eq. lra. }
  split; [|split].
  - destruct (calculate_julia_set_cells 1 1 (XFin 0) (XFin 0) (XFin 0) (XFin 0)
                (XFin 0) (XFin 0) 1 [XFin 0%R] [XFin 0%R] Hlin Hlin)
      as [S' [HS Hcells]].
    rewrite HS. f_equal.
    pose proof (Hcells 0 0 (XFin 0%R) (XFin 0%R) eq_refl eq_refl) as Hcell.
    rewrite smooth_cell_at_zero in Hcell.
    unfold calculate_julia_set, julia_loop in HS. rewrite Hlin in HS.
    cbn [bind] in HS. simpl in HS. inversion HS as [HS']. subst S'.
    unfold grid_get in Hcell. simpl in Hcell. inversion Hcell as [Hv].
    reflexivity.
  - unfold cell_loop. change (range 1) with [0%Z]. cbn [fold_left].
    unfold cell_update. cbn [fst].
    destruct (in_disk (Cx (XFin 0) (XFin 0))); reflexivity.
  - intros Heq. inversion Heq as [Hmax]. pose proof float_max_pos. lra.
Qed.

(** * Further properties of the code *)

(** ** The escape-time loop: the count is the last index before the escape *)

Lemma range_app :
  forall a b : nat,
    range (Z.of_nat (a + b)) = range (Z.of_nat a) ++ map Z.of_nat (seq a b).
Proof.
  intros a b. unfold range. rewrite !Nat2Z.id, seq_app, map_app. reflexivity.
Qed.

Section EscapeIndex.
Context {D : Type} `{Arith D}.

(** A cell that is outside the disk is never touched again. *)
Lemma cell_update_frozen :
  forall (c z : complex D) (m : Z) (l : list Z),
    in_disk z = false -> fold_left (cell_update c) l (z, m) = (z, m).
Proof.
  intros c z m l Hout. induction l as [|i l IH]; [reflexivity|].
  cbn [fold_left]. unfold cell_update at 2. cbn [fst]. rewrite Hout. exact IH.
Qed.

Lemma cell_loop_escape :
  forall (c z0 : complex D) (e : nat) (max_iter : Z),
    (forall k : nat, k < e -> in_disk (orbit c z0 k) = true) ->
    in_disk (orbit c z0 e) = false ->
    (Z.of_nat e <= max_iter)%Z ->
    cell_loop c z0 max_iter = (orbit c z0 e, Z.max 0 (Z.of_nat e - 1)).
Proof.
  intros c z0 e max_iter Hin Hout He.
  assert (Hprefix : never_escapes c z0 (Z.of_nat e))
    by (intros k Hk; apply Hin; lia).
  destruct (@cell_loop_inside _ _ c z0 e Hprefix) as [Hz Hm].
  replace max_iter with (Z.of_nat (e + (Z.to_nat max_iter - e))) by lia.
  unfold cell_loop in *. rewrite range_app, fold_left_app.
  destruct (fold_left (cell_update c) (range (Z.of_nat e)) (z0, 0%Z))
    as [z m] eqn:Hst.
  cbn [fst snd] in Hz, Hm. subst z.
  rewrite cell_update_frozen by exact Hout. f_equal.
  destruct e as [|e'].
  - unfold range in Hst. simpl in Hst. inversion Hst. reflexivity.
  - rewrite Hm by discriminate. lia.
Qed.
End EscapeIndex.

(** X1.  A cell whose orbit is inside the disk of radius 2 at the indices
    [0 .. e-1] and outside at index [e <= max_iter] ends with the orbit value
    of index [e], never updated again, and records [e - 1], or 0 when it
    starts outside: an escape at index 0 and an escape at index 1 both record
    0. *)
Theorem escape_count_is_last_index_inside :
  forall (D : Type) (A : Arith D) (c z0 : complex D) (e : nat) (max_iter : Z),
    (forall k : nat, k < e -> in_disk (orbit c z0 k) = true) ->
    in_disk (orbit c z0 e) = false ->
    (Z.of_nat e <= max_iter)%Z ->
    cell_loop c z0 max_iter = (orbit c z0 e, Z.max 0 (Z.of_nat e - 1)).
Proof.
  intros D A c z0 e max_iter. apply cell_loop_escape.
Qed.

(** The theorem at the Julia sample [z = 0] of the scenario, which escapes
    at index 26. *)
Lemma escape_count_is_last_index_inside_witness :
  (forall k : nat, k < 26 -> in_disk (orbit scenario_c scenario_inside k) = true)
  /\ in_disk (orbit scenario_c scenario_inside 26) = false
  /\ (Z.of_nat 26 <= 50)%Z
  /\ cell_loop scenario_c scenario_inside 50
     = (orbit scenario_c scenario_inside 26, Z.max 0 (Z.of_nat 26 - 1)).
Proof.
  assert (Hin : forall k : nat,
             k < 26 -> in_disk (orbit scenario_c scenario_inside k) = true).
  { intros k Hk.
    do 26 (destruct k as [|k]; [vm_compute; reflexivity|]). lia. }
  assert (Hout : in_disk (orbit scenario_c scenario_inside 26) = false)
    by (vm_compute; reflexivity).
  split; [exact Hin|]. split; [exact Hout|]. split; [lia|].
  apply (escape_count_is_last_index_inside float float_arith scenario_c
           scenario_inside 26 50 Hin Hout). lia.
Defined.

(** ** 2-opt: local optima *)

Section LocalOptimum.
Context {D : Type} `{Arith D}.

(** Once a reversal is applied the flag stays set to the end of the sweep. *)
Lemma sweep_flag_stays :
  forall (points : list (D * D)) (n : nat) (l : list (nat * nat))
         (p p' : list nat) (b' : bool),
    fold_result (try_swap points n) l (p, true) = Ok (p', b') -> b' = true.
Proof.
  intros points n. induction l as [|[i j] l IH]; intros p p' b' Hf.
  - simpl in Hf. now inversion Hf.
  - cbn [fold_result] in Hf.
    destruct (try_swap points n (p, true) (i, j)) as [[q b]|e] eqn:Hs;
      [|discriminate].
    cbn [bind] in Hf. unfold try_swap in Hs.
    destruct (point_at points p (i - 1)); [|discriminate].
    destruct (point_at points p i); [|discriminate].
    destruct (point_at points p j); [|discriminate].
    destruct (point_at points p ((j + 1) mod n)); [|discriminate].
    cbn [bind] in Hs. destruct (dltb _ _); inversion Hs; subst;
      now apply (IH _ _ _ Hf).
Qed.

(** A sweep whose flag ends unset has applied no reversal. *)
Lemma sweep_without_improvement :
  forall (points : list (D * D)) (n : nat) (l : list (nat * nat))
         (p p' : list nat) (b : bool),
    fold_result (try_swap points n) l (p, b) = Ok (p', false) ->
    p' = p /\ b = false.
Proof.
  intros points n. induction l as [|[i j] l IH]; intros p p' b Hf.
  - simpl in Hf. inversion Hf. split; reflexivity.
  - cbn [fold_result] in Hf.
    destruct (try_swap points n (p, b) (i, j)) as [[q b1]|e] eqn:Hs;
      [|discriminate].
    cbn [bind] in Hf. unfold try_swap in Hs.
    destruct (point_at points p (i - 1)); [|discriminate].
    destruct (point_at points p i); [|discriminate].
    destruct (point_at points p j); [|discriminate].
    destruct (point_at points p ((j + 1) mod n)); [|discriminate].
    cbn [bind] in Hs. destruct (dltb _ _); inversion Hs; subst.
    + apply sweep_flag_stays in Hf. discriminate.
    + now apply IH.
Qed.

Lemma two_opt_loop_at_optimum :
  forall (points : list (D * D)) (path : list nat) (budget : nat),
    sweep points path = Ok (path, false) ->
    two_opt_loop budget points path true = Ok path.
Proof.
  intros points path budget Hsweep. destruct budget as [|budget];
    [reflexivity|].
  cbn [two_opt_loop]. rewrite Hsweep. cbn [bind].
  destruct budget; reflexivity.
Qed.
End LocalOptimum.

(** X2.  When a sweep over a tour ends with [improved] unset, it has applied
    no reversal and returns the tour as it was; [two_opt] then returns that
    tour unchanged for every budget.  So running [two_opt] again on a tour
    at which a sweep finds nothing changes nothing. *)
Theorem two_opt_fixed_at_local_optimum :
  forall (D : Type) (A : Arith D) (points : list (D * D)) (path path' : list nat),
    sweep points path = Ok (path', false) ->
    path' = path /\ forall K : Z, two_opt points path K = Ok path.
Proof.
  intros D A points path path' Hsweep.
  assert (Hsame : path' = path).
  { unfold sweep in Hsweep.
    now apply sweep_without_improvement in Hsweep. }
  subst path'. split; [reflexivity|].
  intros K. unfold two_opt. now apply two_opt_loop_at_optimum.
Qed.

(** The theorem at the tour that [two_opt] returns on the staircase. *)
Lemma two_opt_fixed_at_local_optimum_witness :
  sweep staircase [0; 1; 3; 2] = Ok ([0; 1; 3; 2], false)
  /\ forall K : Z, two_opt staircase [0; 1; 3; 2] K = Ok [0; 1; 3; 2].
Proof.
  assert (Hsweep : sweep staircase [0; 1; 3; 2] = Ok ([0; 1; 3; 2], false))
    by (vm_compute; reflexivity).
  split; [exact Hsweep|].
  exact (proj2 (two_opt_fixed_at_local_optimum float float_arith staircase
                  [0; 1; 3; 2] [0; 1; 3; 2] Hsweep)).
Defined.

(** ** 2-opt on at most three points *)

Section SmallTours.
Local Open Scope R_scope.

Lemma sweep_of_small_tour :
  forall (points : list (R * R)) (path : list nat),
    indexes points path -> (length path <= 3)%nat ->
    sweep points path = Ok (path, false).
Proof.
  intros points path Hidx Hlen. unfold sweep.
  destruct path as [|p0 [|p1 [|p2 [|p3 path]]]]; try reflexivity;
    [|simpl in Hlen; lia].
  change (index_pairs (length [p0; p1; p2])) with [(1, 2)%nat].
  cbn [fold_result]. unfold try_swap.
  rewrite (point_at_row points [p0; p1; p2] (1 - 1) p0 Hidx eq_refl).
  rewrite (point_at_row points [p0; p1; p2] 1 p1 Hidx eq_refl).
  rewrite (point_at_row points [p0; p1; p2] 2 p2 Hidx eq_refl).
  change ((2 + 1) mod length [p0; p1; p2])%nat with 0%nat.
  rewrite (point_at_row points [p0; p1; p2] 0 p0 Hidx eq_refl).
  cbn [bind].
  change (@dltb R real_arith) with Rltb.
  change (@dadd R real_arith) with Rplus. unfold Rltb.
  destruct (Rlt_dec _ _) as [Hlt|_]; [|reflexivity].
  rewrite (euclid_sym (row points p2) (row points p0)),
    (euclid_sym (row points p1) (row points p0)) in Hlt. lra.
Qed.
End SmallTours.

(** X3.  Read with exact real arithmetic, [two_opt] returns a tour of at
    most three points unchanged, for every budget: with three points the
    only pair is [(1, 2)], whose two candidate edge sums are equal. *)
Theorem two_opt_keeps_small_tours :
  forall (points : list (R * R)) (path : list nat) (K : Z),
    indexes points path -> length path <= 3 ->
    two_opt points path K = Ok path.
Proof.
  intros points path K Hidx Hlen. unfold two_opt.
  apply two_opt_loop_at_optimum. now apply sweep_of_small_tour.
Qed.

(** The theorem at a tour of three points of the plane. *)
Lemma two_opt_keeps_small_tours_witness :
  indexes three_real_points [0; 2; 1]
  /\ length [0; 2; 1] <= 3
  /\ two_opt three_real_points [0; 2; 1] 50 = Ok [0; 2; 1].
Proof.
  assert (Hidx : indexes three_real_points [0; 2; 1]).
  { unfold indexes. repeat constructor; simpl; lia. }
  split; [exact Hidx|]. split; [simpl; lia|].
  apply (two_opt_keeps_small_tours three_real_points [0; 2; 1] 50 Hidx).
  simpl. lia.
Defined.

(** ** [solve_tsp] *)

(** X4.  [solve_tsp] raises [KeyError] on the empty point set (from
    [unvisited.remove(0)]) and on every other point set returns, with either
    method and every budget, a tour that is a permutation of [0..N-1]
    starting at index 0; with a budget of 0 or less the ['2opt'] method
    returns the nearest-neighbour tour itself. *)
Theorem solve_tsp_outcomes :
  forall (D : Type) (A : Arith D) (points : list (D * D)) (method : tsp_method)
         (K : Z),
    (points = [] -> solve_tsp points method K = Some (Raise KeyError))
    /\ (points <> [] ->
        exists path,
          solve_tsp points method K = Some (Ok path)
          /\ Permutation path (seq 0 (length points))
          /\ nth_error path 0 = Some 0)
    /\ ((K <= 0)%Z ->
        solve_tsp points TwoOpt K = solve_tsp points NearestNeighbor K).
Proof.
  intros D A points method K. split; [|split].
  - intros ->. destruct method; reflexivity.
  - intros Hne.
    destruct (nearest_neighbor_tsp_spec points Hne) as [nn [Hnn [Hperm [H0 _]]]].
    unfold solve_tsp. rewrite Hnn. destruct method.
    + exists nn. split; [reflexivity|]. split; assumption.
    + assert (Hidx : indexes points nn).
      { apply indexes_permutation with (seq 0 (length points)); [exact Hperm|].
        unfold indexes. apply Forall_forall. intros v Hv.
        apply in_seq in Hv. lia. }
      destruct (two_opt_loop_invariant points (Z.to_nat K) nn true Hidx)
        as [path [Hpath [Hp Hh]]].
      exists path. unfold two_opt. rewrite Hpath. split; [reflexivity|].
      split; [exact (Permutation_trans Hp Hperm)|exact (eq_trans Hh H0)].
  - intros HK. unfold solve_tsp.
    destruct (nearest_neighbor_tsp points) as [[nn|e]|]; try reflexivity.
    unfold two_opt. replace (Z.to_nat K) with 0 by lia. reflexivity.
Qed.

(** The theorem at the staircase, in binary64, with the ['2opt'] method. *)
Lemma solve_tsp_outcomes_witness :
  staircase <> []
  /\ exists path,
      solve_tsp staircase TwoOpt 50 = Some (Ok path)
      /\ Permutation path (seq 0 (length staircase))
      /\ nth_error path 0 = Some 0.
Proof.
  split; [discriminate|].
  apply (proj1 (proj2 (solve_tsp_outcomes float float_arith staircase
                         TwoOpt 50))).
  discriminate.
Defined.

(** ** The sample grid: [np.linspace] and the shape of the field *)

Lemma set_last_last :
  forall (A : Type) (l : list A) (x : A),
    l <> [] -> nth_error (set_last l x) (length l - 1) = Some x.
Proof.
  induction l as [|a [|b l] IH]; intros x Hne.
  - congruence.
  - reflexivity.
  - specialize (IH x ltac:(discriminate)). cbn [set_last length] in *.
    replace (S (S (length l)) - 1) with (S (S (length l) - 1)) by lia.
    exact IH.
Qed.

Lemma set_last_before :
  forall (A : Type) (l : list A) (x : A) (i : nat),
    i < length l - 1 -> nth_error (set_last l x) i = nth_error l i.
Proof.
  induction l as [|a [|b l] IH]; intros x i Hi.
  - reflexivity.
  - simpl in Hi. lia.
  - cbn [set_last]. destruct i as [|i]; [reflexivity|].
    cbn [nth_error]. apply IH. simpl in *. lia.
Qed.

Lemma range_nth :
  forall (n : Z) (i : nat),
    (Z.of_nat i < n)%Z -> nth_error (range n) i = Some (Z.of_nat i).
Proof.
  intros n i Hi. unfold range. rewrite nth_error_map.
  rewrite nth_error_seq.
  destruct (Nat.ltb_spec i (Z.to_nat n)); [reflexivity|lia].
Qed.

(** [np.linspace(start, stop, num)] raises [ValueError] for a negative
    [num]; otherwise it returns [num] samples, and for [num >= 2] the last
    one is [stop] itself, whatever the arithmetic (the code overwrites it).
    Over the reals the sample of index [i < num - 1] is
    [i * ((stop - start) / (num - 1)) + start]. *)
Theorem linspace_samples :
  (forall (D : Type) (A : Arith D) (start stop : D) (num : Z),
      ((num < 0)%Z -> linspace start stop num = Raise ValueError)
      /\ ((0 <= num)%Z ->
          exists l,
            linspace start stop num = Ok l
            /\ length l = Z.to_nat num
            /\ ((2 <= num)%Z ->
                nth_error l (Z.to_nat num - 1) = Some stop)))
  /\ (forall (start stop : R) (num : Z) (i : nat),
         (Z.of_nat i < num - 1)%Z ->
         exists l,
           linspace start stop num = Ok l
           /\ nth_error l i
              = Some (IZR (Z.of_nat i) * ((stop - start) / IZR (num - 1))
                      + start)%R).
Proof.
  split.
  - intros D A start stop num. split.
    + intros Hneg. unfold linspace.
      destruct (Z.ltb_spec num 0); [reflexivity|lia].
    + intros Hnum.
      destruct (linspace_ok start stop (num := num) Hnum) as [l [Hl Hlen]].
      exists l. split; [exact Hl|]. split; [exact Hlen|].
      intros H2. unfold linspace in Hl.
      destruct (Z.ltb_spec num 0); [lia|].
      destruct (Z.ltb_spec 1 num); [|lia].
      inversion Hl as [Hl']. rewrite <- Hlen, <- Hl'.
      rewrite set_last_length. apply set_last_last.
      intros Hnil. apply (f_equal (@length D)) in Hnil.
      rewrite <- (set_last_length _ stop), Hl', Hlen in Hnil. simpl in Hnil. lia.
  - intros start stop num i Hi.
    destruct (linspace_ok (D := R) start stop (num := num)) as [l [Hl Hlen]];
      [lia|].
    exists l. split; [exact Hl|]. unfold linspace in Hl.
    destruct (Z.ltb_spec num 0); [lia|].
    destruct (Z.ltb_spec 1 num); [|lia].
    destruct (Z.ltb_spec 0 (num - 1)); [|lia].
    inversion Hl as [Hl']. clear Hl. rewrite <- Hl' in Hlen.
    rewrite set_last_length in Hlen.
    rewrite set_last_before by (rewrite Hlen; lia).
    assert (Hdiv : (IZR (num - 1) <> 0)%R) by (apply not_0_IZR; lia).
    simpl. destruct (Reqb ((stop - start) / IZR (num - 1)) 0) eqn:Hstep;
      rewrite !nth_error_map, (range_nth num i) by lia; simpl; f_equal.
    field. exact Hdiv.
Qed.

(** The theorem at five samples of [0, 1] over the reals: index 1. *)
Lemma linspace_samples_witness :
  (Z.of_nat 1 < 5 - 1)%Z
  /\ exists l,
      linspace (D := R) 0%R 1%R 5 = Ok l
      /\ nth_error l 1
         = Some (IZR (Z.of_nat 1) * ((1 - 0) / IZR (5 - 1)) + 0)%R.
Proof.
  split; [lia|].
  apply (proj2 linspace_samples 0%R 1%R 5%Z 1). lia.
Defined.

Section FieldShape.
Context {D : Type} `{Arith D}.

Lemma table_shape :
  forall (A : Type) (f : D -> D -> A) (xs ys : list D),
    has_shape (length ys) (length xs)
              (map (fun v => map (fun u => f u v) xs) ys).
Proof.
  intros A f xs ys. split; [apply length_map|].
  apply Forall_forall. intros line Hline. apply in_map_iff in Hline.
  destruct Hline as [v [<- _]]. apply length_map.
Qed.

Lemma gmap_shape :
  forall (A B : Type) (f : A -> B) (h w : nat) (g : grid A),
    has_shape h w g -> has_shape h w (gmap f g).
Proof.
  intros A B f h w g [Hh Hw]. split; [unfold gmap; now rewrite length_map|].
  apply Forall_forall. intros line Hline. unfold gmap in Hline.
  apply in_map_iff in Hline. destruct Hline as [l0 [<- Hl0]].
  rewrite length_map. rewrite Forall_forall in Hw. now apply Hw.
Qed.
End FieldShape.

(** X5.  [calculate_mandelbrot] raises [ValueError] when the width or the
    height is negative.  Otherwise it returns three arrays of [height] rows
    of [width] cells; [X[r][k]] is the [k]-th sample of the real axis and
    [Y[r][k]] the [r]-th sample of the imaginary axis; and with
    [max_iter <= 0] every count of [M] is 0. *)
Theorem calculate_mandelbrot_shape :
  forall (D : Type) (A : Arith D) (width height : Z)
         (x_min x_max y_min y_max : D) (max_iter : Z),
    (((width < 0)%Z \/ (height < 0)%Z) ->
     calculate_mandelbrot width height x_min x_max y_min y_max max_iter
     = Raise ValueError)
    /\ ((0 <= width)%Z -> (0 <= height)%Z ->
        exists xs ys M X Y,
          linspace x_min x_max width = Ok xs
          /\ linspace y_min y_max height = Ok ys
          /\ calculate_mandelbrot width height x_min x_max y_min y_max max_iter
             = Ok (M, X, Y)
          /\ has_shape (Z.to_nat height) (Z.to_nat width) M
          /\ has_shape (Z.to_nat height) (Z.to_nat width) X
          /\ has_shape (Z.to_nat height) (Z.to_nat width) Y
          /\ (forall (r k : nat) (x y : D),
                 nth_error ys r = Some y -> nth_error xs k = Some x ->
                 grid_get X r k = Some x /\ grid_get Y r k = Some y)
          /\ ((max_iter <= 0)%Z ->
              forall (r k : nat) (m : Z), grid_get M r k = Some m -> m = 0%Z)).
Proof.
  intros D A width height x_min x_max y_min y_max max_iter. split.
  - intros Hneg. unfold calculate_mandelbrot.
    destruct (Z.ltb_spec width 0) as [Hw|Hw].
    + unfold linspace at 1.
      destruct (Z.ltb_spec width 0); [reflexivity|lia].
    + destruct (linspace_ok x_min x_max (num := width) Hw) as [xs [Hx _]].
      rewrite Hx. cbn [bind]. unfold linspace.
      destruct (Z.ltb_spec height 0); [reflexivity|lia].
  - intros Hw Hh.
    destruct (linspace_ok x_min x_max (num := width) Hw) as [xs [Hx Hlx]].
    destruct (linspace_ok y_min y_max (num := height) Hh) as [ys [Hy Hly]].
    unfold calculate_mandelbrot. rewrite Hx, Hy. cbn [bind].
    pose proof (complex_plane_meshgrid xs ys) as HC.
    unfold meshgrid in *. cbn [fst snd] in HC. rewrite HC.
    set (G := map (fun v => map (fun u => Cx u v) xs) ys).
    pose proof (escape_loop_cells G (fun g => g) (fun _ => czero) max_iter)
      as Hloop.
    rewrite gmap_id in Hloop. rewrite Hloop.
    eexists xs, ys, _, _, _. split; [reflexivity|]. split; [reflexivity|].
    split; [reflexivity|].
    rewrite <- Hlx, <- Hly. split; [|split; [|split; [|split]]].
    + apply gmap_shape. apply (table_shape _ (fun u v => Cx u v)).
    + split; [apply length_map|]. apply Forall_forall. intros line Hline.
      apply in_map_iff in Hline. now destruct Hline as [v [<- _]].
    + apply (table_shape _ (fun _ v => v) xs ys).
    + intros r k x y Hr Hk. split.
      * unfold grid_get. rewrite nth_error_map, Hr. exact Hk.
      * apply (grid_get_table (fun _ v => v) xs ys r k Hr Hk).
    + intros Hzero r k m Hm. rewrite grid_get_gmap in Hm.
      destruct (grid_get G r k) as [c|]; [|discriminate].
      simpl in Hm. inversion Hm. unfold cell_loop, range.
      replace (Z.to_nat max_iter) with 0 by lia. reflexivity.
Qed.

(** The theorem at a 3 x 2 grid, in binary64. *)
Lemma calculate_mandelbrot_shape_witness :
  (0 <= 3)%Z /\ (0 <= 2)%Z
  /\ exists M X Y,
      calculate_mandelbrot 3 2 (-2)%float 1%float (-1)%float 1%float 5
      = Ok (M, X, Y)
      /\ has_shape (Z.to_nat 2) (Z.to_nat 3) M.
Proof.
  split; [lia|]. split; [lia|].
  destruct (proj2 (calculate_mandelbrot_shape float float_arith 3 2
                     (-2)%float 1%float (-1)%float 1%float 5))
    as [xs [ys [M [X [Y [_ [_ [Hf [HM _]]]]]]]]]; [lia|lia|].
  exists M, X, Y. split; [exact Hf|exact HM].
Defined.

(** ** The random policy *)

Section RandomPolicy.
Context {D : Type} `{Arith D}.

Lemma randint_ok :
  forall (high size : Z) (l : list nat),
    randint 0 high size (Ok l) ->
    Z.of_nat (length l) = size /\ Forall (fun v => (Z.of_nat v < high)%Z) l.
Proof.
  intros high size l Hr. unfold randint in Hr.
  destruct (Z.eqb_spec size 0) as [Hz|Hz].
  - inversion Hr. subst. split; [reflexivity|constructor].
  - match type of Hr with
    | (if ?c then _ else _) => destruct c
    end; [discriminate|].
    destruct Hr as [l' [Heq [Hlen Hall]]]. inversion Heq; subst l'.
    split; [exact Hlen|]. apply Forall_impl with (2 := Hall).
    intros v Hv. lia.
Qed.

Lemma randint_total :
  forall (high size : Z) (r : result (list nat)),
    (0 <= size)%Z -> (0 < high)%Z ->
    randint 0 high size r -> exists l, r = Ok l.
Proof.
  intros high size r Hsize Hhigh Hr. unfold randint in Hr.
  destruct (Z.eqb_spec size 0); [now exists []|].
  destruct (Z.ltb_spec size 0); [lia|].
  destruct (Z.leb_spec high 0); [lia|]. simpl in Hr.
  destruct Hr as [l [Heq _]]. now exists l.
Qed.

Lemma randint_constant :
  forall (high size : Z),
    (0 <= size)%Z -> (0 < high)%Z ->
    randint 0 high size (Ok (repeat 0 (Z.to_nat size))).
Proof.
  intros high size Hsize Hhigh. unfold randint.
  destruct (Z.eqb_spec size 0) as [->|Hz]; [reflexivity|].
  destruct (Z.ltb_spec size 0); [lia|].
  destruct (Z.leb_spec high 0); [lia|]. simpl.
  eexists. split; [reflexivity|]. split; [rewrite repeat_length; lia|].
  apply Forall_forall. intros v Hv. apply repeat_spec in Hv. subst. lia.
Qed.

Lemma randint_empty :
  forall (low high : Z) (r : result (list nat)),
    randint low high 0 r -> r = Ok [].
Proof.
  intros low high r Hr. exact Hr.
Qed.

Lemma randint_raise :
  forall (low high size : Z) (r : result (list nat)),
    size <> 0%Z -> (size < 0)%Z \/ (high <= low)%Z ->
    randint low high size r -> r = Raise ValueError.
Proof.
  intros low high size r Hz Hbad Hr. unfold randint in Hr.
  destruct (Z.eqb_spec size 0); [contradiction|].
  destruct (Z.ltb_spec size 0); [exact Hr|].
  destruct (Z.leb_spec high low); [exact Hr|lia].
Qed.

Lemma combine_repeat :
  forall (A B : Type) (a : A) (b : B) (n : nat),
    combine (repeat a n) (repeat b n) = repeat (a, b) n.
Proof.
  induction n as [|n IH]; simpl; [reflexivity|]. now rewrite IH.
Qed.

Lemma combine_bounds :
  forall (h w : Z) (py px : list nat),
    Forall (fun v => (Z.of_nat v < h)%Z) py ->
    Forall (fun v => (Z.of_nat v < w)%Z) px ->
    Forall (fun c : nat * nat => (Z.of_nat (fst c) < h)%Z
                                 /\ (Z.of_nat (snd c) < w)%Z)
           (combine py px).
Proof.
  intros h w py px Hy. revert px.
  induction Hy as [|y py Hy0 Hy IH]; intros px Hx; simpl; [constructor|].
  destruct Hx as [|x px Hx0 Hx]; constructor; [split; assumption|].
  now apply IH.
Qed.
End RandomPolicy.

(** X6.  Under the ['random'] policy, on a grid with at least one row and
    one column and for [N >= 0], the extractor never fails: every outcome is
    [N] cells of the grid, and the draw is with replacement, the outcome made
    of [N] times the cell (0, 0) being one of them.  For [N = 0] the only
    outcome is the empty selection, whatever the grid.  For [N >= 1] on a
    grid without rows or without columns, and for [N < 0], the only outcome
    is [ValueError]. *)
Theorem random_policy_outcomes :
  forall (D : Type) (A : Arith D) (M : grid Z) (num_points : Z) (threshold : D),
    ((0 <= num_points)%Z -> 0 < rows M -> 0 < cols M ->
     select_cells M num_points RandomCells threshold
                  ([], Ok (repeat (0, 0) (Z.to_nat num_points)))
     /\ forall out,
         select_cells M num_points RandomCells threshold out ->
         exists cells,
           out = ([], Ok cells)
           /\ Z.of_nat (length cells) = num_points
           /\ Forall (fun c : nat * nat => fst c < rows M /\ snd c < cols M)
                     cells)
    /\ (num_points = 0%Z ->
        forall out,
          select_cells M num_points RandomCells threshold out <->
          out = ([], Ok []))
    /\ ((0 < num_points)%Z -> rows M = 0 \/ cols M = 0 ->
        forall out,
          select_cells M num_points RandomCells threshold out <->
          out = ([], Raise ValueError))
    /\ ((num_points < 0)%Z ->
        forall out,
          select_cells M num_points RandomCells threshold out <->
          out = ([], Raise ValueError)).
Proof.
  intros D A M num_points threshold. split; [|split; [|split]].
  - intros Hn Hrows Hcols. split.
    + unfold select_cells.
      exists (Ok (repeat (0, 0) (Z.to_nat num_points))). split; [|reflexivity].
      exists (Ok (repeat 0 (Z.to_nat num_points))).
      split; [apply randint_constant; lia|].
      exists (Ok (repeat 0 (Z.to_nat num_points))).
      split; [apply randint_constant; lia|].
      unfold rret. now rewrite combine_repeat.
    + intros out Hsel. unfold select_cells in Hsel.
      destruct Hsel as [r [[a [Hy Hk]] Hout]]. subst out.
      assert (Hh : (0 < Z.of_nat (rows M))%Z) by lia.
      assert (Hwd : (0 < Z.of_nat (cols M))%Z) by lia.
      destruct (randint_total _ _ a Hn Hh Hy) as [py ->].
      destruct Hk as [b [Hx Hk]].
      destruct (randint_total _ _ b Hn Hwd Hx) as [px ->].
      unfold rret in Hk. subst r.
      apply randint_ok in Hy. apply randint_ok in Hx.
      destruct Hy as [Hly Hby]. destruct Hx as [Hlx Hbx].
      exists (combine py px). split; [reflexivity|]. split.
      * rewrite length_combine. lia.
      * apply Forall_impl with (2 := combine_bounds _ _ py px Hby Hbx).
        intros c Hc. lia.
  - intros -> out. unfold select_cells. split.
    + intros [r [[a [Hy Hk]] Hout]]. subst out.
      apply randint_empty in Hy. subst a.
      destruct Hk as [b [Hx Hk]]. apply randint_empty in Hx. subst b.
      unfold rret in Hk. now subst r.
    + intros ->. exists (Ok []). split; [|reflexivity].
      exists (Ok []). split; [reflexivity|].
      exists (Ok []). split; reflexivity.
  - intros Hn Hempty out. unfold select_cells. split.
    + intros [r [[a [Hy Hk]] Hout]]. subst out.
      destruct (Nat.eq_dec (rows M) 0) as [Hrows|Hrows].
      * apply randint_raise in Hy; [|lia|right; lia]. subst a. now subst r.
      * destruct (randint_total (Z.of_nat (rows M)) num_points a)
          as [py ->]; [lia|lia|exact Hy|].
        destruct Hk as [b [Hx Hk]].
        apply randint_raise in Hx; [|lia|right; lia]. subst b. now subst r.
    + intros ->. exists (Raise ValueError). split; [|reflexivity].
      destruct (Nat.eq_dec (rows M) 0) as [Hrows|Hrows].
      * exists (Raise ValueError). split; [|reflexivity].
        unfold randint. destruct (Z.eqb_spec num_points 0); [lia|].
        destruct (Z.ltb_spec num_points 0); [reflexivity|].
        destruct (Z.leb_spec (Z.of_nat (rows M)) 0); [reflexivity|lia].
      * exists (Ok (repeat 0 (Z.to_nat num_points))).
        split; [apply randint_constant; lia|].
        exists (Raise ValueError). split; [|reflexivity].
        unfold randint. destruct (Z.eqb_spec num_points 0); [lia|].
        destruct (Z.ltb_spec num_points 0); [reflexivity|].
        destruct (Z.leb_spec (Z.of_nat (cols M)) 0); [reflexivity|lia].
  - intros Hn out. unfold select_cells. split.
    + intros [r [[a [Hy Hk]] Hout]]. subst out.
      apply randint_raise in Hy; [|lia|left; lia]. subst a. now subst r.
    + intros ->. exists (Raise ValueError). split; [|reflexivity].
      exists (Raise ValueError). split; [|reflexivity].
      unfold randint. destruct (Z.eqb_spec num_points 0); [lia|].
      destruct (Z.ltb_spec num_points 0); [reflexivity|lia].
Qed.

(** The theorem at the corner field, in binary64, for three points. *)
Lemma random_policy_outcomes_witness :
  (0 <= 3)%Z /\ 0 < rows corner_field /\ 0 < cols corner_field
  /\ select_cells (D := float) corner_field 3 RandomCells 5%float
                  ([], Ok (repeat (0, 0) (Z.to_nat 3))).
Proof.
  assert (Hr : 0 < rows corner_field) by (unfold rows, corner_field; simpl; lia).
  assert (Hc : 0 < cols corner_field) by (unfold cols, corner_field; simpl; lia).
  split; [lia|]. split; [exact Hr|]. split; [exact Hc|].
  apply (proj1 (random_policy_outcomes float float_arith corner_field 3
                  5%float) ltac:(lia) Hr Hc).
Defined.

(** ** The plot data *)

Lemma take_at_nth :
  forall (A : Type) (a : list A) (idx : list nat) (l : list A) (i k : nat),
    take_at a idx = Ok l -> nth_error idx i = Some k ->
    nth_error l i = nth_error a k.
Proof.
  intros A a. induction idx as [|j idx IH]; intros l i k Hl Hi.
  - destruct i; discriminate.
  - simpl in Hl. destruct (nth_error a j) as [v|] eqn:Hv; [|discriminate].
    destruct (take_at a idx) as [rest|] eqn:Hrest; [|discriminate].
    simpl in Hl. inversion Hl; subst l. destruct i as [|i].
    + simpl in Hi. inversion Hi; subst. simpl. now rewrite Hv.
    + simpl in Hi. simpl. now apply (IH rest i k).
Qed.

Lemma segments_of_nth :
  forall (D : Type) (ps : list (D * D)) (i : nat) (p q : D * D),
    nth_error ps i = Some p -> nth_error ps (S i) = Some q ->
    nth_error (segments_of ps) i = Some (p, q).
Proof.
  intros D. induction ps as [|a [|b ps] IH]; intros i p q Hp Hq.
  - destruct i; discriminate.
  - destruct i; simpl in Hq; [discriminate|destruct i; discriminate].
  - destruct i as [|i].
    + simpl in Hp, Hq. inversion Hp; inversion Hq; subst. reflexivity.
    + cbn [segments_of nth_error]. apply IH; assumption.
Qed.

(** X7.  Whenever [create_gradient_line_plot] returns, the segment of index
    [i] joins the points of the tour positions [i] and [i + 1], and there is
    one attribute per segment in position mode.  In iteration mode a tour of
    fewer than two points makes it raise [ValueError] (the maximum of an
    empty array); a tour entry that is not a row of [points] makes it raise
    [IndexError] in either mode. *)
Theorem plot_segments_follow_the_tour :
  forall (D : Type) (A : Arith D) (points : list (D * D)) (path : list nat)
         (iterations : list Z) (color_by : color_mode),
    (forall segs colors,
        create_gradient_line_plot points path iterations color_by
        = Ok (segs, colors) ->
        length segs = length path - 1
        /\ (color_by = Position -> length colors = length segs)
        /\ forall (i a b : nat) (pa pb : D * D),
            nth_error path i = Some a -> nth_error path (S i) = Some b ->
            nth_error points a = Some pa -> nth_error points b = Some pb ->
            nth_error segs i = Some (pa, pb))
    /\ (length path <= 1 ->
        Forall (fun v => v < length points) path ->
        Forall (fun v => v < length iterations) path ->
        create_gradient_line_plot points path iterations Iteration
        = Raise ValueError)
    /\ (Exists (fun v => length points <= v) path ->
        create_gradient_line_plot points path iterations color_by
        = Raise IndexError).
Proof.
  intros D A points path iterations color_by. split; [|split].
  - intros segs colors Hplot. unfold create_gradient_line_plot in Hplot.
    destruct (take_at points path) as [ps|] eqn:Hps; [|discriminate].
    cbn [bind] in Hplot.
    destruct (take_at (map of_Z iterations) path) as [its|] eqn:Hits;
      [|discriminate].
    cbn [bind] in Hplot.
    destruct (take_at_incl _ _ _ _ Hps) as [Hlen _].
    assert (Hsegs : length (segments_of ps) = length path - 1)
      by (rewrite segments_of_length; lia).
    assert (Hnth : forall (i a b : nat) (pa pb : D * D),
               nth_error path i = Some a -> nth_error path (S i) = Some b ->
               nth_error points a = Some pa -> nth_error points b = Some pb ->
               nth_error (segments_of ps) i = Some (pa, pb)).
    { intros i a b pa pb Hi HSi Ha Hb. apply segments_of_nth.
      - rewrite (take_at_nth _ _ _ _ i a Hps Hi). exact Ha.
      - rewrite (take_at_nth _ _ _ _ (S i) b Hps HSi). exact Hb. }
    destruct color_by.
    + destruct (linspace_ok (of_Z 0) (of_Z 1)
                  (num := Z.of_nat (length (segments_of ps)))) as [l [Hl Hll]];
        [lia|].
      rewrite Hl in Hplot. cbn [bind] in Hplot. inversion Hplot; subst.
      split; [exact Hsegs|]. split; [|exact Hnth].
      intros _. rewrite Hll. apply Nat2Z.id.
    + destruct (dmax (removelast its)) as [top|]; [|discriminate].
      cbn [bind] in Hplot. inversion Hplot; subst.
      split; [exact Hsegs|]. split; [discriminate|exact Hnth].
  - intros Hshort Hp Hi. unfold create_gradient_line_plot.
    destruct path as [|a [|b path]]; [| |simpl in Hshort; lia].
    + reflexivity.
    + inversion Hp as [|? ? Ha _]; subst. inversion Hi as [|? ? Ha' _]; subst.
      simpl. destruct (nth_error points a) eqn:E1;
        [|apply nth_error_None in E1; lia].
      simpl. rewrite nth_error_map.
      destruct (nth_error iterations a) eqn:E2;
        [|apply nth_error_None in E2; lia].
      reflexivity.
  - intros Hbad. unfold create_gradient_line_plot.
    replace (take_at points path) with (@Raise (list (D * D)) IndexError);
      [reflexivity|].
    symmetry. induction Hbad as [v path Hv|v path Hbad IH]; simpl.
    + replace (nth_error points v) with (@None (D * D)); [reflexivity|].
      symmetry. now apply nth_error_None.
    + destruct (nth_error points v); [|reflexivity]. now rewrite IH.
Qed.

(** The theorem at a single point, in binary64: iteration mode fails. *)
Lemma plot_segments_follow_the_tour_witness :
  length [0] <= 1
  /\ Forall (fun v => v < length staircase) [0]
  /\ Forall (fun v => v < length [0%Z; 0%Z; 0%Z; 0%Z]) [0]
  /\ create_gradient_line_plot staircase [0] [0%Z; 0%Z; 0%Z; 0%Z] Iteration
     = Raise ValueError.
Proof.
  assert (H1 : length [0] <= 1) by (simpl; lia).
  assert (H2 : Forall (fun v => v < length staircase) [0])
    by (repeat constructor; simpl; lia).
  assert (H3 : Forall (fun v => v < length [0%Z; 0%Z; 0%Z; 0%Z]) [0])
    by (repeat constructor; simpl; lia).
  split; [exact H1|]. split; [exact H2|]. split; [exact H3|].
  exact (proj1 (proj2 (plot_segments_follow_the_tour float float_arith
                         staircase [0] [0%Z; 0%Z; 0%Z; 0%Z] Iteration))
           H1 H2 H3).
Defined.

(** ** The pipeline: a failing field evaluation *)

Lemma calculate_mandelbrot_negative :
  forall (D : Type) (A : Arith D) (width height : Z)
         (x_min x_max y_min y_max : D) (max_iter : Z),
    (width < 0)%Z \/ (height < 0)%Z ->
    calculate_mandelbrot width height x_min x_max y_min y_max max_iter
    = Raise ValueError.
Proof.
  intros D A width height x_min x_max y_min y_max max_iter Hneg.
  unfold calculate_mandelbrot.
  destruct (Z.ltb_spec width 0) as [Hw|Hw].
  - unfold linspace at 1.
    destruct (Z.ltb_spec width 0); [reflexivity|lia].
  - destruct (linspace_ok x_min x_max (num := width) Hw) as [xs [Hx _]].
    rewrite Hx. cbn [bind]. unfold linspace.
    destruct (Z.ltb_spec height 0); [reflexivity|lia].
Qed.

(** X8.  With a negative width or height every run of [main] stops in the
    field evaluation with [ValueError]: no point is extracted and no tour is
    built. *)
Theorem main_stops_on_negative_size :
  forall (D : Type) (A : Arith D) (cfg : config D)
         (out : list stage * option (result plot)),
    (MANDELBROT_WIDTH cfg < 0)%Z \/ (MANDELBROT_HEIGHT cfg < 0)%Z ->
    (main cfg out <-> out = ([FieldStage], Some (Raise ValueError))).
Proof.
  intros D A cfg out Hneg. unfold main.
  rewrite (calculate_mandelbrot_negative D A (MANDELBROT_WIDTH cfg)
             (MANDELBROT_HEIGHT cfg) (X_MIN cfg) (X_MAX cfg)
             (Y_MIN cfg) (Y_MAX cfg) (MAX_ITER cfg) Hneg).
  reflexivity.
Qed.

(** The theorem at a configuration of width -1. *)
Lemma main_stops_on_negative_size_witness :
  ((MANDELBROT_WIDTH negative_width_config < 0)%Z
   \/ (MANDELBROT_HEIGHT negative_width_config < 0)%Z)
  /\ main negative_width_config ([FieldStage], Some (Raise ValueError)).
Proof.
  assert (Hneg : (MANDELBROT_WIDTH negative_width_config < 0)%Z
                 \/ (MANDELBROT_HEIGHT negative_width_config < 0)%Z)
    by (left; simpl; lia).
  split; [exact Hneg|].
  apply (main_stops_on_negative_size float float_arith negative_width_config
           ([FieldStage], Some (Raise ValueError)) Hneg).
  reflexivity.
Defined.

(** ** Extraction from a flat field *)

Lemma filter_all_false :
  forall (line : list bool) (start : nat),
    Forall (fun b => b = false) line ->
    filter (fun kb : nat * bool => snd kb)
           (combine (seq start (length line)) line) = [].
Proof.
  intros line start Hline. revert start.
  induction Hline as [|b line Hb _ IH]; intros start; [reflexivity|].
  simpl. subst b. simpl. apply IH.
Qed.

Lemma where_true_from_all_false :
  forall (mask : grid bool) (start : nat),
    Forall (Forall (fun b => b = false)) mask ->
    concat (map (fun rw : nat * list bool =>
                   map (fun kb : nat * bool => (fst rw, fst kb))
                       (filter (fun kb : nat * bool => snd kb)
                               (combine (seq 0 (length (snd rw))) (snd rw))))
                (combine (seq start (length mask)) mask)) = [].
Proof.
  intros mask start Hmask. revert start.
  induction Hmask as [|line mask Hline _ IH]; intros start; [reflexivity|].
  simpl. rewrite IH, (filter_all_false line 0 Hline). reflexivity.
Qed.

Lemma where_true_all_false :
  forall mask : grid bool,
    Forall (Forall (fun b => b = false)) mask -> where_true mask = [].
Proof.
  intros mask Hmask. apply (where_true_from_all_false mask 0 Hmask).
Qed.

Lemma gzip_with_tabulate :
  forall (A B C : Type) (f : A -> B -> C) (h w : nat)
         (a : nat -> nat -> A) (b : nat -> nat -> B),
    gzip_with f (tabulate h w a) (tabulate h w b)
    = tabulate h w (fun r k => f (a r k) (b r k)).
Proof.
  intros A B C f h w a b. unfold gzip_with, tabulate.
  rewrite zip_with_map_fuse. apply map_ext. intros r.
  apply zip_with_map_fuse.
Qed.

Lemma tabulate_Forall :
  forall (A : Type) (P : A -> Prop) (h w : nat) (f : nat -> nat -> A),
    (forall r k, r < h -> k < w -> P (f r k)) ->
    Forall (Forall P) (tabulate h w f).
Proof.
  intros A P h w f Hf. unfold tabulate. apply Forall_forall.
  intros line Hline. apply in_map_iff in Hline. destruct Hline as [r [<- Hr]].
  apply in_seq in Hr. apply Forall_forall. intros x Hx.
  apply in_map_iff in Hx. destruct Hx as [k [<- Hk]]. apply in_seq in Hk.
  apply Hf; lia.
Qed.

Lemma concat_Forall :
  forall (A : Type) (P : A -> Prop) (g : grid A),
    Forall (Forall P) g -> Forall P (concat g).
Proof.
  intros A P g Hg. induction Hg as [|line g Hline _ IH]; simpl.
  - constructor.
  - apply Forall_app. split; assumption.
Qed.

Section FlatField.
Local Open Scope R_scope.

Lemma xzero_sub : forall a : R, xzero (xsub (XFin a) (XFin a)).
Proof. intros a. exists (a + - a). split; [reflexivity|lra]. Qed.

Lemma xzero_div_pos :
  forall (x : xreal) (b : R), xzero x -> 0 < b -> xzero (xdiv x (XFin b)).
Proof.
  intros x b [v [-> Hv]] Hb. unfold xdiv. rewrite (Rsign_pos b Hb).
  exists (v / b). split; [reflexivity|]. subst v. unfold Rdiv. lra.
Qed.

Lemma xzero_magnitude :
  forall x y : xreal,
    xzero x -> xzero y -> xzero (xsqrt (xadd (xmul x x) (xmul y y))).
Proof.
  intros x y [a [-> Ha]] [b [-> Hb]]. simpl.
  destruct (Rlt_dec (a * a + b * b) 0) as [Hneg|_]; [nra|].
  exists (R_sqrt.sqrt (a * a + b * b)). split; [reflexivity|].
  subst a b. replace (0 * 0 + 0 * 0) with 0 by lra. apply sqrt_0.
Qed.

Lemma xzero_sum :
  forall (l : list xreal) (acc : xreal),
    Forall xzero l -> xzero acc -> xzero (fold_left xadd l acc).
Proof.
  induction l as [|x l IH]; intros acc Hl Hacc; [exact Hacc|].
  inversion Hl as [|? ? Hx Hl']; subst. simpl. apply IH; [exact Hl'|].
  destruct Hacc as [a [-> Ha]]. destruct Hx as [b [-> Hb]].
  exists (a + b). split; [reflexivity|lra].
Qed.

Lemma xzero_over_xzero :
  forall x y : xreal, xzero x -> xzero y -> xdiv x y = XNaN.
Proof.
  intros x y [a [-> Ha]] [b [-> Hb]]. subst a b. unfold xdiv.
  rewrite Rsign_zero. reflexivity.
Qed.

(** One entry of [np.gradient] on samples that are all the same is zero. *)
Lemma diff_at_flat :
  forall (n : nat) (f : nat -> xreal) (i : nat) (a : R),
    (2 <= n)%nat -> (i < n)%nat ->
    (forall j, (j < n)%nat -> f j = XFin a) ->
    xzero (diff_at n f i).
Proof.
  intros n f i a Hn Hi Hf. unfold diff_at.
  destruct (Nat.eqb_spec i 0) as [E0|E0].
  - rewrite (Hf 1%nat), (Hf 0%nat) by lia.
    apply xzero_div_pos; [apply xzero_sub|simpl; lra].
  - destruct (Nat.eqb_spec i (n - 1)) as [E1|E1].
    + rewrite (Hf (n - 1)%nat), (Hf (n - 2)%nat) by lia.
      apply xzero_div_pos; [apply xzero_sub|simpl; lra].
    + rewrite (Hf (i + 1)%nat), (Hf (i - 1)%nat) by lia.
      change (of_Z 2 * of_Z 1)%D with (XFin (2 * 1)).
      apply xzero_div_pos; [apply xzero_sub|lra].
Qed.

Lemma at2_flat :
  forall (M : grid Z) (m0 : Z) (h w r k : nat),
    has_shape h w M -> flat_field m0 M -> (r < h)%nat -> (k < w)%nat ->
    at2 (gmap (@of_Z xreal _) M) r k = XFin (IZR m0).
Proof.
  intros M m0 h w r k [Hh Hw] Hflat Hr Hk. unfold at2, gmap.
  destruct (nth_error M r) as [line|] eqn:Hline;
    [|apply nth_error_None in Hline; lia].
  assert (Hin : In line M) by now apply nth_error_In with r.
  rewrite Forall_forall in Hw. pose proof (Hw line Hin) as Hlen.
  unfold flat_field in Hflat. rewrite Forall_forall in Hflat.
  pose proof (Hflat line Hin) as Hvals.
  rewrite (nth_error_nth (map (map of_Z) M) r [] (x := map of_Z line))
    by (rewrite nth_error_map, Hline; reflexivity).
  destruct (nth_error line k) as [v|] eqn:Hv;
    [|apply nth_error_None in Hv; lia].
  rewrite (nth_error_nth (map of_Z line) k _ (x := of_Z v))
    by (rewrite nth_error_map, Hv; reflexivity).
  rewrite Forall_forall in Hvals.
  rewrite (Hvals v) by now apply nth_error_In with k. reflexivity.
Qed.

(** The gradient magnitude of a flat field is zero in every cell. *)
Lemma flat_gradient_magnitude :
  forall (M : grid Z) (m0 : Z) (h w : nat),
    (2 <= h)%nat -> (2 <= w)%nat -> has_shape h w M -> flat_field m0 M ->
    exists g : grid xreal,
      gradient_magnitude M = Ok g
      /\ Forall (Forall xzero) g
      /\ concat g <> [].
Proof.
  intros M m0 h w Hh Hw Hshape Hflat.
  assert (Hrows : rows (gmap (@of_Z xreal _) M) = h).
  { unfold rows, gmap. rewrite length_map. apply Hshape. }
  assert (Hcols : cols (gmap (@of_Z xreal _) M) = w).
  { unfold cols, gmap. destruct Hshape as [Hl Hall].
    destruct M as [|line M]; [simpl in Hl; lia|].
    simpl. rewrite length_map. now inversion Hall. }
  unfold gradient_magnitude, gradient. rewrite Hrows, Hcols.
  destruct (Nat.ltb_spec h 2); [lia|]. destruct (Nat.ltb_spec w 2); [lia|].
  cbn [orb bind]. rewrite gzip_with_tabulate.
  eexists. split; [reflexivity|]. split.
  - apply tabulate_Forall. intros r k Hr Hk. apply xzero_magnitude.
    + apply (diff_at_flat w _ k (IZR m0)); [lia|lia|].
      intros j Hj. now apply (at2_flat M m0 h w).
    + apply (diff_at_flat h _ r (IZR m0)); [lia|lia|].
      intros j Hj. now apply (at2_flat M m0 h w).
  - unfold tabulate. destruct h as [|h']; [lia|]. destruct w as [|w']; [lia|].
    discriminate.
Qed.

(** On a flat field the gradient-weighted policy has one outcome. *)
Lemma flat_gradient_policy :
  forall (M : grid Z) (m0 : Z) (h w : nat) (num_points : Z)
         (r : result (list (nat * nat))),
    (2 <= h)%nat -> (2 <= w)%nat -> has_shape h w M -> flat_field m0 M ->
    (gradient_policy (D := xreal) M num_points r <-> r = Raise ValueError).
Proof.
  intros M m0 h w num_points r Hh Hw Hshape Hflat.
  destruct (flat_gradient_magnitude M m0 h w Hh Hw Hshape Hflat)
    as [g [Hg [Hzero Hne]]].
  unfold gradient_policy. rewrite Hg. cbv zeta.
  assert (Hflatg : Forall xzero (concat g)) by now apply concat_Forall.
  assert (Htotal : xzero (dsum (concat g))).
  { unfold dsum. apply xzero_sum; [exact Hflatg|].
    exists 0. split; [reflexivity|reflexivity]. }
  assert (Hbad : forallb (dleb (of_Z 0))
                         (map (fun v => (v / dsum (concat g))%D) (concat g))
                 = false).
  { destruct (concat g) as [|x l]; [congruence|].
    inversion Hflatg as [|? ? Hx _]; subst. cbn [map forallb].
    change (x / dsum (x :: l))%D with (xdiv x (dsum (x :: l))).
    rewrite (xzero_over_xzero x _ Hx Htotal). reflexivity. }
  unfold rbind, random_choice. rewrite Nat.eqb_refl, Hbad. cbn [negb orb].
  split.
  - intros [a [Ha Hk]]. subst a. exact Hk.
  - intros ->. exists (Raise ValueError). split; reflexivity.
Qed.
End FlatField.

(** X9.  Read with exact arithmetic and the IEEE special values: on a field
    of at least 2 x 2 cells whose counts are all equal, the gradient
    magnitude is 0 everywhere, its normalisation is [0/0], and
    [extract_points] has a single outcome, [ValueError], under the gradient
    policy and, for every threshold [>= 0], under the boundary policy, which
    first prints its fallback. *)
Theorem flat_field_extraction_fails :
  forall (M : grid Z) (m0 : Z) (h w : nat) (num_points : Z) (threshold : R)
         (out : list notice * result (list (nat * nat))),
    2 <= h -> 2 <= w -> has_shape h w M -> flat_field m0 M ->
    (0 <= threshold)%R ->
    (select_cells (D := xreal) M num_points Gradient (XFin threshold) out
     <-> out = ([], Raise ValueError))
    /\ (select_cells (D := xreal) M num_points Boundary (XFin threshold) out
        <-> out = ([FallingBackToGradient], Raise ValueError)).
Proof.
  intros M m0 h w num_points threshold out Hh Hw Hshape Hflat Ht.
  pose proof (fun r => flat_gradient_policy M m0 h w num_points r Hh Hw
                         Hshape Hflat) as Hpolicy.
  split.
  - rewrite select_cells_gradient. destruct out as [notes r]. simpl.
    rewrite Hpolicy. split.
    + intros [-> ->]. reflexivity.
    + intros Heq. inversion Heq. split; reflexivity.
  - destruct (flat_gradient_magnitude M m0 h w Hh Hw Hshape Hflat)
      as [g [Hg [Hzero _]]].
    assert (Hnone : length (boundary_candidates g (XFin threshold)) = 0).
    { unfold boundary_candidates. rewrite where_true_all_false; [reflexivity|].
      unfold gmap. apply Forall_forall. intros line Hline.
      apply in_map_iff in Hline. destruct Hline as [l0 [<- Hl0]].
      apply Forall_forall. intros b Hb. apply in_map_iff in Hb.
      destruct Hb as [x [<- Hx]].
      rewrite Forall_forall in Hzero. pose proof (Hzero l0 Hl0) as Hl0z.
      rewrite Forall_forall in Hl0z. destruct (Hl0z x Hx) as [v [-> Hv]].
      simpl. unfold Rltb. destruct (Rlt_dec threshold v); [lra|reflexivity]. }
    rewrite (boundary_none M num_points (XFin threshold) g Hg Hnone). split.
    + intros [r [Hsel ->]]. apply select_cells_gradient in Hsel.
      destruct Hsel as [_ Hp]. cbn [snd] in Hp. apply Hpolicy in Hp. now subst.
    + intros ->. exists (Raise ValueError). split; [|reflexivity].
      apply select_cells_gradient. split; [reflexivity|]. cbn [snd].
      now apply Hpolicy.
Qed.

(** The theorem at the 2 x 2 field of zero counts with threshold 5. *)
Lemma flat_field_extraction_fails_witness :
  2 <= 2 /\ has_shape 2 2 zero_field /\ flat_field 0 zero_field
  /\ (0 <= 5)%R
  /\ select_cells (D := xreal) zero_field 3 Boundary (XFin 5)
                  ([FallingBackToGradient], Raise ValueError).
Proof.
  assert (Hshape : has_shape 2 2 zero_field).
  { split; [reflexivity|]. repeat constructor. }
  assert (Hflat : flat_field 0 zero_field).
  { unfold flat_field, zero_field. repeat constructor. }
  assert (Ht : (0 <= 5)%R) by lra.
  split; [lia|]. split; [exact Hshape|]. split; [exact Hflat|].
  split; [exact Ht|].
  apply (proj2 (flat_field_extraction_fails zero_field 0 2 2 3 5
                  ([FallingBackToGradient], Raise ValueError)
                  ltac:(lia) ltac:(lia) Hshape Hflat Ht)).
  reflexivity.
Defined.
